(** * The Goldwasser-Micali program of [main.py], embedded in Rocq.

    Python integers are [Z]; [%] and [//] are [Z.modulo] and [Z.div] (both
    round towards minus infinity, the remainder taking the sign of the
    divisor, exactly as Python's do for a non-zero divisor).  An exception
    ends the computation with [Raise]; the calls of the [random] module read
    a tape of draws, so that "for every choice of the random values" is a
    quantification over tapes. *)

From Stdlib Require Import ZArith Znumtheory Zmod List Bool String Ascii Lia
  Permutation.
Import ListNotations.
Local Open Scope Z_scope.

(** ** Outcomes of Python code *)

Inductive exn : Type := AssertionError | ZeroDivisionError | ValueError.

(** A computation that draws nothing: it returns, raises, or never ends. *)
Inductive outcome (A : Type) : Type :=
| Ret (v : A)
| Raise (e : exn)
| Diverge.
Arguments Ret {A} v.
Arguments Raise {A} e.
Arguments Diverge {A}.

(** The draws of [random], in the order the program asks for them. *)
Definition tape := list Z.

(** A computation that draws: [Ok v rest] returns [v] and leaves [rest]
    unread; [Starved] wants a draw the tape no longer has (the loop would go
    on); [BadDraw] met a draw the call of [random] cannot produce, so the tape
    describes no run of the program. *)
Inductive res (A : Type) : Type :=
| Ok (v : A) (rest : tape)
| Err (e : exn)
| Loops
| Starved
| BadDraw.
Arguments Ok {A} v rest.
Arguments Err {A} e.
Arguments Loops {A}.
Arguments Starved {A}.
Arguments BadDraw {A}.

Definition M (A : Type) : Type := tape -> res A.

Definition ret {A} (v : A) : M A := fun tp => Ok v tp.

Definition bind {A B} (m : M A) (k : A -> M B) : M B :=
  fun tp =>
    match m tp with
    | Ok v rest => k v rest
    | Err e => Err e
    | Loops => Loops
    | Starved => Starved
    | BadDraw => BadDraw
    end.

Definition lift {A} (o : outcome A) : M A :=
  fun tp =>
    match o with
    | Ret v => Ok v tp
    | Raise e => Err e
    | Diverge => Loops
    end.

Definition starve {A} : M A := fun _ => Starved.

Declare Scope py_scope.
Delimit Scope py_scope with py.
Notation "x <- m ;; k" := (bind m (fun x => k))
  (at level 61, m at next level, right associativity) : py_scope.
Local Open Scope py_scope.

(** [random.randrange(lo, hi)]: an integer [v] with [lo <= v < hi];
    [ValueError] on an empty range. *)
Definition randrange (lo hi : Z) : M Z :=
  fun tp =>
    if hi <=? lo then Err ValueError
    else match tp with
         | [] => Starved
         | v :: rest => if (lo <=? v) && (v <? hi) then Ok v rest else BadDraw
         end.

(** [random.randint(lo, hi)]: an integer [v] with [lo <= v <= hi]. *)
Definition randint (lo hi : Z) : M Z := randrange lo (hi + 1).

(** ** [jacobi] *)

(** The inner loop [while a % 2 == 0: a //= 2; r = p % 8; ...] on the binary
    digits of a non-zero [a]: one trailing zero is one turn of the loop. *)
Fixpoint halve (a : positive) (p t : Z) : positive * Z :=
  match a with
  | xO a' =>
      let r := p mod 8 in
      halve a' p (if (r =? 3) || (r =? 5) then - t else t)
  | _ => (a, t)
  end.

Definition halve_Z (a p t : Z) : Z * Z :=
  match a with
  | Z0 => (0, t)
  | Zpos q => let '(q', t') := halve q p t in (Zpos q', t')
  | Zneg q => let '(q', t') := halve q p t in (Zneg q', t')
  end.

(** The outer loop [while a != 0], one unit of fuel per turn; [None] when the
    fuel is gone before the loop is. *)
Fixpoint jacobi_loop (fuel : nat) (a p t : Z) : option Z :=
  if a =? 0 then Some (if p =? 1 then t else 0)
  else
    match fuel with
    | O => None
    | S fuel' =>
        let '(a1, t1) := halve_Z a p t in
        let a2 := p in
        let p2 := a1 in
        let t2 := if (a2 mod 4 =? p2 mod 4) && (p2 mod 4 =? 3) then - t1 else t1 in
        jacobi_loop fuel' (a2 mod p2) p2 t2
    end.

(** Turns that are always enough: [a * p] at least halves at every turn. *)
Definition jacobi_fuel (p : Z) : nat := (2 * S (Z.to_nat (Z.log2 p)))%nat.

Definition jacobi (a p : Z) : outcome Z :=
  if p =? 0 then Raise ZeroDivisionError
  else
    let a := a mod p in
    if (a <? p) && (0 <? a) && (p mod 2 =? 1) then
      match jacobi_loop (jacobi_fuel p) a p 1 with
      | Some v => Ret v
      | None => Diverge
      end
    else Raise AssertionError.

(** ** [generate_pseudo_square] *)

Fixpoint generate_pseudo_square_loop (fuel : nat) (n p q : Z) : M Z :=
  match fuel with
  | O => starve
  | S fuel' =>
      a <- randint 2 (n - 1) ;;
      j1 <- lift (jacobi a p) ;;
      j2 <- lift (jacobi a q) ;;
      if (j1 =? j2) && (j2 =? -1) then
        j3 <- lift (jacobi a n) ;;
        if j3 =? 1 then ret a else generate_pseudo_square_loop fuel' n p q
      else generate_pseudo_square_loop fuel' n p q
  end.

(** Every turn of [while True] reads one draw, so a tape of [k] draws allows
    at most [k] turns. *)
Definition generate_pseudo_square (n p q : Z) : M Z :=
  fun tp => generate_pseudo_square_loop (S (List.length tp)) n p q tp.

(** ** [get_lowlevel_prime] and [test_MillerRabin] *)

Section Sieve.

(** [constants.first_primes_list] is imported by [main.py]; the functions
    below are stated for any table. *)
Variable first_primes_list : list Z.

(** The [for ... else] over the table: [Ret true] when the loop ends without
    [break]. *)
Fixpoint survives (pc : Z) (table : list Z) : outcome bool :=
  match table with
  | [] => Ret true
  | divisor :: table' =>
      if divisor =? 0 then Raise ZeroDivisionError
      else if (pc mod divisor =? 0) && (divisor ^ 2 <=? pc) then Ret false
      else survives pc table'
  end.

Fixpoint get_lowlevel_prime_loop (fuel : nat) (n : Z) : M Z :=
  match fuel with
  | O => starve
  | S fuel' =>
      pc <- randrange (2 ^ (n - 1) + 1) (2 ^ n - 1) ;;
      ok <- lift (survives pc first_primes_list) ;;
      if ok then ret pc else get_lowlevel_prime_loop fuel' n
  end.

(** For [n < 1] Python's [2 ** (n - 1)] is a float, which [randrange]
    refuses. *)
Definition get_lowlevel_prime (n : Z) : M Z :=
  fun tp =>
    if n <? 1 then Err ValueError
    else get_lowlevel_prime_loop (S (List.length tp)) n tp.

(** The built-in [pow(b, e, m)], by squaring along the binary digits of the
    exponent. *)
Fixpoint pow3_pos (b : Z) (e : positive) (m : Z) : Z :=
  match e with
  | xH => b mod m
  | xO e' => pow3_pos (b * b mod m) e' m
  | xI e' => (b * pow3_pos (b * b mod m) e' m) mod m
  end.

Definition pow3 (b e m : Z) : Z :=
  match e with
  | Zpos q => pow3_pos b q m
  | _ => 1 mod m
  end.

(** [while ec % 2 == 0: ec >>= 1; max_2_pow += 1] on a non-zero [ec]. *)
Fixpoint strip_twos (ec : positive) (max_2_pow : Z) : positive * Z :=
  match ec with
  | xO ec' => strip_twos ec' (max_2_pow + 1)
  | _ => (ec, max_2_pow)
  end.

(** On [ec = 0] the loop never ends. *)
Definition decompose (ec : Z) : outcome (Z * Z) :=
  match ec with
  | Z0 => Diverge
  | Zpos q => let '(q', s) := strip_twos q 0 in Ret (Zpos q', s)
  | Zneg q => let '(q', s) := strip_twos q 0 in Ret (Zneg q', s)
  end.

(** [range(k)] *)
Definition range (k : Z) : list Z := map Z.of_nat (seq 0 (Z.to_nat k)).

Definition is_composite (candidate ec max_2_pow round_tester : Z) : bool :=
  if pow3 round_tester ec candidate =? 1 then false
  else if existsb
            (fun i => pow3 round_tester (2 ^ i * ec) candidate =? candidate - 1)
            (range max_2_pow)
       then false
       else true.

Fixpoint trials (k : nat) (candidate ec max_2_pow : Z) : M bool :=
  match k with
  | O => ret true
  | S k' =>
      round_tester <- randrange 2 candidate ;;
      if is_composite candidate ec max_2_pow round_tester then ret false
      else trials k' candidate ec max_2_pow
  end.

Definition number_trials : nat := 20.

Definition test_MillerRabin (candidate : Z) : M bool :=
  d <- lift (decompose (candidate - 1)) ;;
  let '(ec, max_2_pow) := d in
  if 2 ^ max_2_pow * ec =? candidate - 1 then
    trials number_trials candidate ec max_2_pow
  else lift (Raise AssertionError).

(** ** [get_prime] *)

(** [get_prime(l)] reads the module-level [prime_len], not its argument. *)
Fixpoint get_prime_loop (fuel : nat) (prime_len prime_candidate : Z) : M Z :=
  match fuel with
  | O => starve
  | S fuel' =>
      ok <- test_MillerRabin prime_candidate ;;
      if ok then ret prime_candidate
      else
        c <- get_lowlevel_prime prime_len ;;
        get_prime_loop fuel' prime_len c
  end.

Definition get_prime (prime_len l : Z) : M Z :=
  fun tp =>
    (c <- get_lowlevel_prime prime_len ;;
     get_prime_loop (S (List.length tp)) prime_len c) tp.

End Sieve.

(** ** The script under [if __name__ == "__main__"] *)

(** [bin(z)] and [int(s, 2)], as far as the script uses them. *)
Fixpoint bin_digits (q : positive) : string :=
  match q with
  | xH => "1"
  | xO q' => bin_digits q' ++ "0"
  | xI q' => bin_digits q' ++ "1"
  end.

Definition py_bin (z : Z) : string :=
  match z with
  | Z0 => "0b0"
  | Zpos q => "0b" ++ bin_digits q
  | Zneg q => "-0b" ++ bin_digits q
  end.

(** [s[k:]] *)
Fixpoint slice_from (k : nat) (s : string) : string :=
  match k, s with
  | O, _ => s
  | S k', String _ s' => slice_from k' s'
  | S _, EmptyString => EmptyString
  end.

Fixpoint int2_digits (s : string) (acc : Z) : outcome Z :=
  match s with
  | EmptyString => Ret acc
  | String c s' =>
      if Ascii.eqb c "0" then int2_digits s' (2 * acc)
      else if Ascii.eqb c "1" then int2_digits s' (2 * acc + 1)
      else Raise ValueError
  end.

(** [int(s, 2)] on a string of binary digits; anything else the script can
    hand it (the ["b..."] left of a negative number) is a [ValueError]. *)
Definition py_int2 (s : string) : outcome Z :=
  match s with
  | EmptyString => Raise ValueError
  | _ => int2_digits s 0
  end.

(** [int(xi)] on one character. *)
Definition py_int_char (c : ascii) : outcome Z :=
  let k := Z.of_nat (nat_of_ascii c) in
  if (48 <=? k) && (k <=? 57) then Ret (k - 48) else Raise ValueError.

Definition py_mod (x n : Z) : outcome Z :=
  if n =? 0 then Raise ZeroDivisionError else Ret (x mod n).

Definition bit_char (b : bool) : ascii := if b then "1"%char else "0"%char.

(** ["{0:08b}".format(ord(x))] for a character below 256. *)
Definition format_08b (c : ascii) : string :=
  let '(Ascii b0 b1 b2 b3 b4 b5 b6 b7) := c in
  String (bit_char b7) (String (bit_char b6) (String (bit_char b5)
  (String (bit_char b4) (String (bit_char b3) (String (bit_char b2)
  (String (bit_char b1) (String (bit_char b0) EmptyString))))))).

Fixpoint binary_text_of (plain_text : string) : string :=
  match plain_text with
  | EmptyString => EmptyString
  | String x rest => format_08b x ++ binary_text_of rest
  end.

(** The encryption loop: one residue per character of [binary_text]. *)
Fixpoint encrypt_loop (n z : Z) (binary_text : string) (encrypted_text : list Z)
  : M (list Z) :=
  match binary_text with
  | EmptyString => ret encrypted_text
  | String xi rest =>
      bin_z <- lift (py_int2 (slice_from 2 (py_bin z))) ;;
      bin_xi <- lift (py_int_char xi) ;;
      a <- randint 1 n ;;
      rand_a_Zn <- lift (py_int2 (slice_from 2 (py_bin (a ^ 2)))) ;;
      yi <- lift (py_mod (bin_z ^ bin_xi * rand_a_Zn) n) ;;
      encrypt_loop n z rest (encrypted_text ++ [yi])
  end.

Definition encrypt (n z : Z) (binary_text : string) : M (list Z) :=
  encrypt_loop n z binary_text [].

(** The decryption loop: [if jacobi(i, p) == 1 ... elif jacobi(i, p) == -1 ...],
    with no [else]. *)
Fixpoint decrypt_loop (p : Z) (encrypted_text : list Z) (decrypted_text : string)
  : outcome string :=
  match encrypted_text with
  | [] => Ret decrypted_text
  | i :: rest =>
      match jacobi i p with
      | Ret j1 =>
          if j1 =? 1 then decrypt_loop p rest (decrypted_text ++ "0")
          else
            match jacobi i p with
            | Ret j2 =>
                if j2 =? -1 then decrypt_loop p rest (decrypted_text ++ "1")
                else decrypt_loop p rest decrypted_text
            | Raise e => Raise e
            | Diverge => Diverge
            end
      | Raise e => Raise e
      | Diverge => Diverge
      end
  end.

Definition decrypt (p : Z) (encrypted_text : list Z) : outcome string :=
  decrypt_loop p encrypted_text "".

(** What a run of the script leaves in its variables. *)
Record session : Type := Session {
  key_p : Z;
  key_q : Z;
  key_n : Z;
  key_z : Z;
  binary_text : string;
  encrypted_text : list Z;
  decrypted_text : string
}.

Section Script.

Variable first_primes_list : list Z.

(** The key set-up of the script: [p], [q], [n = p * q] and [z], the last drawn
    by [generate_pseudo_square(1357, 23, 59)]. *)
Definition key_setup (prime_len : Z) : M (Z * Z * Z * Z) :=
  p <- get_prime first_primes_list prime_len prime_len ;;
  q <- get_prime first_primes_list prime_len prime_len ;;
  let n := p * q in
  z <- generate_pseudo_square 1357 23 59 ;;
  ret (p, q, n, z).

Definition script (prime_len : Z) (plain_text : string) : M session :=
  k <- key_setup prime_len ;;
  let '(p, q, n, z) := k in
  let bits := binary_text_of plain_text in
  enc <- encrypt n z bits ;;
  dec <- lift (decrypt p enc) ;;
  ret (Session p q n z bits enc dec).

Definition main : M session :=
  script 1024 "An example of Goldwasser-Micali cryptosystem.".

End Script.

(** ** The sieve without its guard *)

(** The variant of the design note: a candidate is rejected on plain
    divisibility by a table entry. *)
Fixpoint survives_unguarded (pc : Z) (table : list Z) : outcome bool :=
  match table with
  | [] => Ret true
  | divisor :: table' =>
      if divisor =? 0 then Raise ZeroDivisionError
      else if pc mod divisor =? 0 then Ret false
      else survives_unguarded pc table'
  end.

Fixpoint get_lowlevel_prime_unguarded_loop (table : list Z) (fuel : nat) (n : Z)
  : M Z :=
  match fuel with
  | O => starve
  | S fuel' =>
      pc <- randrange (2 ^ (n - 1) + 1) (2 ^ n - 1) ;;
      ok <- lift (survives_unguarded pc table) ;;
      if ok then ret pc else get_lowlevel_prime_unguarded_loop table fuel' n
  end.

Definition get_lowlevel_prime_unguarded (table : list Z) (n : Z) : M Z :=
  fun tp =>
    if n <? 1 then Err ValueError
    else get_lowlevel_prime_unguarded_loop table (S (List.length tp)) n tp.

(** ** Concrete data for the examples *)

(** Modelled from the spec: [constants.py], which holds [first_primes_list],
    is not among the sources; the spec describes the table as "the first
    several hundred primes".  The examples below use the first 300. *)
Definition first_primes_table : list Z :=
  [2; 3; 5; 7; 11; 13; 17; 19; 23; 29; 31; 37; 41; 43; 47; 53; 59; 61; 67;
   71; 73; 79; 83; 89; 97; 101; 103; 107; 109; 113; 127; 131; 137; 139; 149;
   151; 157; 163; 167; 173; 179; 181; 191; 193; 197; 199; 211; 223; 227;
   229; 233; 239; 241; 251; 257; 263; 269; 271; 277; 281; 283; 293; 307;
   311; 313; 317; 331; 337; 347; 349; 353; 359; 367; 373; 379; 383; 389;
   397; 401; 409; 419; 421; 431; 433; 439; 443; 449; 457; 461; 463; 467;
   479; 487; 491; 499; 503; 509; 521; 523; 541; 547; 557; 563; 569; 571;
   577; 587; 593; 599; 601; 607; 613; 617; 619; 631; 641; 643; 647; 653;
   659; 661; 673; 677; 683; 691; 701; 709; 719; 727; 733; 739; 743; 751;
   757; 761; 769; 773; 787; 797; 809; 811; 821; 823; 827; 829; 839; 853;
   857; 859; 863; 877; 881; 883; 887; 907; 911; 919; 929; 937; 941; 947;
   953; 967; 971; 977; 983; 991; 997; 1009; 1013; 1019; 1021; 1031; 1033;
   1039; 1049; 1051; 1061; 1063; 1069; 1087; 1091; 1093; 1097; 1103; 1109;
   1117; 1123; 1129; 1151; 1153; 1163; 1171; 1181; 1187; 1193; 1201; 1213;
   1217; 1223; 1229; 1231; 1237; 1249; 1259; 1277; 1279; 1283; 1289; 1291;
   1297; 1301; 1303; 1307; 1319; 1321; 1327; 1361; 1367; 1373; 1381; 1399;
   1409; 1423; 1427; 1429; 1433; 1439; 1447; 1451; 1453; 1459; 1471; 1481;
   1483; 1487; 1489; 1493; 1499; 1511; 1523; 1531; 1543; 1549; 1553; 1559;
   1567; 1571; 1579; 1583; 1597; 1601; 1607; 1609; 1613; 1619; 1621; 1627;
   1637; 1657; 1663; 1667; 1669; 1693; 1697; 1699; 1709; 1721; 1723; 1733;
   1741; 1747; 1753; 1759; 1777; 1783; 1787; 1789; 1801; 1811; 1823; 1831;
   1847; 1861; 1867; 1871; 1873; 1877; 1879; 1889; 1901; 1907; 1913; 1931;
   1933; 1949; 1951; 1973; 1979; 1987].

(** Two 1024-bit primes and a 1024-bit product of two 512-bit primes. *)
Definition P1024 : Z :=
  116529340336275218558756910501310988819015631598552418698709859495056914255976504693240166283781028715932455296044017070982310540819655506949318235013611900790848895111985241121915464298306800232367850006314916822769816270120334530582380108441494266972012266494683760203164945378848608914693883603151660548209.

Definition Q1024 : Z :=
  104515082759562821912381924208381683525782535206614882557456730971106635406375555168494360341361127714534072058931257500958333216101063573203704017212629960710115374923789692718662392435643378490226533011645178112270502588380443207119502527041806425254970836893185118213099420422791761794180930960606322210971.

Definition R512 : Z :=
  11262403143752399767513416246414854954971520742460117535870741223761698511765665082365182481661293436495902004379529171380264561478853011819816143202245077.

Definition S512 : Z :=
  11927000814754156211705300211213477509325039157756132019151618612965395720734968481693089429326049745167990269996738876034525762955672806418975064322099273.

Definition C1024 : Z := R512 * S512.

(** ** The text at both ends of the script *)

(** A Python text is the list of the code points of its characters; the
    strings of this file hold the characters below 256. *)
Definition code_points (s : string) : list Z :=
  map (fun c => Z.of_nat (nat_of_ascii c)) (list_ascii_of_string s).

Fixpoint zeros (k : nat) : string :=
  match k with
  | O => EmptyString
  | S k' => String "0" (zeros k')
  end.

(** ["{0:08b}".format(v)] for a code point [v >= 0]: the binary digits, with
    zeros in front up to the width 8. *)
Definition format_08b_code (v : Z) : string :=
  let digits := slice_from 2 (py_bin v) in
  (zeros (8 - String.length digits) ++ digits)%string.

Fixpoint binary_text_of_codes (plain_text : list Z) : string :=
  match plain_text with
  | [] => EmptyString
  | x :: rest => (format_08b_code x ++ binary_text_of_codes rest)%string
  end.

(** [re.findall("........", s)]: the successive groups of eight characters
    other than the newline; where the next eight hold a newline the search
    moves on by one character. *)
Definition is_newline (c : ascii) : bool := Ascii.eqb c "010"%char.

Fixpoint findall8 (s : string) : list string :=
  match s with
  | String c1 s1 =>
      match s1 with
      | String c2 (String c3 (String c4 (String c5 (String c6 (String c7
          (String c8 rest)))))) =>
          if existsb is_newline [c1; c2; c3; c4; c5; c6; c7; c8] then findall8 s1
          else
            String c1 (String c2 (String c3 (String c4 (String c5 (String c6
              (String c7 (String c8 EmptyString)))))))
            :: findall8 rest
      | _ => []
      end
  | EmptyString => []
  end.

(** [chr(i)] *)
Definition py_chr (i : Z) : outcome Z :=
  if (0 <=? i) && (i <? 1114112) then Ret i else Raise ValueError.

(** A list comprehension [[f(i) for i in l]]: the first exception ends it. *)
Fixpoint comprehension {A B} (f : A -> outcome B) (l : list A) : outcome (list B) :=
  match l with
  | [] => Ret []
  | i :: rest =>
      match f i with
      | Ret v =>
          match comprehension f rest with
          | Ret vs => Ret (v :: vs)
          | Raise e => Raise e
          | Diverge => Diverge
          end
      | Raise e => Raise e
      | Diverge => Diverge
      end
  end.

(** From [decrypted_text] to [result]: the groups of eight, [int(i, 2)] on
    each, [chr] on each, joined.  The groups come from [decrypted_text],
    which the decryption loop builds from the characters 0 and 1 only. *)
Definition recover_text (decrypted_text : string) : outcome (list Z) :=
  let decrypted_text_lst := findall8 decrypted_text in
  match comprehension py_int2 decrypted_text_lst with
  | Ret decrypted_text_utf => comprehension py_chr decrypted_text_utf
  | Raise e => Raise e
  | Diverge => Diverge
  end.

(** ** Auxiliary notions for the proofs *)

(** The number of trailing zero bits and what is left without them. *)
Fixpoint val2 (a : positive) : nat :=
  match a with
  | xO a' => S (val2 a')
  | _ => O
  end.

Fixpoint odd_part (a : positive) : positive :=
  match a with
  | xO a' => odd_part a'
  | _ => a
  end.

(** The sign one halving contributes: [-1] when [p mod 8] is 3 or 5. *)
Definition two_sign (p : Z) : Z :=
  if (p mod 8 =? 3) || (p mod 8 =? 5) then -1 else 1.

(** What the script reads as a plaintext bit, and the strings of them. *)
Definition bit_value (xi : ascii) : Z := if Ascii.eqb xi "1" then 1 else 0.

Fixpoint bit_string (s : string) : bool :=
  match s with
  | EmptyString => true
  | String c s' => (Ascii.eqb c "0" || Ascii.eqb c "1") && bit_string s'
  end.

(** The residues of a bit string under given masking values. *)
Fixpoint residues (n z : Z) (bits : string) (masks : list Z) : list Z :=
  match bits, masks with
  | String xi bits', a :: masks' =>
      (z ^ bit_value xi * a ^ 2) mod n :: residues n z bits' masks'
  | _, _ => []
  end.

(** What the decryption loop appends for one value of [jacobi]. *)
Definition symbol_char (j : Z) : string :=
  if j =? 1 then "0" else if j =? -1 then "1" else "".

Fixpoint decrypted_of (p : Z) (ys : list Z) : string :=
  match ys with
  | [] => ""
  | y :: ys' =>
      match jacobi y p with
      | Ret j => symbol_char j ++ decrypted_of p ys'
      | _ => decrypted_of p ys'
      end
  end.

(** A proper divisor makes a number composite. *)
Definition composite (c : Z) : Prop := exists d, 1 < d < c /\ (d | c).

(** A tape on which [test_MillerRabin] meets only the witness
    [candidate - 1]: the candidate, then 20 such draws. *)
Definition mr_tape (candidate : Z) : tape :=
  candidate :: repeat (candidate - 1) number_trials.

(** ** The symbol [jacobi] computes, by Gauss's count *)

Definition zprod (l : list Z) : Z := fold_right Z.mul 1 l.

Definition zsum (l : list Z) : Z := fold_right Z.add 0 l.

(** The half system [1 .. (n - 1) / 2] of an odd [n]. *)
Definition half (n : Z) : list Z := map Z.of_nat (seq 1 (Z.to_nat (n / 2))).

(** A residue [x mod n] is [s * h] with a sign [s] and [h] in the half
    system. *)
Definition res_sign (n x : Z) : Z := if n <? 2 * (x mod n) then -1 else 1.

Definition res_abs (n x : Z) : Z :=
  if n <? 2 * (x mod n) then n - x mod n else x mod n.

(** The product of the signs of [a * k] over the half system of [n]. *)
Definition gauss_symbol (a n : Z) : Z :=
  zprod (map (fun k => res_sign n (a * k)) (half n)).

(** The Jacobi symbol of [a] over an odd [n >= 1]. *)
Definition jacobi_symbol (a n : Z) : Z :=
  if Z.gcd a n =? 1 then gauss_symbol a n else 0.

(** The Legendre symbol of [a] modulo a prime [p], by search for a square
    root. *)
Definition is_square_mod (a p : Z) : bool :=
  existsb (fun x => (x * x) mod p =? a mod p)
          (map Z.of_nat (seq 1 (Z.to_nat (p - 1)))).

Definition legendre (a p : Z) : Z :=
  if a mod p =? 0 then 0 else if is_square_mod a p then 1 else -1.

(** The residues [1 .. p - 1]. *)
Definition units_list (p : Z) : list Z := map Z.of_nat (seq 1 (Z.to_nat (p - 1))).

(** * Properties *)

(** ** The monad *)

Lemma bind_Ok {A B} (m : M A) (k : A -> M B) tp v rest :
  m tp = Ok v rest -> bind m k tp = k v rest.
Proof. intros H. unfold bind. now rewrite H. Qed.

Lemma bind_inv {A B} (m : M A) (k : A -> M B) tp w rest :
  bind m k tp = Ok w rest ->
  exists v mid, m tp = Ok v mid /\ k v mid = Ok w rest.
Proof.
  unfold bind. destruct (m tp) as [v mid| | | |]; try discriminate.
  intros H. now exists v, mid.
Qed.

Lemma lift_inv {A} (o : outcome A) tp v rest :
  lift o tp = Ok v rest -> o = Ret v /\ rest = tp.
Proof.
  unfold lift. destruct o; try discriminate. intros H. now inversion H.
Qed.

Lemma randrange_inv lo hi tp v rest :
  randrange lo hi tp = Ok v rest -> tp = v :: rest /\ lo <= v < hi.
Proof.
  unfold randrange. destruct (hi <=? lo); try discriminate.
  destruct tp as [|w tp']; try discriminate.
  destruct ((lo <=? w) && (w <? hi)) eqn:E; try discriminate.
  intros H. inversion H. subst. apply andb_true_iff in E. split; [reflexivity|lia].
Qed.

Lemma randrange_draw lo hi v rest :
  lo <= v < hi -> randrange lo hi (v :: rest) = Ok v rest.
Proof.
  intros H. unfold randrange.
  destruct (Z.leb_spec hi lo); [lia|].
  destruct (Z.leb_spec lo v); [|lia].
  destruct (Z.ltb_spec v hi); [reflexivity|lia].
Qed.

(** ** [jacobi]: termination, range, and the zero case *)

Lemma halve_eq a p t :
  halve a p t = (odd_part a, t * two_sign p ^ Z.of_nat (val2 a)).
Proof.
  revert t. induction a as [a IH|a IH|]; intros t; simpl halve; simpl odd_part.
  - f_equal. simpl. lia.
  - rewrite IH. f_equal. unfold two_sign.
    change (val2 a~0) with (S (val2 a)). rewrite Nat2Z.inj_succ, Z.pow_succ_r by lia.
    destruct ((p mod 8 =? 3) || (p mod 8 =? 5)); lia.
  - f_equal. simpl. lia.
Qed.

Lemma odd_part_odd a : Z.pos (odd_part a) mod 2 = 1.
Proof.
  induction a as [a IH|a IH|]; simpl; trivial.
  rewrite Pos2Z.inj_xI. rewrite Z.mul_comm, Z.add_comm, Z.mod_add by lia. reflexivity.
Qed.

Lemma odd_part_val2 a : Z.pos a = 2 ^ Z.of_nat (val2 a) * Z.pos (odd_part a).
Proof.
  induction a as [a IH|a IH|]; try (simpl; lia).
  change (val2 a~0) with (S (val2 a)). change (odd_part a~0) with (odd_part a).
  rewrite Nat2Z.inj_succ, Z.pow_succ_r by lia. rewrite Pos2Z.inj_xO. lia.
Qed.

Lemma odd_part_le a : Z.pos (odd_part a) <= Z.pos a.
Proof.
  pose proof (odd_part_val2 a) as H.
  assert (0 < 2 ^ Z.of_nat (val2 a)) by (apply Z.pow_pos_nonneg; lia). nia.
Qed.

Lemma two_sign_cases p : two_sign p = 1 \/ two_sign p = -1.
Proof. unfold two_sign. destruct ((p mod 8 =? 3) || (p mod 8 =? 5)); auto. Qed.

Lemma pm1_pow s k : (s = 1 \/ s = -1) -> 0 <= k -> s ^ k = 1 \/ s ^ k = -1.
Proof.
  intros Hs Hk. pattern k. apply natlike_ind; trivial.
  - left. apply Z.pow_0_r.
  - intros x Hx IH. rewrite Z.pow_succ_r by trivial. lia.
Qed.

Lemma pm1_mul s t : (s = 1 \/ s = -1) -> (t = 1 \/ t = -1) -> s * t = 1 \/ s * t = -1.
Proof. lia. Qed.

(** One turn of the outer loop, on a positive [a]. *)
Lemma jacobi_loop_step fuel a p t :
  jacobi_loop (S fuel) (Z.pos a) p t =
  jacobi_loop fuel (p mod Z.pos (odd_part a)) (Z.pos (odd_part a))
    (let t1 := t * two_sign p ^ Z.of_nat (val2 a) in
     if (p mod 4 =? Z.pos (odd_part a) mod 4) && (Z.pos (odd_part a) mod 4 =? 3)
     then - t1 else t1).
Proof.
  cbn [jacobi_loop]. change (Z.pos a =? 0) with false. cbv iota.
  unfold halve_Z. rewrite halve_eq. reflexivity.
Qed.

Lemma jacobi_loop_zero fuel p t :
  jacobi_loop fuel 0 p t = Some (if p =? 1 then t else 0).
Proof. destruct fuel; reflexivity. Qed.

(** The product [a * p] at least halves at every turn. *)
Lemma jacobi_step_measure a p :
  Z.pos a < p ->
  2 * ((p mod Z.pos (odd_part a)) * Z.pos (odd_part a)) <= Z.pos a * p.
Proof.
  intros Hap. pose proof (odd_part_le a) as Hle.
  set (b := Z.pos (odd_part a)) in *. assert (0 < b) by (subst b; lia).
  pose proof (Z.mod_pos_bound p b ltac:(lia)) as Hr.
  pose proof (Z.div_mod p b ltac:(lia)) as Hd.
  assert (1 <= p / b) by (apply Z.div_le_lower_bound; lia).
  assert (2 * (p mod b) <= p) by nia.
  nia.
Qed.

Lemma jacobi_loop_total fuel : forall a p t,
  0 <= a < p -> a * p < 2 ^ Z.of_nat fuel ->
  exists v, jacobi_loop fuel a p t = Some v.
Proof.
  induction fuel as [|fuel IH]; intros a p t Ha Hm.
  - assert (a = 0) by (simpl in Hm; nia). subst a. rewrite jacobi_loop_zero. eauto.
  - destruct a as [|a|a]; [rewrite jacobi_loop_zero; eauto| |lia].
    rewrite jacobi_loop_step. apply IH.
    + pose proof (Z.mod_pos_bound p (Z.pos (odd_part a)) ltac:(lia)). lia.
    + pose proof (jacobi_step_measure a p ltac:(lia)).
      rewrite Nat2Z.inj_succ, Z.pow_succ_r in Hm by lia. lia.
Qed.

Lemma jacobi_loop_more_fuel fuel : forall a p t v k,
  jacobi_loop fuel a p t = Some v -> jacobi_loop (fuel + k) a p t = Some v.
Proof.
  induction fuel as [|fuel IH]; intros a p t v k H.
  - destruct a; try discriminate. rewrite jacobi_loop_zero in *. trivial.
  - destruct a as [|a|a].
    + rewrite jacobi_loop_zero in *. trivial.
    + change (S fuel + k)%nat with (S (fuel + k)). rewrite jacobi_loop_step in *.
      now apply IH.
    + change (S fuel + k)%nat with (S (fuel + k)).
      cbn [jacobi_loop] in *. change (Z.neg a =? 0) with false in *. cbv iota in *.
      destruct (halve_Z (Z.neg a) p t) as [a1 t1]. now apply IH.
Qed.

Lemma jacobi_fuel_enough a p :
  0 <= a < p -> a * p < 2 ^ Z.of_nat (jacobi_fuel p).
Proof.
  intros Ha. unfold jacobi_fuel.
  assert (Hp : p < 2 ^ Z.of_nat (S (Z.to_nat (Z.log2 p)))).
  { rewrite Nat2Z.inj_succ, Z2Nat.id by apply Z.log2_nonneg.
    apply Z.log2_spec. lia. }
  set (k := S (Z.to_nat (Z.log2 p))) in *.
  replace (Z.of_nat (2 * k)) with (Z.of_nat k + Z.of_nat k) by lia.
  rewrite Z.pow_add_r by lia. nia.
Qed.

(** The loop keeps [gcd a p], and its sign stays a sign. *)
Lemma odd_divisor_coprime_2 g p : p mod 2 = 1 -> (g | p) -> Z.gcd g 2 = 1.
Proof.
  intros Hp [k Hk].
  pose proof (Z.gcd_nonneg g 2) as Hn.
  destruct (Z.gcd_divide_r g 2) as [u Hu].
  destruct (Z.gcd_divide_l g 2) as [w Hw].
  assert (Hle : Z.gcd g 2 <= 2) by (apply Z.divide_pos_le; [lia|now exists u]).
  assert (Hnz : Z.gcd g 2 <> 0) by (intros E; rewrite E in Hu; lia).
  assert (Hc : Z.gcd g 2 = 1 \/ Z.gcd g 2 = 2) by lia.
  destruct Hc as [Hc|Hc]; trivial.
  exfalso. rewrite Hc in Hw. subst p. rewrite Hw in Hp.
  replace (k * (w * 2)) with ((k * w) * 2) in Hp by ring.
  rewrite Z.mod_mul in Hp by lia. discriminate.
Qed.

Lemma gcd_double_odd a p : p mod 2 = 1 -> Z.gcd (2 * a) p = Z.gcd a p.
Proof.
  intros Hp. apply Z.divide_antisym_nonneg; try apply Z.gcd_nonneg.
  - apply Z.gcd_greatest; [|apply Z.gcd_divide_r].
    apply Z.gauss with (m := 2); [apply Z.gcd_divide_l|].
    apply odd_divisor_coprime_2 with (p := p); trivial. apply Z.gcd_divide_r.
  - apply Z.gcd_greatest; [|apply Z.gcd_divide_r].
    apply Z.divide_mul_r. apply Z.gcd_divide_l.
Qed.

Lemma gcd_odd_part a p :
  p mod 2 = 1 -> Z.gcd (Z.pos (odd_part a)) p = Z.gcd (Z.pos a) p.
Proof.
  intros Hp. induction a as [a IH|a IH|]; trivial.
  change (odd_part a~0) with (odd_part a). rewrite IH.
  rewrite Pos2Z.inj_xO. symmetry. now apply gcd_double_odd.
Qed.

Lemma jacobi_loop_spec fuel : forall a p t v,
  0 <= a < p -> p mod 2 = 1 -> (t = 1 \/ t = -1) ->
  jacobi_loop fuel a p t = Some v ->
  (Z.gcd a p = 1 /\ (v = 1 \/ v = -1)) \/ (Z.gcd a p <> 1 /\ v = 0).
Proof.
  induction fuel as [|fuel IH]; intros a p t v Ha Hp Ht H.
  - destruct a; try discriminate. rewrite jacobi_loop_zero in H.
    rewrite Z.gcd_0_l, Z.abs_eq by lia.
    destruct (Z.eqb_spec p 1); inversion H; subst; auto.
  - destruct a as [|a|a]; [|clear Ha|lia].
    + rewrite jacobi_loop_zero in H. rewrite Z.gcd_0_l, Z.abs_eq by lia.
      destruct (Z.eqb_spec p 1); inversion H; subst; auto.
    + rewrite jacobi_loop_step in H.
      apply IH in H.
      * rewrite Z.gcd_mod, gcd_odd_part in H by (trivial; lia).
        exact H.
      * pose proof (Z.mod_pos_bound p (Z.pos (odd_part a)) ltac:(lia)). lia.
      * apply odd_part_odd.
      * cbv zeta.
        assert (Hs : t * two_sign p ^ Z.of_nat (val2 a) = 1 \/
                     t * two_sign p ^ Z.of_nat (val2 a) = -1).
        { apply pm1_mul; trivial. apply pm1_pow; [apply two_sign_cases|lia]. }
        destruct ((p mod 4 =? Z.pos (odd_part a) mod 4) &&
                  (Z.pos (odd_part a) mod 4 =? 3)); lia.
Qed.

(** ** [jacobi] at top level *)

Lemma jacobi_mod a p : jacobi (a mod p) p = jacobi a p.
Proof.
  unfold jacobi. destruct (Z.eqb_spec p 0); trivial.
  now rewrite Z.mod_mod by trivial.
Qed.

Lemma jacobi_passes a p :
  0 < p -> p mod 2 = 1 -> a mod p <> 0 ->
  jacobi a p =
  match jacobi_loop (jacobi_fuel p) (a mod p) p 1 with
  | Some v => Ret v
  | None => Diverge
  end.
Proof.
  intros Hp Hodd Ha. unfold jacobi.
  destruct (Z.eqb_spec p 0); [lia|].
  pose proof (Z.mod_pos_bound a p Hp).
  destruct (Z.ltb_spec (a mod p) p); [|lia].
  destruct (Z.ltb_spec 0 (a mod p)); [|lia].
  rewrite Hodd. reflexivity.
Qed.

(** [jacobi] never runs out of turns: where the assertion holds, it returns. *)
Lemma jacobi_returns a p :
  0 < p -> p mod 2 = 1 -> a mod p <> 0 ->
  exists v, jacobi a p = Ret v /\
            jacobi_loop (jacobi_fuel p) (a mod p) p 1 = Some v.
Proof.
  intros Hp Hodd Ha. rewrite jacobi_passes by trivial.
  pose proof (Z.mod_pos_bound a p Hp) as Hb.
  destruct (jacobi_loop_total (jacobi_fuel p) (a mod p) p 1) as [v Hv].
  - lia.
  - apply jacobi_fuel_enough. lia.
  - exists v. now rewrite Hv.
Qed.

Lemma jacobi_Ret_inv a p v :
  jacobi a p = Ret v ->
  0 < p /\ p mod 2 = 1 /\ a mod p <> 0 /\
  jacobi_loop (jacobi_fuel p) (a mod p) p 1 = Some v.
Proof.
  unfold jacobi. destruct (Z.eqb_spec p 0); try discriminate.
  destruct (Z.ltb_spec (a mod p) p); try discriminate.
  destruct (Z.ltb_spec 0 (a mod p)); try discriminate.
  destruct (Z.eqb_spec (p mod 2) 1); try discriminate. cbn [andb].
  destruct (jacobi_loop (jacobi_fuel p) (a mod p) p 1) eqn:E; try discriminate.
  intros Hr. inversion Hr. subst. repeat split; trivial; lia.
Qed.

Lemma jacobi_never_diverges a p : jacobi a p <> Diverge.
Proof.
  intros H. unfold jacobi in H.
  destruct (Z.eqb_spec p 0); try discriminate.
  destruct (Z.ltb_spec (a mod p) p); try discriminate.
  destruct (Z.ltb_spec 0 (a mod p)); try discriminate.
  destruct (Z.eqb_spec (p mod 2) 1); try discriminate. cbn [andb] in H.
  destruct (jacobi_loop_total (jacobi_fuel p) (a mod p) p 1) as [v Hv].
  - lia.
  - apply jacobi_fuel_enough. lia.
  - rewrite Hv in H. discriminate.
Qed.

(** The value is a sign when [a] and [p] are coprime, and [0] otherwise. *)
Lemma jacobi_value a p v :
  jacobi a p = Ret v ->
  (Z.gcd a p = 1 /\ (v = 1 \/ v = -1)) \/ (Z.gcd a p <> 1 /\ v = 0).
Proof.
  intros H. apply jacobi_Ret_inv in H. destruct H as (Hp & Hodd & Ha & H).
  pose proof (Z.mod_pos_bound a p Hp).
  apply jacobi_loop_spec in H; try lia.
  rewrite Z.gcd_mod, Z.gcd_comm in H by lia. exact H.
Qed.

Lemma jacobi_assertion a p :
  0 < p ->
  (jacobi a p = Raise AssertionError <-> p mod 2 = 0 \/ p = 1 \/ (p | a)).
Proof.
  intros Hp. pose proof (Z.mod_pos_bound a p Hp) as Hb.
  pose proof (Z.mod_pos_bound p 2 ltac:(lia)) as H2.
  assert (Hdiv : (p | a) <-> a mod p = 0) by (symmetry; apply Z.mod_divide; lia).
  split.
  - intros H. destruct (Z.eq_dec (p mod 2) 0) as [|Hodd]; auto.
    destruct (Z.eq_dec (a mod p) 0) as [|Ha]; [right; right; tauto|].
    exfalso. destruct (jacobi_returns a p) as (v & Hv & _); trivial; [lia|].
    congruence.
  - intros H. unfold jacobi. destruct (Z.eqb_spec p 0); [lia|].
    destruct (Z.ltb_spec (a mod p) p); [|lia].
    destruct (Z.ltb_spec 0 (a mod p)); cbn [andb]; trivial.
    destruct (Z.eqb_spec (p mod 2) 1); trivial.
    exfalso.
    destruct H as [H|[H|H]];
      [lia | subst p; rewrite Z.mod_1_r in *; lia | apply Hdiv in H; lia].
Qed.

(** Outside the moduli [p >= 1]: [a %= p] divides by zero when [p] is 0, and
    for a negative [p] the remainder is never positive. *)
Lemma jacobi_zero_modulus a : jacobi a 0 = Raise ZeroDivisionError.
Proof. reflexivity. Qed.

Lemma jacobi_negative_modulus a p : p < 0 -> jacobi a p = Raise AssertionError.
Proof.
  intros Hp. unfold jacobi. destruct (Z.eqb_spec p 0); [lia|].
  pose proof (Z.mod_neg_bound a p Hp).
  destruct (Z.ltb_spec 0 (a mod p)); [lia|].
  now rewrite andb_false_r.
Qed.

(** C10, amended.  [jacobi] first reduces [a] modulo [p]: when [p] is odd,
    above 1, and [a mod p] is not 0 -- also for [a >= p] or [a < 0] -- the
    call returns, without raising, what [jacobi(a mod p, p)] returns.  The
    entry assertion fails exactly when [p] is negative, or [p] is positive
    and even, or 1, or a divisor of [a]; when [p] is 0, and only then, the
    reduction [a %= p] raises [ZeroDivisionError] before the assertion is
    reached. *)
Theorem jacobi_reduces_before_asserting (a p : Z) :
  (1 < p -> p mod 2 = 1 -> a mod p <> 0 ->
   exists v, jacobi a p = Ret v /\ jacobi (a mod p) p = Ret v) /\
  (jacobi a p = Raise AssertionError <->
   p < 0 \/ (0 < p /\ (p mod 2 = 0 \/ p = 1 \/ (p | a)))) /\
  (jacobi a p = Raise ZeroDivisionError <-> p = 0).
Proof.
  split; [|split].
  - intros H1 Hodd Ha.
    destruct (jacobi_returns a p) as (v & Hv & _); trivial; [lia|].
    exists v. split; trivial. now rewrite jacobi_mod.
  - split.
    + intros H. destruct (Z.lt_trichotomy p 0) as [Hn|[H0|Hp]].
      * now left.
      * subst p. rewrite jacobi_zero_modulus in H. discriminate.
      * right. split; trivial. now apply jacobi_assertion.
    + intros [Hn|[Hp H]].
      * now apply jacobi_negative_modulus.
      * now apply jacobi_assertion.
  - split.
    + intros H. destruct (Z.eq_dec p 0) as [|Hp0]; trivial. exfalso.
      pose proof (jacobi_never_diverges a p) as Hd.
      unfold jacobi in H, Hd. destruct (Z.eqb_spec p 0); [lia|].
      destruct ((a mod p <? p) && (0 <? a mod p) && (p mod 2 =? 1));
        [|discriminate].
      destruct (jacobi_loop (jacobi_fuel p) (a mod p) p 1); discriminate.
    + intros ->. reflexivity.
Qed.

Lemma jacobi_reduces_before_asserting_witness :
  exists v, jacobi 1000 9 = Ret v /\ jacobi (1000 mod 9) 9 = Ret v.
Proof.
  apply (proj1 (jacobi_reduces_before_asserting 1000 9));
    [lia | reflexivity | vm_compute; discriminate].
Defined.

(** C10 as stated fails outside the moduli [p >= 1].  The modulus -7 is
    odd, is not 1 and does not divide 5, and the entry assertion fails on it;
    the modulus 0 is even, and it is not the assertion that fails on it. *)
Theorem jacobi_assertion_outside_positive_moduli :
  (jacobi 5 (-7) = Raise AssertionError /\
   ~ ((-7) mod 2 = 0 \/ -7 = 1 \/ (-7 | 5))) /\
  (0 mod 2 = 0 /\ jacobi 5 0 = Raise ZeroDivisionError /\
   jacobi 5 0 <> Raise AssertionError).
Proof.
  split; [split|split; [|split]].
  - vm_compute. reflexivity.
  - intros [H|[H|[k H]]]; [vm_compute in H; discriminate | discriminate | lia].
  - reflexivity.
  - reflexivity.
  - vm_compute. discriminate.
Qed.

(** ** The sieve and its guard *)

Lemma survives_unguarded_eq pc table :
  (forall d, In d table -> d ^ 2 < pc) ->
  survives pc table = survives_unguarded pc table.
Proof.
  induction table as [|d table IH]; intros H; trivial.
  cbn [survives survives_unguarded].
  destruct (d =? 0); trivial.
  assert (Hd : (d ^ 2 <=? pc) = true).
  { apply Z.leb_le. specialize (H d (or_introl eq_refl)). lia. }
  rewrite Hd, andb_true_r.
  destruct (pc mod d =? 0); trivial.
  apply IH. intros e He. apply H. now right.
Qed.

Lemma get_lowlevel_prime_loop_unguarded table n fuel : forall tp,
  (forall d, In d table -> d ^ 2 <= 2 ^ (n - 1)) ->
  get_lowlevel_prime_loop table fuel n tp =
  get_lowlevel_prime_unguarded_loop table fuel n tp.
Proof.
  induction fuel as [|fuel IH]; intros tp H; trivial.
  cbn [get_lowlevel_prime_loop get_lowlevel_prime_unguarded_loop].
  unfold bind at 1 3.
  destruct (randrange (2 ^ (n - 1) + 1) (2 ^ n - 1) tp) as [pc mid| | | |] eqn:E;
    trivial.
  apply randrange_inv in E. destruct E as [_ Hpc].
  rewrite <- survives_unguarded_eq.
  2:{ intros d Hd. specialize (H d Hd). lia. }
  unfold bind. destruct (lift (survives pc table) mid) as [[|] mid'| | | |];
    trivial.
  now apply IH.
Qed.

(** C9. Dropping the guard [divisor ** 2 <= pc] changes nothing for a
    candidate that exceeds the square of every table entry: the accept/reject
    decision on it is the same.  Hence the two sieves are the same, on every
    tape of draws, at every bit length [n] whose candidates all exceed those
    squares, that is when no square is above [2 ^ (n - 1)]. *)
Theorem sieve_guard_is_redundant (table : list Z) :
  (forall pc, (forall d, In d table -> d ^ 2 < pc) ->
     survives pc table = survives_unguarded pc table) /\
  (forall n, (forall d, In d table -> d ^ 2 <= 2 ^ (n - 1)) ->
     forall tp, get_lowlevel_prime table n tp =
                get_lowlevel_prime_unguarded table n tp).
Proof.
  split.
  - intros pc H. now apply survives_unguarded_eq.
  - intros n H tp. unfold get_lowlevel_prime, get_lowlevel_prime_unguarded.
    destruct (n <? 1); trivial.
    now apply get_lowlevel_prime_loop_unguarded.
Qed.

(** ** [bin] and [int(..., 2)] undo each other *)

Lemma int2_digits_app s1 : forall s2 acc,
  int2_digits (s1 ++ s2) acc =
  match int2_digits s1 acc with
  | Ret v => int2_digits s2 v
  | Raise e => Raise e
  | Diverge => Diverge
  end.
Proof.
  induction s1 as [|c s1 IH]; intros s2 acc; trivial.
  cbn [append int2_digits].
  destruct (Ascii.eqb c "0"); [apply IH|].
  destruct (Ascii.eqb c "1"); [apply IH|trivial].
Qed.

Lemma int2_digits_bin q : int2_digits (bin_digits q) 0 = Ret (Z.pos q).
Proof.
  induction q as [q IH|q IH|]; trivial; cbn [bin_digits];
    rewrite int2_digits_app, IH; reflexivity.
Qed.

Lemma bin_digits_nonempty q : exists c s, bin_digits q = String c s.
Proof.
  induction q as [q [c [s IH]]|q [c [s IH]]|]; cbn [bin_digits].
  - rewrite IH. cbn. eauto.
  - rewrite IH. cbn. eauto.
  - eauto.
Qed.

Lemma py_int2_bin z : 0 <= z -> py_int2 (slice_from 2 (py_bin z)) = Ret z.
Proof.
  intros Hz. destruct z as [|q|q]; [reflexivity| |lia].
  cbn [py_bin append slice_from].
  destruct (bin_digits_nonempty q) as (c & s & E).
  unfold py_int2. rewrite <- (int2_digits_bin q). now rewrite E.
Qed.

Lemma py_int2_bin_negative q : py_int2 (slice_from 2 (py_bin (Z.neg q))) = Raise ValueError.
Proof. reflexivity. Qed.

Lemma py_int2_bin_inv z v : py_int2 (slice_from 2 (py_bin z)) = Ret v -> v = z /\ 0 <= z.
Proof.
  destruct z as [|q|q].
  - cbn. intros H. inversion H. lia.
  - rewrite py_int2_bin by lia. intros H. inversion H. lia.
  - rewrite py_int2_bin_negative. discriminate.
Qed.

Lemma py_int_char_bit xi :
  (Ascii.eqb xi "0" || Ascii.eqb xi "1") = true ->
  py_int_char xi = Ret (bit_value xi).
Proof.
  intros H. apply orb_true_iff in H.
  destruct H as [H|H]; apply Ascii.eqb_eq in H; subst xi; reflexivity.
Qed.

(** ** The encryption loop *)

Lemma encrypt_loop_emits n z bits : forall masks acc rest,
  0 <= z -> bit_string bits = true ->
  List.length masks = String.length bits ->
  Forall (fun a => 1 <= a <= n) masks ->
  encrypt_loop n z bits acc (masks ++ rest) = Ok (acc ++ residues n z bits masks) rest.
Proof.
  induction bits as [|xi bits IH]; intros masks acc rest Hz Hb Hl Hm.
  - destruct masks; [|discriminate]. cbn. now rewrite app_nil_r.
  - destruct masks as [|a masks]; [discriminate|].
    cbn [bit_string] in Hb. apply andb_true_iff in Hb. destruct Hb as [Hxi Hb].
    inversion Hm as [|? ? Ha Hm']. subst.
    cbn [encrypt_loop residues].
    rewrite py_int2_bin by trivial.
    rewrite py_int_char_bit by trivial.
    unfold bind at 1. cbn [lift]. unfold bind at 1. cbn [lift].
    unfold bind at 1. unfold randint.
    change ((a :: masks) ++ rest) with (a :: (masks ++ rest)).
    rewrite randrange_draw by lia.
    rewrite py_int2_bin by (apply Z.pow_nonneg; lia).
    unfold bind at 1. cbn [lift].
    unfold bind at 1, py_mod. destruct (Z.eqb_spec n 0); [lia|]. cbn [lift].
    rewrite IH; trivial.
    + now rewrite <- app_assoc.
    + cbn in Hl. lia.
Qed.

Lemma encrypt_loop_inv n z bits : forall tp acc ys rest,
  bit_string bits = true ->
  encrypt_loop n z bits acc tp = Ok ys rest ->
  exists masks,
    tp = masks ++ rest /\ List.length masks = String.length bits /\
    Forall (fun a => 1 <= a <= n) masks /\
    ys = acc ++ residues n z bits masks.
Proof.
  induction bits as [|xi bits IH]; intros tp acc ys rest Hb H.
  - cbn in H. inversion H. subst. exists []. cbn. now rewrite app_nil_r.
  - cbn [bit_string] in Hb. apply andb_true_iff in Hb. destruct Hb as [Hxi Hb].
    cbn [encrypt_loop] in H.
    apply bind_inv in H. destruct H as (bz & t1 & H1 & H).
    apply lift_inv in H1. destruct H1 as [H1 ->].
    apply py_int2_bin_inv in H1. destruct H1 as [-> Hz].
    apply bind_inv in H. destruct H as (bx & t2 & H2 & H).
    apply lift_inv in H2. destruct H2 as [H2 ->].
    rewrite py_int_char_bit in H2 by trivial. inversion H2. subst bx.
    apply bind_inv in H. destruct H as (a & t3 & H3 & H).
    apply randrange_inv in H3. destruct H3 as [-> Ha].
    apply bind_inv in H. destruct H as (r & t4 & H4 & H).
    apply lift_inv in H4. destruct H4 as [H4 ->].
    apply py_int2_bin_inv in H4. destruct H4 as [-> _].
    apply bind_inv in H. destruct H as (yi & t5 & H5 & H).
    apply lift_inv in H5. destruct H5 as [H5 ->].
    unfold py_mod in H5. destruct (n =? 0); [discriminate|]. inversion H5. subst yi.
    apply IH in H; trivial. destruct H as (masks & -> & Hl & Hm & ->).
    exists (a :: masks). cbn [residues List.length String.length app].
    repeat split; trivial.
    + now rewrite Hl.
    + constructor; trivial. lia.
    + now rewrite <- app_assoc.
Qed.

Lemma residues_range n z bits : forall masks,
  0 < n -> Forall (fun y => 0 <= y < n) (residues n z bits masks).
Proof.
  induction bits as [|xi bits IH]; intros masks Hn; [constructor|].
  destruct masks as [|a masks]; [constructor|].
  cbn [residues]. constructor; [|now apply IH].
  now apply Z.mod_pos_bound.
Qed.

Lemma residues_length n z bits : forall masks,
  List.length masks = String.length bits ->
  List.length (residues n z bits masks) = String.length bits.
Proof.
  induction bits as [|xi bits IH]; intros masks Hl; trivial.
  destruct masks as [|a masks]; [discriminate|].
  cbn in *. f_equal. apply IH. lia.
Qed.

(** C4, amended.  The masking value of a bit is drawn by
    [random.randint(1, n)], that is from the closed range [1, n] ([n] itself
    included): for a bit string and one draw per bit from that range the loop
    emits [z ** x * a ** 2 % n] for each bit [x] with its own draw [a], every
    emitted residue lies in [0, n), and no run of the loop consumes anything
    but such draws. *)
Theorem encrypt_draws_from_closed_range (n z : Z) (bits : string) :
  0 <= z -> bit_string bits = true ->
  (forall masks rest,
     List.length masks = String.length bits ->
     Forall (fun a => 1 <= a <= n) masks ->
     encrypt n z bits (masks ++ rest) = Ok (residues n z bits masks) rest /\
     List.length (residues n z bits masks) = String.length bits /\
     (bits <> EmptyString -> Forall (fun y => 0 <= y < n) (residues n z bits masks))) /\
  (forall tp ys rest,
     encrypt n z bits tp = Ok ys rest ->
     exists masks,
       tp = masks ++ rest /\ List.length masks = String.length bits /\
       Forall (fun a => 1 <= a <= n) masks /\ ys = residues n z bits masks).
Proof.
  intros Hz Hb. split.
  - intros masks rest Hl Hm. split; [|split].
    + unfold encrypt. now rewrite encrypt_loop_emits.
    + now apply residues_length.
    + intros Hne. apply residues_range.
      destruct bits as [|xi bits]; [congruence|].
      destruct masks as [|a masks]; [discriminate|].
      inversion Hm. lia.
  - intros tp ys rest H. unfold encrypt in H.
    apply encrypt_loop_inv in H; trivial.
Qed.

Lemma encrypt_draws_from_closed_range_witness :
  encrypt 1357 10 "10" ([3; 1357] ++ []) = Ok (residues 1357 10 "10" [3; 1357]) [] /\
  List.length (residues 1357 10 "10" [3; 1357]) = String.length "10" /\
  ("10"%string <> EmptyString ->
   Forall (fun y => 0 <= y < 1357) (residues 1357 10 "10" [3; 1357])).
Proof.
  apply (proj1 (encrypt_draws_from_closed_range 1357 10 "10" ltac:(lia) eq_refl)).
  - reflexivity.
  - repeat constructor; lia.
Defined.

(** C4 as stated fails: [n] itself is a masking value the loop accepts, and
    it is not in [1, n); the residue it yields is 0. *)
Lemma encrypt_mask_can_be_n :
  encrypt 1357 10 "1" [1357] = Ok [0] [] /\ ~ (1 <= 1357 < 1357).
Proof. split; [reflexivity|lia]. Qed.

(** ** The decryption loop *)

Lemma append_assoc_s (s1 s2 s3 : string) : ((s1 ++ s2) ++ s3 = s1 ++ (s2 ++ s3))%string.
Proof. induction s1 as [|c s1 IH]; cbn; [reflexivity|now rewrite IH]. Qed.

Lemma append_nil_r_s (s : string) : (s ++ "" = s)%string.
Proof. induction s as [|c s IH]; cbn; [reflexivity|now rewrite IH]. Qed.

Lemma length_append_s (s1 s2 : string) :
  String.length (s1 ++ s2)%string = (String.length s1 + String.length s2)%nat.
Proof. induction s1 as [|c s1 IH]; cbn; [reflexivity|now rewrite IH]. Qed.

Lemma decrypt_loop_step_ret p i rest acc j :
  jacobi i p = Ret j ->
  decrypt_loop p (i :: rest) acc = decrypt_loop p rest (acc ++ symbol_char j)%string.
Proof.
  intros H. cbn [decrypt_loop]. rewrite H. unfold symbol_char.
  destruct (j =? 1); trivial.
  destruct (j =? -1); trivial. now rewrite append_nil_r_s.
Qed.

Lemma decrypt_loop_returns p ys : forall acc,
  0 < p -> p mod 2 = 1 -> Forall (fun y => y mod p <> 0) ys ->
  decrypt_loop p ys acc = Ret (acc ++ decrypted_of p ys)%string.
Proof.
  induction ys as [|y ys IH]; intros acc Hp Hodd Hys.
  - cbn. now rewrite append_nil_r_s.
  - inversion Hys as [|? ? Hy Hys']. subst.
    destruct (jacobi_returns y p Hp Hodd Hy) as (j & Hj & _).
    rewrite (decrypt_loop_step_ret _ _ _ _ _ Hj), IH by trivial.
    cbn [decrypted_of]. rewrite Hj. now rewrite append_assoc_s.
Qed.

Lemma decrypt_loop_raises p ys : forall acc,
  0 < p -> p mod 2 = 1 -> Exists (fun y => y mod p = 0) ys ->
  decrypt_loop p ys acc = Raise AssertionError.
Proof.
  induction ys as [|y ys IH]; intros acc Hp Hodd Hys; [inversion Hys|].
  destruct (Z.eq_dec (y mod p) 0) as [Hy|Hy].
  - cbn [decrypt_loop].
    assert (H : jacobi y p = Raise AssertionError).
    { apply jacobi_assertion; trivial. right. right. apply Z.mod_divide; lia. }
    now rewrite H.
  - destruct (jacobi_returns y p Hp Hodd Hy) as (j & Hj & _).
    rewrite (decrypt_loop_step_ret _ _ _ _ _ Hj). apply IH; trivial.
    inversion Hys; subst; [contradiction|trivial].
Qed.

Lemma symbol_char_length j :
  String.length (symbol_char j) = if (j =? 1) || (j =? -1) then 1%nat else 0%nat.
Proof.
  unfold symbol_char. destruct (j =? 1); trivial. destruct (j =? -1); trivial.
Qed.

(** One character for every residue coprime to [p], none for the others. *)
Lemma decrypted_of_length p ys :
  Forall (fun y => y mod p <> 0) ys -> 0 < p -> p mod 2 = 1 ->
  String.length (decrypted_of p ys) =
  List.length (filter (fun y => Z.gcd y p =? 1) ys).
Proof.
  intros Hys Hp Hodd. induction Hys as [|y ys Hy Hys IH]; trivial.
  cbn [decrypted_of filter].
  destruct (jacobi_returns y p Hp Hodd Hy) as (j & Hj & _). rewrite Hj.
  rewrite length_append_s, symbol_char_length, IH.
  destruct (jacobi_value _ _ _ Hj) as [[Hg Hv]|[Hg Hv]].
  - rewrite Hg. cbn. destruct Hv; subst; reflexivity.
  - destruct (Z.eqb_spec (Z.gcd y p) 1); [contradiction|]. subst. reflexivity.
Qed.

Lemma prime_coprime p y : Z.prime p -> y mod p <> 0 -> Z.gcd y p = 1.
Proof.
  intros Hp Hy. pose proof (Z.prime_ge_2 _ Hp) as H2.
  pose proof (Z.gcd_nonneg y p) as Hn.
  destruct (Z.gcd_divide_l y p) as [u Hu].
  destruct (Z.gcd_divide_r y p) as [w Hw].
  destruct Hp as [_ Hp].
  assert (Hle : Z.gcd y p <= p) by (apply Z.divide_pos_le; [lia|now exists w]).
  assert (Hnz : Z.gcd y p <> 0) by (intros E; rewrite E in Hw; lia).
  destruct (Z.eq_dec (Z.gcd y p) 1) as [|H1]; trivial.
  destruct (Z.eq_dec (Z.gcd y p) p) as [E|E].
  - exfalso. apply Hy. rewrite E in Hu. rewrite Hu. apply Z.mod_mul. lia.
  - exfalso. apply (Hp (Z.gcd y p)); [lia|now exists w].
Qed.

Lemma filter_all {A} (f : A -> bool) l :
  Forall (fun x => f x = true) l -> filter f l = l.
Proof.
  induction 1 as [|x l Hx Hl IH]; trivial. cbn. now rewrite Hx, IH.
Qed.

(** C3, amended.  For an odd modulus [p >= 1] the loop maps a residue with
    [jacobi] value +1 to the character 0 and one with value -1 to the
    character 1, in order; a residue with value 0 adds nothing and the loop
    goes on, so the text has one character per residue coprime to [p] -- as
    many as the input when [p] is prime; and a multiple of [p] among the
    residues stops the loop with the assertion error of [jacobi]. *)
Theorem decrypt_drops_zero_symbols (p : Z) (ys : list Z) :
  0 < p -> p mod 2 = 1 ->
  (Forall (fun y => y mod p <> 0) ys ->
   decrypt p ys = Ret (decrypted_of p ys) /\
   String.length (decrypted_of p ys) =
     List.length (filter (fun y => Z.gcd y p =? 1) ys) /\
   (Z.prime p -> String.length (decrypted_of p ys) = List.length ys)) /\
  (Exists (fun y => y mod p = 0) ys -> decrypt p ys = Raise AssertionError) /\
  (forall y j, jacobi y p = Ret j ->
     decrypted_of p [y] =
     if j =? 1 then "0"%string else if j =? -1 then "1"%string else ""%string).
Proof.
  intros Hp Hodd. split; [|split].
  - intros Hys. split; [|split].
    + unfold decrypt. now rewrite decrypt_loop_returns.
    + now apply decrypted_of_length.
    + intros Hpr. rewrite decrypted_of_length by trivial.
      rewrite filter_all; trivial.
      eapply Forall_impl; [|exact Hys]. cbn. intros y Hy.
      apply Z.eqb_eq. now apply prime_coprime.
  - intros Hys. unfold decrypt. now apply decrypt_loop_raises.
  - intros y j Hj. cbn [decrypted_of]. rewrite Hj, append_nil_r_s. reflexivity.
Qed.

Lemma decrypt_drops_zero_symbols_witness :
  (Forall (fun y => y mod 15 <> 0) [4; 3; 7] ->
   decrypt 15 [4; 3; 7] = Ret (decrypted_of 15 [4; 3; 7]) /\
   String.length (decrypted_of 15 [4; 3; 7]) =
     List.length (filter (fun y => Z.gcd y 15 =? 1) [4; 3; 7]) /\
   (Z.prime 15 -> String.length (decrypted_of 15 [4; 3; 7]) = List.length [4; 3; 7])) /\
  (Exists (fun y => y mod 15 = 0) [4; 3; 7] ->
   decrypt 15 [4; 3; 7] = Raise AssertionError) /\
  (forall y j, jacobi y 15 = Ret j ->
     decrypted_of 15 [y] =
     if j =? 1 then "0"%string else if j =? -1 then "1"%string else ""%string).
Proof.
  apply (decrypt_drops_zero_symbols 15 [4; 3; 7]); [lia|reflexivity].
Defined.

(** ** [pow], the decomposition of [candidate - 1], and the rounds *)

Lemma pow3_pos_spec e : forall b m, 0 < m -> pow3_pos b e m = b ^ Z.pos e mod m.
Proof.
  induction e as [e IH|e IH|]; intros b m Hm; cbn [pow3_pos].
  - rewrite IH by trivial. rewrite Z.mod_pow_l, Z.mul_mod_idemp_r by lia.
    f_equal. rewrite Pos2Z.inj_xI, Z.pow_add_r, Z.pow_mul_r, Z.pow_1_r by lia.
    rewrite Z.pow_2_r. ring.
  - rewrite IH by trivial. rewrite Z.mod_pow_l.
    f_equal. rewrite Pos2Z.inj_xO, Z.pow_mul_r, Z.pow_2_r by lia. reflexivity.
  - now rewrite Z.pow_1_r.
Qed.

Lemma pow3_spec b e m : 0 <= e -> 0 < m -> pow3 b e m = b ^ e mod m.
Proof.
  intros He Hm. destruct e as [|e|e]; [reflexivity| |lia].
  now apply pow3_pos_spec.
Qed.

Lemma strip_twos_eq q : forall s,
  strip_twos q s = (odd_part q, s + Z.of_nat (val2 q)).
Proof.
  induction q as [q IH|q IH|]; intros s; cbn [strip_twos odd_part val2].
  - f_equal. cbn. lia.
  - rewrite IH. f_equal. lia.
  - f_equal. cbn. lia.
Qed.

(** Above 1 the decomposition always succeeds, and the assertion on it never
    fails. *)
Lemma test_MillerRabin_unfold candidate tp :
  1 < candidate ->
  test_MillerRabin candidate tp =
  trials number_trials candidate
    (Z.pos (odd_part (Z.to_pos (candidate - 1))))
    (Z.of_nat (val2 (Z.to_pos (candidate - 1)))) tp.
Proof.
  intros Hc. unfold test_MillerRabin.
  destruct (candidate - 1) as [|q|q] eqn:E; try lia.
  cbn [decompose Z.to_pos]. rewrite strip_twos_eq. cbn [lift bind].
  unfold bind, lift. rewrite Z.add_0_l.
  rewrite <- odd_part_val2, Z.eqb_refl. reflexivity.
Qed.

Lemma sqrt_one_prime c y :
  Z.prime c -> 0 <= y < c -> (y * y) mod c = 1 -> y = 1 \/ y = c - 1.
Proof.
  intros Hc Hy H. pose proof (Z.prime_ge_2 _ Hc) as H2.
  assert (Hd : (c | (y - 1) * (y + 1))).
  { apply Z.mod_divide; [lia|].
    replace ((y - 1) * (y + 1)) with (y * y - 1) by ring.
    rewrite Zminus_mod, H, Z.mod_1_l by lia. reflexivity. }
  apply Z.divide_prime_mul in Hd; trivial.
  destruct Hd as [[k Hk]|[k Hk]].
  - left. assert (k = 0) by nia. nia.
  - right. assert (k = 1) by nia. nia.
Qed.

(** Descending from [w ^ (2^s * d) = 1] by square roots. *)
Lemma square_chain c w d (s : nat) :
  Z.prime c -> 0 <= d ->
  w ^ (2 ^ Z.of_nat s * d) mod c = 1 ->
  w ^ d mod c = 1 \/
  exists i, (i < s)%nat /\ w ^ (2 ^ Z.of_nat i * d) mod c = c - 1.
Proof.
  intros Hc Hd. pose proof (Z.prime_ge_2 _ Hc) as H2.
  induction s as [|s IH]; intros H.
  - left. now rewrite Z.pow_0_r, Z.mul_1_l in H.
  - set (y := w ^ (2 ^ Z.of_nat s * d) mod c).
    assert (Hyy : (y * y) mod c = 1).
    { subst y. rewrite <- Z.mul_mod by lia. rewrite <- Z.pow_add_r.
      - rewrite <- H. f_equal. f_equal.
        rewrite Nat2Z.inj_succ, Z.pow_succ_r by lia. ring.
      - apply Z.mul_nonneg_nonneg; trivial. apply Z.pow_nonneg. lia.
      - apply Z.mul_nonneg_nonneg; trivial. apply Z.pow_nonneg. lia. }
    destruct (sqrt_one_prime c y Hc) as [Hy|Hy]; trivial.
    + subst y. apply Z.mod_pos_bound. lia.
    + destruct (IH Hy) as [?|(i & Hi & Hw)]; [now left|].
      right. exists i. split; [lia|trivial].
    + right. exists s. split; [lia|trivial].
Qed.

(** No witness convicts a prime. *)
Lemma is_composite_prime c w :
  Z.prime c -> 2 < c -> 2 <= w < c ->
  is_composite c (Z.pos (odd_part (Z.to_pos (c - 1))))
    (Z.of_nat (val2 (Z.to_pos (c - 1)))) w = false.
Proof.
  intros Hc H2 Hw. unfold is_composite.
  set (d := Z.pos (odd_part (Z.to_pos (c - 1)))).
  set (s := val2 (Z.to_pos (c - 1))).
  assert (Hdec : c - 1 = 2 ^ Z.of_nat s * d).
  { subst d s. rewrite <- odd_part_val2. rewrite Z2Pos.id; lia. }
  assert (Hf : w ^ (2 ^ Z.of_nat s * d) mod c = 1).
  { rewrite <- Hdec. apply Z.fermat_nz; trivial.
    rewrite Z.mod_small; lia. }
  rewrite pow3_spec by (subst d; lia).
  destruct (Z.eqb_spec (w ^ d mod c) 1) as [|Hne]; trivial.
  destruct (square_chain c w d s Hc ltac:(subst d; lia) Hf) as [?|(i & Hi & Hw')];
    [contradiction|].
  assert (He : existsb (fun i => pow3 w (2 ^ i * d) c =? c - 1)
                 (range (Z.of_nat s)) = true).
  { apply existsb_exists. exists (Z.of_nat i). split.
    - unfold range. apply in_map. apply in_seq. rewrite Nat2Z.id. lia.
    - rewrite pow3_spec; [now apply Z.eqb_eq|subst d; nia|lia]. }
  now rewrite He.
Qed.

Lemma trials_accept c d s k : forall ws rest,
  List.length ws = k ->
  Forall (fun w => 2 <= w < c /\ is_composite c d s w = false) ws ->
  trials k c d s (ws ++ rest) = Ok true rest.
Proof.
  induction k as [|k IH]; intros ws rest Hl Hws.
  - destruct ws; [reflexivity|discriminate].
  - destruct ws as [|w ws]; [discriminate|]. inversion Hws as [|? ? [Hw Hc] Hws']. subst.
    cbn [trials app]. unfold bind. rewrite randrange_draw by trivial.
    rewrite Hc. apply IH; trivial. cbn in Hl. lia.
Qed.

Lemma trials_reject c d s k : forall tp rest,
  trials k c d s tp = Ok false rest ->
  exists w, 2 <= w < c /\ is_composite c d s w = true.
Proof.
  induction k as [|k IH]; intros tp rest H; [discriminate|].
  cbn [trials] in H. apply bind_inv in H. destruct H as (w & mid & Hw & H).
  apply randrange_inv in Hw. destruct Hw as [_ Hw].
  destruct (is_composite c d s w) eqn:E.
  - exists w. now split.
  - eapply IH; eauto.
Qed.

Lemma test_MillerRabin_Ok_range c tp b rest :
  test_MillerRabin c tp = Ok b rest -> 2 < c.
Proof.
  intros H. unfold test_MillerRabin in H.
  apply bind_inv in H. destruct H as ([ec s] & mid & Hd & H).
  destruct (2 ^ s * ec =? c - 1); [|discriminate].
  unfold number_trials in H. cbn [trials] in H.
  apply bind_inv in H. destruct H as (w & mid' & Hw & _).
  apply randrange_inv in Hw. lia.
Qed.

(** C8. On an odd prime above 2 the test answers True whatever witnesses its
    20 rounds draw from [2, candidate); and an answer False is only ever given
    on a composite number. *)
Theorem test_MillerRabin_never_rejects_a_prime (candidate : Z) :
  (Z.prime candidate -> 2 < candidate ->
   forall witnesses rest,
     List.length witnesses = number_trials ->
     Forall (fun w => 2 <= w < candidate) witnesses ->
     test_MillerRabin candidate (witnesses ++ rest) = Ok true rest) /\
  (forall tp rest,
     test_MillerRabin candidate tp = Ok false rest -> composite candidate).
Proof.
  split.
  - intros Hc H2 ws rest Hl Hws.
    rewrite test_MillerRabin_unfold by lia.
    apply trials_accept; trivial.
    eapply Forall_impl; [|exact Hws]. cbn. intros w Hw. split; trivial.
    now apply is_composite_prime.
  - intros tp rest H.
    pose proof (test_MillerRabin_Ok_range _ _ _ _ H) as H2.
    rewrite test_MillerRabin_unfold in H by lia.
    apply trials_reject in H. destruct H as (w & Hw & Hcomp).
    apply not_prime_divide; [lia|].
    intros Hp. apply prime_alt in Hp.
    rewrite is_composite_prime in Hcomp; trivial. discriminate.
Qed.

Lemma test_MillerRabin_never_rejects_a_prime_witness :
  test_MillerRabin 13
    ([2; 3; 4; 5; 6; 7; 8; 9; 10; 11; 12; 2; 3; 4; 5; 6; 7; 8; 9; 10] ++ [99])
  = Ok true [99] /\
  composite 15.
Proof.
  split.
  - apply (proj1 (test_MillerRabin_never_rejects_a_prime 13)).
    + split; [lia|]. intros n Hn [k Hk].
      assert (Hk' : 0 < k < 13) by nia.
      assert (Hc : k = 1 \/ k = 2 \/ k = 3 \/ k = 4 \/ k = 5 \/ k = 6 \/ k = 7 \/
                   k = 8 \/ k = 9 \/ k = 10 \/ k = 11 \/ k = 12) by lia.
      repeat (destruct Hc as [Hc|Hc]; [subst k; lia|]). subst k; lia.
    + lia.
    + reflexivity.
    + repeat constructor; lia.
  - apply (proj2 (test_MillerRabin_never_rejects_a_prime 15) [2] []).
    vm_compute. reflexivity.
Defined.

(** ** What [get_lowlevel_prime] and [get_prime] return *)

Lemma get_lowlevel_prime_loop_inv table n fuel : forall tp v rest,
  get_lowlevel_prime_loop table fuel n tp = Ok v rest ->
  exists rejected,
    tp = rejected ++ v :: rest /\
    Forall (fun pc => 2 ^ (n - 1) + 1 <= pc < 2 ^ n - 1) (rejected ++ [v]) /\
    Forall (fun pc => survives pc table = Ret false) rejected /\
    survives v table = Ret true.
Proof.
  induction fuel as [|fuel IH]; intros tp v rest H; [discriminate|].
  cbn [get_lowlevel_prime_loop] in H.
  apply bind_inv in H. destruct H as (pc & mid & Hpc & H).
  apply randrange_inv in Hpc. destruct Hpc as [-> Hpc].
  apply bind_inv in H. destruct H as (ok & mid' & Hok & H).
  apply lift_inv in Hok. destruct Hok as [Hok ->].
  destruct ok.
  - inversion H. subst. exists []. cbn. repeat split; trivial.
    repeat constructor; lia.
  - apply IH in H. destruct H as (rej & -> & Hr & Hs & Hv).
    exists (pc :: rej). cbn. repeat split; trivial; constructor; trivial.
Qed.

Lemma get_lowlevel_prime_inv table n tp v rest :
  get_lowlevel_prime table n tp = Ok v rest ->
  exists rejected,
    tp = rejected ++ v :: rest /\
    Forall (fun pc => 2 ^ (n - 1) + 1 <= pc < 2 ^ n - 1) (rejected ++ [v]) /\
    Forall (fun pc => survives pc table = Ret false) rejected /\
    survives v table = Ret true.
Proof.
  unfold get_lowlevel_prime. destruct (n <? 1); [discriminate|].
  apply get_lowlevel_prime_loop_inv.
Qed.

Lemma get_lowlevel_prime_range table n tp v rest :
  get_lowlevel_prime table n tp = Ok v rest ->
  2 ^ (n - 1) + 1 <= v < 2 ^ n - 1 /\ survives v table = Ret true.
Proof.
  intros H. apply get_lowlevel_prime_inv in H.
  destruct H as (rej & _ & Hr & _ & Hs). split; trivial.
  apply Forall_app in Hr. destruct Hr as [_ Hr]. now inversion Hr.
Qed.

(** A table that holds 2 lets no even candidate through. *)
Lemma survives_odd table pc :
  In 2 table -> 4 <= pc -> survives pc table = Ret true -> pc mod 2 = 1.
Proof.
  intros Hin Hpc. induction table as [|d table IH]; [contradiction|].
  cbn [survives]. destruct (d =? 0); [discriminate|].
  destruct Hin as [->|Hin].
  - destruct (Z.leb_spec (2 ^ 2) pc); [|change (2 ^ 2) with 4 in *; lia].
    rewrite andb_true_r. destruct (Z.eqb_spec (pc mod 2) 0); [discriminate|].
    intros _. pose proof (Z.mod_pos_bound pc 2 ltac:(lia)). lia.
  - destruct ((pc mod d =? 0) && (d ^ 2 <=? pc)); [discriminate|]. now apply IH.
Qed.

Lemma get_prime_loop_inv table prime_len fuel : forall c tp v rest,
  get_prime_loop table fuel prime_len c tp = Ok v rest ->
  (exists ta tb, get_lowlevel_prime table prime_len ta = Ok c tb) ->
  (exists ta tb, get_lowlevel_prime table prime_len ta = Ok v tb) /\
  (exists tb, test_MillerRabin v tb = Ok true rest).
Proof.
  induction fuel as [|fuel IH]; intros c tp v rest H Hc; [discriminate|].
  cbn [get_prime_loop] in H.
  apply bind_inv in H. destruct H as (ok & mid & Hok & H).
  destruct ok.
  - inversion H. subst. split; trivial. now exists tp.
  - apply bind_inv in H. destruct H as (c' & mid' & Hc' & H).
    eapply IH; eauto.
Qed.

Lemma get_prime_inv table prime_len l tp v rest :
  get_prime table prime_len l tp = Ok v rest ->
  (exists ta tb, get_lowlevel_prime table prime_len ta = Ok v tb) /\
  (exists tb, test_MillerRabin v tb = Ok true rest).
Proof.
  unfold get_prime. intros H.
  apply bind_inv in H. destruct H as (c & mid & Hc & H).
  eapply get_prime_loop_inv; eauto.
Qed.

Lemma pow2_lower n : 3 <= n -> 4 <= 2 ^ (n - 1).
Proof.
  intros Hn. change 4 with (2 ^ 2). apply Z.pow_le_mono_r; lia.
Qed.

(** C5, amended.  With a table that holds 2 and a bit length [L >= 16] that
    is also the module-level [prime_len], a value returned by [get_prime(L)]
    is odd and lies in [2^(L-1) + 1, 2^L - 1), a part of [2^(L-1), 2^L); the
    sieve takes its candidates from [randrange(2^(L-1) + 1, 2^L - 1)]: every
    candidate it reads lies in that range, and a draw outside it (such as
    [2^(L-1)] or [2^L - 1]) is none the call can make. *)
Theorem get_prime_is_odd_and_in_range (table : list Z) (L : Z) :
  In 2 table -> 16 <= L ->
  (forall tp v rest,
     get_prime table L L tp = Ok v rest ->
     v mod 2 = 1 /\ 2 ^ (L - 1) + 1 <= v < 2 ^ L - 1 /\ 2 ^ (L - 1) <= v < 2 ^ L) /\
  (forall tp v rest,
     get_lowlevel_prime table L tp = Ok v rest ->
     exists rejected,
       tp = rejected ++ v :: rest /\
       Forall (fun pc => 2 ^ (L - 1) + 1 <= pc < 2 ^ L - 1) (rejected ++ [v])) /\
  (forall pc rest,
     ~ (2 ^ (L - 1) + 1 <= pc < 2 ^ L - 1) ->
     get_lowlevel_prime table L (pc :: rest) = BadDraw).
Proof.
  intros H2 HL. pose proof (pow2_lower L ltac:(lia)) as Hlow.
  assert (Hdbl : 2 ^ L = 2 * 2 ^ (L - 1)).
  { rewrite <- Z.pow_succ_r by lia. f_equal. lia. }
  split; [|split].
  - intros tp v rest H. apply get_prime_inv in H.
    destruct H as [(ta & tb & H) _].
    apply get_lowlevel_prime_range in H. destruct H as [Hr Hs].
    split; [|lia]. apply (survives_odd table); trivial. lia.
  - intros tp v rest H. apply get_lowlevel_prime_inv in H.
    destruct H as (rej & -> & Hr & _). now exists rej.
  - intros pc rest Hpc. unfold get_lowlevel_prime.
    destruct (Z.ltb_spec L 1); [lia|].
    cbn [List.length get_lowlevel_prime_loop]. unfold bind, randrange.
    destruct (Z.leb_spec (2 ^ L - 1) (2 ^ (L - 1) + 1)); [lia|].
    destruct (Z.leb_spec (2 ^ (L - 1) + 1) pc);
      destruct (Z.ltb_spec pc (2 ^ L - 1)); trivial; lia.
Qed.

Lemma first_primes_table_has_2 : In 2 first_primes_table.
Proof. left. reflexivity. Qed.

Lemma get_prime_is_odd_and_in_range_witness :
  65521 mod 2 = 1 /\ 2 ^ (16 - 1) + 1 <= 65521 < 2 ^ 16 - 1 /\
  2 ^ (16 - 1) <= 65521 < 2 ^ 16.
Proof.
  apply (proj1 (get_prime_is_odd_and_in_range first_primes_table 16
                  first_primes_table_has_2 ltac:(lia))
           (32768 + 4 :: 65521 ::
            [2; 3; 4; 5; 6; 7; 8; 9; 10; 11; 12; 13; 14; 15; 16; 17; 18; 19; 20; 21])
           65521 []).
  vm_compute. reflexivity.
Defined.

(** With the witness [candidate - 1] in every round the test accepts any odd
    candidate above 2. *)
Lemma pow_minus_one_odd c d :
  1 < c -> 0 <= d -> d mod 2 = 1 -> (c - 1) ^ d mod c = c - 1.
Proof.
  intros Hc Hd Hodd.
  assert (E : c - 1 = (-1) mod c).
  { apply Z.mod_unique with (q := -1); lia. }
  rewrite E at 1. rewrite Z.mod_pow_l.
  rewrite (Z.div_mod d 2), Hodd by lia.
  rewrite Z.pow_add_r, Z.pow_mul_r, Z.pow_1_r by (try apply Z.mul_nonneg_nonneg;
    try apply Z.div_pos; lia).
  change ((-1) ^ 2) with 1. rewrite Z.pow_1_l by (apply Z.div_pos; lia).
  now rewrite Z.mul_1_l.
Qed.

Lemma val2_even q : Z.pos q mod 2 = 0 -> (1 <= val2 q)%nat.
Proof.
  destruct q as [q|q|]; cbn [val2]; intros H; try lia.
  - rewrite Pos2Z.inj_xI, Z.add_comm, Z.mul_comm, Z.mod_add in H by lia. discriminate.
  - discriminate.
Qed.

Lemma is_composite_minus_one c :
  2 < c -> c mod 2 = 1 ->
  is_composite c (Z.pos (odd_part (Z.to_pos (c - 1))))
    (Z.of_nat (val2 (Z.to_pos (c - 1)))) (c - 1) = false.
Proof.
  intros Hc Hodd. unfold is_composite.
  set (q := Z.to_pos (c - 1)).
  assert (Hq : Z.pos q = c - 1) by (subst q; rewrite Z2Pos.id; lia).
  assert (Hs : (1 <= val2 q)%nat).
  { apply val2_even. rewrite Hq.
    rewrite Zminus_mod, Hodd. reflexivity. }
  rewrite pow3_spec by lia.
  rewrite pow_minus_one_odd by (try apply odd_part_odd; lia).
  destruct (Z.eqb_spec (c - 1) 1); [lia|].
  assert (He : existsb
                 (fun i => pow3 (c - 1) (2 ^ i * Z.pos (odd_part q)) c =? c - 1)
                 (range (Z.of_nat (val2 q))) = true).
  { apply existsb_exists. exists 0. split.
    - unfold range. change 0 with (Z.of_nat 0). apply in_map. apply in_seq.
      rewrite Nat2Z.id. lia.
    - rewrite Z.pow_0_r, Z.mul_1_l, pow3_spec by lia.
      rewrite pow_minus_one_odd by (try apply odd_part_odd; lia).
      apply Z.eqb_refl. }
  now rewrite He.
Qed.

Lemma test_MillerRabin_minus_one c rest :
  2 < c -> c mod 2 = 1 ->
  test_MillerRabin c (repeat (c - 1) number_trials ++ rest) = Ok true rest.
Proof.
  intros Hc Hodd. rewrite test_MillerRabin_unfold by lia.
  apply trials_accept; [apply repeat_length|].
  apply Forall_forall. intros w Hw. apply repeat_spec in Hw. subst w.
  split; [lia|]. now apply is_composite_minus_one.
Qed.

Lemma get_prime_first_try table prime_len l c rest :
  1 <= prime_len ->
  2 ^ (prime_len - 1) + 1 <= c < 2 ^ prime_len - 1 ->
  survives c table = Ret true ->
  2 < c -> c mod 2 = 1 ->
  get_prime table prime_len l (mr_tape c ++ rest) = Ok c rest.
Proof.
  intros Hl Hr Hs Hc Hodd. unfold get_prime, mr_tape.
  cbn [app List.length].
  assert (E : get_lowlevel_prime table prime_len
                (c :: repeat (c - 1) number_trials ++ rest)
              = Ok c (repeat (c - 1) number_trials ++ rest)).
  { unfold get_lowlevel_prime. destruct (Z.ltb_spec prime_len 1); [lia|].
    cbn [List.length get_lowlevel_prime_loop]. unfold bind.
    rewrite randrange_draw by trivial. rewrite Hs. reflexivity. }
  rewrite (bind_Ok _ _ _ _ _ E). cbn [get_prime_loop].
  rewrite (bind_Ok _ _ _ _ _ (test_MillerRabin_minus_one c rest Hc Hodd)).
  reflexivity.
Qed.

Lemma in_range_1024 c :
  ((2 ^ 1023 + 1 <=? c) && (c <? 2 ^ 1024 - 1) && (c mod 2 =? 1)) = true ->
  2 ^ (1024 - 1) + 1 <= c < 2 ^ 1024 - 1 /\ 2 < c /\ c mod 2 = 1.
Proof.
  intros H. apply andb_true_iff in H. destruct H as [H H3].
  apply andb_true_iff in H. destruct H as [H1 H2].
  apply Z.leb_le in H1. apply Z.ltb_lt in H2. apply Z.eqb_eq in H3.
  change (1024 - 1) with 1023.
  assert (0 < 2 ^ 1023) by (apply Z.pow_pos_nonneg; lia).
  repeat split; trivial; lia.
Qed.

Lemma get_prime_P1024 l rest :
  get_prime first_primes_table 1024 l (mr_tape P1024 ++ rest) = Ok P1024 rest.
Proof.
  destruct (in_range_1024 P1024) as (Hr & Hc & Hodd); [vm_compute; reflexivity|].
  apply get_prime_first_try;
    [lia | exact Hr | vm_compute; reflexivity | exact Hc | exact Hodd].
Qed.

Lemma get_prime_Q1024 l rest :
  get_prime first_primes_table 1024 l (mr_tape Q1024 ++ rest) = Ok Q1024 rest.
Proof.
  destruct (in_range_1024 Q1024) as (Hr & Hc & Hodd); [vm_compute; reflexivity|].
  apply get_prime_first_try;
    [lia | exact Hr | vm_compute; reflexivity | exact Hc | exact Hodd].
Qed.

Lemma get_prime_C1024 l rest :
  get_prime first_primes_table 1024 l (mr_tape C1024 ++ rest) = Ok C1024 rest.
Proof.
  destruct (in_range_1024 C1024) as (Hr & Hc & Hodd); [vm_compute; reflexivity|].
  apply get_prime_first_try;
    [lia | exact Hr | vm_compute; reflexivity | exact Hc | exact Hodd].
Qed.

(** C5 as stated fails.  The value [2^17 - 1], a prime of the stated range
    [2^16, 2^17), is no draw of the sieve at bit length 17; and [get_prime(16)]
    under the script's [prime_len = 1024] returns a 1024-bit number. *)
Lemma get_prime_range_counterexample :
  (2 ^ (17 - 1) <= 131071 < 2 ^ 17 /\
   get_lowlevel_prime first_primes_table 17 [131071] = BadDraw) /\
  (get_prime first_primes_table 1024 16 (mr_tape P1024 ++ []) = Ok P1024 [] /\
   ~ (2 ^ (16 - 1) <= P1024 < 2 ^ 16)).
Proof.
  split; split.
  - lia.
  - reflexivity.
  - apply get_prime_P1024.
  - destruct (in_range_1024 P1024) as (Hr & _); [vm_compute; reflexivity|].
    assert (2 ^ 16 < 2 ^ (1024 - 1)) by (apply Z.pow_lt_mono_r; lia). lia.
Qed.

(** C3 as stated fails.  [C1024 = R512 * S512] is a value [get_prime] can
    return (every round drawing the witness [C1024 - 1]); with it as [p] the
    residue [R512] has [jacobi] value 0 and the loop drops it: one residue in,
    no character out, no error. *)
Lemma decrypt_skips_silently :
  get_prime first_primes_table 1024 1024 (mr_tape C1024 ++ []) = Ok C1024 [] /\
  jacobi R512 C1024 = Ret 0 /\
  decrypt C1024 [R512] = Ret ""%string /\
  String.length "" <> List.length [R512].
Proof.
  split; [apply get_prime_C1024|]. split; [|split].
  - vm_compute. reflexivity.
  - vm_compute. reflexivity.
  - discriminate.
Qed.

Lemma sieve_guard_is_redundant_witness :
  survives 3980021 first_primes_table =
  survives_unguarded 3980021 first_primes_table /\
  (forall tp, get_lowlevel_prime first_primes_table 1024 tp =
              get_lowlevel_prime_unguarded first_primes_table 1024 tp).
Proof.
  split.
  - apply (proj1 (sieve_guard_is_redundant first_primes_table) 3980021).
    intros d Hd.
    assert (H : forallb (fun d => d ^ 2 <? 3980021) first_primes_table = true)
      by (vm_compute; reflexivity).
    rewrite forallb_forall in H. apply Z.ltb_lt. now apply H.
  - apply (proj2 (sieve_guard_is_redundant first_primes_table) 1024).
    intros d Hd.
    assert (H : forallb (fun d => d ^ 2 <=? 2 ^ (1024 - 1)) first_primes_table = true)
      by (vm_compute; reflexivity).
    rewrite forallb_forall in H. apply Z.leb_le. now apply H.
Defined.

(** ** The key set-up of the script *)

Lemma generate_pseudo_square_10 rest :
  generate_pseudo_square 1357 23 59 (10 :: rest) = Ok 10 rest.
Proof. vm_compute. reflexivity. Qed.

Lemma key_setup_run rest :
  key_setup first_primes_table 1024 (mr_tape P1024 ++ mr_tape Q1024 ++ 10 :: rest)
  = Ok (P1024, Q1024, P1024 * Q1024, 10) rest.
Proof.
  unfold key_setup.
  rewrite (bind_Ok _ _ _ _ _ (get_prime_P1024 1024 _)).
  rewrite (bind_Ok _ _ _ _ _ (get_prime_Q1024 1024 _)).
  rewrite (bind_Ok _ _ _ _ _ (generate_pseudo_square_10 _)).
  reflexivity.
Qed.

(** C2, evaluated on a run.  The script draws [z] with
    [generate_pseudo_square(1357, 23, 59)], whatever [p], [q] and [n] are: on
    this tape the key is [p = P1024], [q = Q1024], [n = p * q], [z = 10], and
    [jacobi(z, p)] is +1 and [jacobi(z, n)] is -1, where a pseudo-square of
    [n] would have -1 and +1. *)
Theorem key_setup_anchor_ignores_the_key :
  key_setup first_primes_table 1024 (mr_tape P1024 ++ mr_tape Q1024 ++ [10])
  = Ok (P1024, Q1024, P1024 * Q1024, 10) [] /\
  jacobi 10 P1024 = Ret 1 /\
  jacobi 10 Q1024 = Ret (-1) /\
  jacobi 10 (P1024 * Q1024) = Ret (-1) /\
  jacobi 10 23 = Ret (-1) /\ jacobi 10 59 = Ret (-1) /\ jacobi 10 1357 = Ret 1.
Proof.
  split; [apply key_setup_run|].
  repeat split; vm_compute; reflexivity.
Qed.

(** C1, evaluated on a run.  With the key of the tape above and the masking
    value 1 for each of the 360 bits, the script decrypts its own ciphertext
    to 360 zeros, not to the bits of the plain text. *)
Theorem main_does_not_round_trip :
  exists s,
    main first_primes_table
      (mr_tape P1024 ++ mr_tape Q1024 ++ 10 :: repeat 1 360) = Ok s [] /\
    key_p s = P1024 /\ key_q s = Q1024 /\ key_n s = P1024 * Q1024 /\ key_z s = 10 /\
    binary_text s =
      binary_text_of "An example of Goldwasser-Micali cryptosystem." /\
    decrypted_text s = string_of_list_ascii (repeat "0"%char 360) /\
    decrypted_text s <> binary_text s.
Proof.
  eexists. split.
  - unfold main, script.
    rewrite (bind_Ok _ _ _ _ _ (key_setup_run _)).
    vm_compute. reflexivity.
  - cbn [key_p key_q key_n key_z binary_text decrypted_text].
    repeat split; try (vm_compute; reflexivity).
    vm_compute. discriminate.
Qed.

(** * Further properties of the code *)

(** ** Sums and products over lists *)

Lemma zprod_cons x l : zprod (x :: l) = x * zprod l.
Proof. reflexivity. Qed.

Lemma zsum_cons x l : zsum (x :: l) = x + zsum l.
Proof. reflexivity. Qed.

Lemma zprod_app l1 l2 : zprod (l1 ++ l2) = zprod l1 * zprod l2.
Proof.
  induction l1 as [|x l1 IH]; cbn [app].
  - change (zprod []) with 1. lia.
  - rewrite !zprod_cons, IH. ring.
Qed.

Lemma zsum_app l1 l2 : zsum (l1 ++ l2) = zsum l1 + zsum l2.
Proof.
  induction l1 as [|x l1 IH]; cbn [app].
  - change (zsum []) with 0. lia.
  - rewrite !zsum_cons, IH. ring.
Qed.

Lemma zprod_perm l1 l2 : Permutation l1 l2 -> zprod l1 = zprod l2.
Proof.
  induction 1; rewrite ?zprod_cons; try congruence. ring.
Qed.

Lemma zsum_perm l1 l2 : Permutation l1 l2 -> zsum l1 = zsum l2.
Proof.
  induction 1; rewrite ?zsum_cons; try congruence. ring.
Qed.

Lemma zprod_map_mul {A} (f g : A -> Z) l :
  zprod (map (fun k => f k * g k) l) = zprod (map f l) * zprod (map g l).
Proof.
  induction l as [|x l IH]; cbn [map]; [reflexivity|].
  rewrite !zprod_cons, IH. ring.
Qed.

Lemma zsum_map_add {A} (f g : A -> Z) l :
  zsum (map (fun k => f k + g k) l) = zsum (map f l) + zsum (map g l).
Proof.
  induction l as [|x l IH]; cbn [map]; [reflexivity|].
  rewrite !zsum_cons, IH. ring.
Qed.

Lemma zsum_map_scale {A} c (f : A -> Z) l :
  zsum (map (fun k => c * f k) l) = c * zsum (map f l).
Proof.
  induction l as [|x l IH]; cbn [map].
  - change (zsum []) with 0. lia.
  - rewrite !zsum_cons, IH. ring.
Qed.

Lemma zprod_map_scale {A} c (f : A -> Z) l :
  zprod (map (fun k => c * f k) l) = c ^ Z.of_nat (List.length l) * zprod (map f l).
Proof.
  induction l as [|x l IH]; cbn [map List.length].
  - change (zprod []) with 1. cbn. lia.
  - rewrite !zprod_cons, IH, Nat2Z.inj_succ, Z.pow_succ_r by lia. ring.
Qed.

Lemma zprod_signs l : Forall (fun s => s = 1 \/ s = -1) l -> zprod l = 1 \/ zprod l = -1.
Proof.
  induction 1 as [|s l Hs Hl IH]; [left; reflexivity|]. rewrite zprod_cons. lia.
Qed.

Lemma zprod_mod_ext {A} (f g : A -> Z) l n :
  (forall k, In k l -> f k mod n = g k mod n) ->
  zprod (map f l) mod n = zprod (map g l) mod n.
Proof.
  induction l as [|x l IH]; intros H; [reflexivity|].
  cbn [map]. rewrite !zprod_cons.
  rewrite Zmult_mod, (H x (or_introl eq_refl)), IH, <- Zmult_mod; trivial.
  intros k Hk. apply H. now right.
Qed.

(** ** The half system *)

Lemma in_half n k : In k (half n) <-> 1 <= k <= n / 2.
Proof.
  unfold half. rewrite in_map_iff. split.
  - intros (i & <- & Hi). apply in_seq in Hi. lia.
  - intros Hk. exists (Z.to_nat k). split; [lia|]. apply in_seq. lia.
Qed.

Lemma half_NoDup n : NoDup (half n).
Proof.
  unfold half. apply NoDup_map_NoDup_ForallPairs; [|apply seq_NoDup].
  intros x y _ _ H. lia.
Qed.

Lemma half_length n : 0 <= n -> Z.of_nat (List.length (half n)) = n / 2.
Proof.
  intros Hn. unfold half. rewrite length_map, length_seq.
  rewrite Z2Nat.id; [reflexivity|]. apply Z.div_pos; lia.
Qed.

Lemma odd_half n : n mod 2 = 1 -> n = 2 * (n / 2) + 1.
Proof. intros H. pose proof (Z.div_mod n 2 ltac:(lia)). lia. Qed.

(** ** Signs and absolute values of residues *)

Lemma res_sign_cases n x : res_sign n x = 1 \/ res_sign n x = -1.
Proof. unfold res_sign. destruct (n <? 2 * (x mod n)); auto. Qed.

Lemma res_sign_mod n x : res_sign n (x mod n) = res_sign n x.
Proof. unfold res_sign. destruct (Z.eq_dec n 0) as [->|]; [now rewrite !Z.mod_0_r|now rewrite Z.mod_mod]. Qed.

Lemma res_abs_mod n x : res_abs n (x mod n) = res_abs n x.
Proof. unfold res_abs. destruct (Z.eq_dec n 0) as [->|]; [now rewrite !Z.mod_0_r|now rewrite Z.mod_mod]. Qed.

Lemma res_sign_ext n x y : x mod n = y mod n -> res_sign n x = res_sign n y.
Proof. intros H. unfold res_sign. now rewrite H. Qed.

Lemma res_abs_ext n x y : x mod n = y mod n -> res_abs n x = res_abs n y.
Proof. intros H. unfold res_abs. now rewrite H. Qed.

Lemma res_abs_in_half n x :
  0 < n -> n mod 2 = 1 -> x mod n <> 0 -> In (res_abs n x) (half n).
Proof.
  intros Hn Hodd Hx. apply in_half.
  pose proof (odd_half n Hodd) as E.
  pose proof (Z.mod_pos_bound x n Hn) as Hb.
  unfold res_abs. destruct (Z.ltb_spec n (2 * (x mod n))); lia.
Qed.

Lemma res_decomp n x :
  0 < n -> (res_sign n x * res_abs n x) mod n = x mod n.
Proof.
  intros Hn. unfold res_sign, res_abs.
  destruct (Z.ltb_spec n (2 * (x mod n))).
  - replace (-1 * (n - x mod n)) with (x mod n + (-1) * n) by ring.
    rewrite Z.mod_add by lia. apply Z.mod_mod. lia.
  - rewrite Z.mul_1_l. apply Z.mod_mod. lia.
Qed.

(** The decomposition is unique. *)
Lemma res_unique n x s h :
  0 < n -> n mod 2 = 1 -> (s = 1 \/ s = -1) -> In h (half n) ->
  x mod n = (s * h) mod n ->
  res_sign n x = s /\ res_abs n x = h.
Proof.
  intros Hn Hodd Hs Hh Hx. apply in_half in Hh.
  pose proof (odd_half n Hodd) as E.
  unfold res_sign, res_abs. rewrite Hx.
  destruct Hs as [->| ->].
  - rewrite Z.mul_1_l, Z.mod_small by lia.
    destruct (Z.ltb_spec n (2 * h)); lia.
  - replace (-1 * h) with ((n - h) + (-1) * n) by ring.
    rewrite Z.mod_add, Z.mod_small by lia.
    destruct (Z.ltb_spec n (2 * (n - h))); lia.
Qed.

(** Multiplying a residue by [a]: the sign is the sign of the residue times
    that of [a] on its absolute value. *)
Lemma res_mul n a x :
  0 < n -> n mod 2 = 1 -> (a * x) mod n <> 0 ->
  res_sign n (a * x) = res_sign n x * res_sign n (a * res_abs n x) /\
  res_abs n (a * x) = res_abs n (a * res_abs n x).
Proof.
  intros Hn Hodd Hax.
  set (e := res_sign n x). set (h := res_abs n x).
  assert (He : e = 1 \/ e = -1) by apply res_sign_cases.
  assert (Heh : (a * x) mod n = (e * (a * h)) mod n).
  { replace (e * (a * h)) with (a * (e * h)) by ring.
    rewrite (Zmult_mod a (e * h)). subst e h. rewrite res_decomp by trivial.
    now rewrite <- Zmult_mod. }
  assert (Hah : (a * h) mod n <> 0).
  { intros H0. apply Hax. rewrite Heh, Zmult_mod, H0, Z.mul_0_r. apply Z.mod_0_l. lia. }
  set (e' := res_sign n (a * h)). set (h' := res_abs n (a * h)).
  apply res_unique; trivial.
  - apply pm1_mul; trivial. apply res_sign_cases.
  - subst h'. now apply res_abs_in_half.
  - rewrite Heh. replace (e * e' * h') with (e * (e' * h')) by ring.
    rewrite (Zmult_mod e (a * h)), (Zmult_mod e (e' * h')).
    subst e' h'. now rewrite res_decomp.
Qed.

(** ** Multiplication by a unit permutes the half system *)

Lemma coprime_not_divide n a k :
  1 < n -> Z.gcd a n = 1 -> 0 < k < n -> (a * k) mod n <> 0.
Proof.
  intros Hn Ha Hk H0. apply Z.mod_divide in H0; [|lia].
  apply Z.gauss in H0; [|now rewrite Z.gcd_comm].
  apply Z.divide_pos_le in H0; lia.
Qed.

Lemma half_unit n a k :
  0 < n -> n mod 2 = 1 -> Z.gcd a n = 1 -> In k (half n) -> (a * k) mod n <> 0.
Proof.
  intros Hn Hodd Ha Hk. apply in_half in Hk.
  pose proof (odd_half n Hodd).
  apply coprime_not_divide; trivial; lia.
Qed.

Lemma res_abs_mul_inj n a k k' :
  0 < n -> n mod 2 = 1 -> Z.gcd a n = 1 ->
  In k (half n) -> In k' (half n) ->
  res_abs n (a * k) = res_abs n (a * k') -> k = k'.
Proof.
  intros Hn Hodd Ha Hk Hk' H.
  pose proof (odd_half n Hodd) as E.
  pose proof (res_decomp n (a * k) Hn) as D. pose proof (res_decomp n (a * k') Hn) as D'.
  rewrite H in D.
  apply in_half in Hk, Hk'.
  destruct (res_sign_cases n (a * k)) as [S|S];
    destruct (res_sign_cases n (a * k')) as [S'|S']; rewrite S in D; rewrite S' in D'.
  1,4: assert (Hd : (n | a * (k - k'))) by
      (apply Z.mod_divide; [lia|];
       replace (a * (k - k')) with (a * k - a * k') by ring;
       rewrite Zminus_mod, <- D, <- D', Z.sub_diag; reflexivity);
    apply Z.gauss in Hd; [|now rewrite Z.gcd_comm];
    destruct Hd as [u Hu]; assert (u = 0) by nia; lia.
  1,2: assert (Hd : (n | a * (k + k'))) by
      (apply Z.mod_divide; [lia|];
       replace (a * (k + k')) with (a * k + a * k') by ring;
       rewrite Zplus_mod, <- D, <- D', <- Zplus_mod;
       match goal with |- ?e mod ?m = 0 => replace e with 0 by ring end;
       reflexivity);
    apply Z.gauss in Hd; [|now rewrite Z.gcd_comm];
    destruct Hd as [u Hu]; assert (u = 0 \/ 1 <= u \/ u <= -1) by lia; nia.
Qed.

Lemma half_permuted n a :
  0 < n -> n mod 2 = 1 -> Z.gcd a n = 1 ->
  Permutation (map (fun k => res_abs n (a * k)) (half n)) (half n).
Proof.
  intros Hn Hodd Ha. apply NoDup_Permutation_bis.
  - apply NoDup_map_NoDup_ForallPairs; [|apply half_NoDup].
    intros k k' Hk Hk' H. eapply res_abs_mul_inj; eauto.
  - rewrite length_map. lia.
  - intros h Hh. apply in_map_iff in Hh. destruct Hh as (k & <- & Hk).
    apply res_abs_in_half; trivial. now apply half_unit.
Qed.

(** ** The symbol is multiplicative and periodic in its first argument *)

Lemma gauss_symbol_cases a n : gauss_symbol a n = 1 \/ gauss_symbol a n = -1.
Proof.
  unfold gauss_symbol. apply zprod_signs. apply Forall_forall.
  intros s Hs. apply in_map_iff in Hs. destruct Hs as (k & <- & _).
  apply res_sign_cases.
Qed.

Lemma gauss_symbol_mod a n : gauss_symbol (a mod n) n = gauss_symbol a n.
Proof.
  unfold gauss_symbol. f_equal. apply map_ext. intros k.
  apply res_sign_ext. destruct (Z.eq_dec n 0) as [->|]; [now rewrite !Z.mod_0_r|].
  now rewrite Z.mul_mod_idemp_l.
Qed.

Lemma gauss_symbol_mul a b n :
  0 < n -> n mod 2 = 1 -> Z.gcd a n = 1 -> Z.gcd b n = 1 ->
  gauss_symbol (a * b) n = gauss_symbol a n * gauss_symbol b n.
Proof.
  intros Hn Hodd Ha Hb. unfold gauss_symbol.
  rewrite (map_ext_in _ (fun k => res_sign n (b * k) * res_sign n (a * res_abs n (b * k)))).
  - rewrite zprod_map_mul.
    rewrite <- (map_map (fun k => res_abs n (b * k)) (fun h => res_sign n (a * h))).
    rewrite (zprod_perm
               (map (fun h => res_sign n (a * h))
                    (map (fun k => res_abs n (b * k)) (half n)))
               (map (fun h => res_sign n (a * h)) (half n))).
    + ring.
    + apply Permutation_map. now apply half_permuted.
  - intros k Hk. rewrite <- Z.mul_assoc. apply res_mul; trivial.
    rewrite Z.mul_assoc. apply half_unit; trivial.
    now apply Z.coprime_mul_l.
Qed.

Lemma gauss_symbol_1 n : 0 < n -> n mod 2 = 1 -> gauss_symbol 1 n = 1.
Proof.
  intros Hn Hodd. pose proof (gauss_symbol_mul 1 1 n Hn Hodd) as H.
  rewrite Z.gcd_1_l in H. specialize (H eq_refl eq_refl). cbn in H.
  destruct (gauss_symbol_cases 1 n) as [E|E]; rewrite E in H; lia.
Qed.

Lemma gauss_symbol_pow a n k :
  0 < n -> n mod 2 = 1 -> Z.gcd a n = 1 ->
  gauss_symbol (a ^ Z.of_nat k) n = gauss_symbol a n ^ Z.of_nat k.
Proof.
  intros Hn Hodd Ha. induction k as [|k IH].
  - cbn. now apply gauss_symbol_1.
  - rewrite Nat2Z.inj_succ, !Z.pow_succ_r by lia.
    rewrite gauss_symbol_mul, IH; trivial.
    apply Z.coprime_pow_l; [lia|trivial].
Qed.

(** ** Powers of [-1] *)

Lemma m1_pow_parity k : 0 <= k -> (-1) ^ k = if Z.even k then 1 else -1.
Proof.
  intros Hk. pattern k. apply natlike_ind; trivial.
  intros x Hx IH. rewrite Z.pow_succ_r, IH, Z.even_succ, <- Z.negb_even by trivial.
  destruct (Z.even x); reflexivity.
Qed.

Lemma m1_pow_add j k : 0 <= j -> 0 <= k -> (-1) ^ (j + k) = (-1) ^ j * (-1) ^ k.
Proof. intros. now apply Z.pow_add_r. Qed.

Lemma m1_pow_same_parity j k :
  0 <= j -> 0 <= k -> Z.even (j + k) = true -> (-1) ^ j = (-1) ^ k.
Proof.
  intros Hj Hk H. rewrite !m1_pow_parity by trivial.
  rewrite Z.even_add in H. destruct (Z.even j), (Z.even k); trivial; discriminate.
Qed.

(** ** The second supplement: the symbol of 2 *)

Lemma zprod_threshold t m :
  0 <= t ->
  zprod (map (fun k => if t <? k then -1 else 1) (map Z.of_nat (seq 1 m)))
  = (-1) ^ Z.max 0 (Z.of_nat m - t).
Proof.
  intros Ht. induction m as [|m IH].
  - cbn [seq map]. rewrite Z.max_l by lia. reflexivity.
  - rewrite seq_S, !map_app, zprod_app, IH. cbn [map].
    rewrite zprod_cons. change (zprod []) with 1.
    destruct (Z.ltb_spec t (Z.of_nat (1 + m))).
    + rewrite (Z.max_r 0 (Z.of_nat (S m) - t)) by lia.
      replace (Z.of_nat (S m) - t) with (Z.max 0 (Z.of_nat m - t) + 1) by lia.
      rewrite Z.pow_add_r by lia. ring.
    + rewrite !Z.max_l by lia. reflexivity.
Qed.

Lemma gauss_symbol_2_count n :
  0 < n -> n mod 2 = 1 -> gauss_symbol 2 n = (-1) ^ (n / 2 - n / 4).
Proof.
  intros Hn Hodd. pose proof (odd_half n Hodd) as E.
  unfold gauss_symbol.
  rewrite (map_ext_in _ (fun k => if n / 4 <? k then -1 else 1)).
  - unfold half. rewrite zprod_threshold by (apply Z.div_pos; lia).
    rewrite Z2Nat.id by (apply Z.div_pos; lia).
    f_equal. assert (n / 4 <= n / 2) by (Z.to_euclidean_division_equations; lia). lia.
  - intros k Hk. apply in_half in Hk. unfold res_sign.
    rewrite Z.mod_small by lia.
    destruct (Z.ltb_spec n (2 * (2 * k))); destruct (Z.ltb_spec (n / 4) k); trivial;
      Z.to_euclidean_division_equations; lia.
Qed.

Lemma gauss_symbol_2 n : 0 < n -> n mod 2 = 1 -> gauss_symbol 2 n = two_sign n.
Proof.
  intros Hn Hodd. rewrite gauss_symbol_2_count by trivial.
  rewrite m1_pow_parity by (Z.to_euclidean_division_equations; lia).
  unfold two_sign.
  destruct (Z.even (n / 2 - n / 4)) eqn:Ev.
  - apply Z.even_spec in Ev. destruct Ev as [u Hu].
    destruct (Z.eqb_spec (n mod 8) 3); [Z.to_euclidean_division_equations; lia|].
    destruct (Z.eqb_spec (n mod 8) 5); [Z.to_euclidean_division_equations; lia|].
    reflexivity.
  - assert (Od : Z.odd (n / 2 - n / 4) = true) by (rewrite <- Z.negb_even, Ev; reflexivity).
    apply Z.odd_spec in Od. destruct Od as [u Hu].
    destruct (Z.eqb_spec (n mod 8) 3); [reflexivity|].
    destruct (Z.eqb_spec (n mod 8) 5); [reflexivity|].
    Z.to_euclidean_division_equations; lia.
Qed.

(** ** Eisenstein's count: the symbol through the sum of the quotients *)

Lemma zsum_nonneg l : Forall (fun x => 0 <= x) l -> 0 <= zsum l.
Proof. induction 1; [cbn; lia|rewrite zsum_cons; lia]. Qed.

Lemma zprod_signs_count {A} (b : A -> Z) l :
  (forall k, In k l -> b k = 0 \/ b k = 1) ->
  0 <= zsum (map b l) /\
  zprod (map (fun k => 1 - 2 * b k) l) = (-1) ^ zsum (map b l).
Proof.
  induction l as [|x l IH]; intros H; [split; [cbn; lia|reflexivity]|].
  cbn [map]. rewrite zprod_cons, zsum_cons.
  destruct IH as [IH1 IH2]; [intros k Hk; apply H; now right|].
  destruct (H x (or_introl eq_refl)) as [E|E]; rewrite E, IH2.
  - split; [lia|]. rewrite Z.add_0_l. ring.
  - split; [lia|]. rewrite Z.pow_add_r by lia. ring.
Qed.

Lemma zsum_map_ext_in {A} (f g : A -> Z) l :
  (forall k, In k l -> f k = g k) -> zsum (map f l) = zsum (map g l).
Proof. intros H. f_equal. now apply map_ext_in. Qed.

(** The quotients [a * k / n] over the half system of [n]. *)
Lemma gauss_symbol_floor a n :
  0 < n -> n mod 2 = 1 -> 0 < a -> a mod 2 = 1 -> Z.gcd a n = 1 ->
  0 <= zsum (map (fun k => a * k / n) (half n)) /\
  gauss_symbol a n = (-1) ^ zsum (map (fun k => a * k / n) (half n)).
Proof.
  intros Hn Hodd Ha Haodd Hg.
  assert (HQ : 0 <= zsum (map (fun k => a * k / n) (half n))).
  { apply zsum_nonneg. apply Forall_forall. intros x Hx.
    apply in_map_iff in Hx. destruct Hx as (k & <- & Hk). apply in_half in Hk.
    apply Z.div_pos; nia. }
  split; trivial.
  set (b := fun k => if n <? 2 * ((a * k) mod n) then 1 else 0).
  assert (Hb : forall k, In k (half n) -> b k = 0 \/ b k = 1).
  { intros k _. unfold b. destruct (n <? 2 * ((a * k) mod n)); auto. }
  destruct (zprod_signs_count b (half n) Hb) as [Hmu Hprod].
  unfold gauss_symbol.
  rewrite (map_ext _ (fun k => 1 - 2 * b k)).
  2:{ intros k. unfold res_sign, b. destruct (n <? 2 * ((a * k) mod n)); reflexivity. }
  rewrite Hprod. apply m1_pow_same_parity; trivial.
  (* the sum of a * k, split by the division by n *)
  set (S := zsum (half n)).
  set (Q := zsum (map (fun k => a * k / n) (half n))) in *.
  set (mu := zsum (map b (half n))) in *.
  set (T := zsum (map (fun k => b k * res_abs n (a * k)) (half n))).
  assert (E1 : a * S = n * Q + zsum (map (fun k => (a * k) mod n) (half n))).
  { subst S Q. rewrite <- zsum_map_scale, <- zsum_map_add.
    rewrite <- (map_id (half n)) at 1. rewrite <- zsum_map_scale.
    apply zsum_map_ext_in. intros k _. apply Z.div_mod. lia. }
  assert (E2 : zsum (map (fun k => (a * k) mod n) (half n)) = S + n * mu - 2 * T).
  { subst S mu T.
    rewrite <- (zsum_perm _ _ (half_permuted n a Hn Hodd Hg)).
    rewrite <- !zsum_map_scale.
    replace (zsum (map (fun k => res_abs n (a * k)) (half n)) +
             zsum (map (fun k => n * b k) (half n)) -
             zsum (map (fun k => 2 * (b k * res_abs n (a * k))) (half n)))
      with (zsum (map (fun k => res_abs n (a * k) + n * b k +
                                 (-1) * (2 * (b k * res_abs n (a * k)))) (half n))).
    - apply zsum_map_ext_in. intros k _. unfold b, res_abs.
      destruct (n <? 2 * ((a * k) mod n)); ring.
    - rewrite !zsum_map_add, (zsum_map_scale (-1)). ring. }
  pose proof (odd_half n Hodd) as En. pose proof (odd_half a Haodd) as Ea.
  apply Z.even_spec.
  exists (a / 2 * S - n / 2 * Q - n / 2 * mu + T).
  rewrite E2 in E1.
  set (a' := a / 2) in *. set (n' := n / 2) in *.
  rewrite Ea, En in E1. nia.
Qed.

(** ** Counting lattice points: the reciprocity law *)

Lemma zsum_swap {A B} (f : A -> B -> Z) (l1 : list A) (l2 : list B) :
  zsum (map (fun k => zsum (map (fun l => f k l) l2)) l1) =
  zsum (map (fun l => zsum (map (fun k => f k l) l1)) l2).
Proof.
  induction l1 as [|x l1 IH]; cbn [map].
  - change (zsum []) with 0. induction l2 as [|y l2 IH2]; [reflexivity|].
    cbn [map]. rewrite zsum_cons; lia.
  - rewrite zsum_cons, IH. rewrite <- zsum_map_add.
    apply zsum_map_ext_in. intros l _. now rewrite zsum_cons.
Qed.

Lemma zsum_const {A} (l : list A) c : zsum (map (fun _ => c) l) = Z.of_nat (List.length l) * c.
Proof.
  induction l as [|x l IH]; [reflexivity|].
  cbn [map List.length]. rewrite zsum_cons, IH. lia.
Qed.

Lemma zsum_below t m :
  0 <= t <= Z.of_nat m ->
  zsum (map (fun l => if l <=? t then 1 else 0) (map Z.of_nat (seq 1 m))) = t.
Proof.
  revert t. induction m as [|m IH]; intros t Ht.
  - cbn. lia.
  - rewrite seq_S, !map_app, zsum_app. cbn [map]. rewrite zsum_cons.
    change (zsum []) with 0.
    destruct (Z.leb_spec (Z.of_nat (1 + m)) t).
    + assert (t = Z.of_nat (S m)) by lia. subst t.
      rewrite (zsum_map_ext_in _ (fun _ => 1)).
      * rewrite zsum_const, length_map, length_seq. lia.
      * intros l Hl. apply in_map_iff in Hl. destruct Hl as (i & <- & Hi).
        apply in_seq in Hi. destruct (Z.leb_spec (Z.of_nat i) (Z.of_nat (S m))); lia.
    + rewrite IH by lia. lia.
Qed.

(** The quotient [a * k / n] counts the [l] of the half system of [a] below
    the line. *)
Lemma floor_as_count a n k :
  0 < n -> n mod 2 = 1 -> 0 < a -> a mod 2 = 1 -> Z.gcd a n = 1 ->
  In k (half n) ->
  a * k / n = zsum (map (fun l => if n * l <? a * k then 1 else 0) (half a)).
Proof.
  intros Hn Hodd Ha Haodd Hg Hk.
  pose proof (odd_half n Hodd) as En. pose proof (odd_half a Haodd) as Ea.
  pose proof (half_unit n a k Hn Hodd Hg Hk) as Hu.
  apply in_half in Hk.
  pose proof (Z.div_mod (a * k) n ltac:(lia)) as Hd.
  pose proof (Z.mod_pos_bound (a * k) n Hn) as Hm.
  set (t := a * k / n) in *.
  assert (Ht0 : 0 <= t) by (apply Z.div_pos; nia).
  assert (Ht : t <= a / 2).
  { assert (n * t < n * (a / 2 + 1)); [|nia]. nia. }
  rewrite (zsum_map_ext_in _ (fun l => if l <=? t then 1 else 0)).
  - unfold half. rewrite zsum_below; [reflexivity|].
    rewrite Z2Nat.id by (apply Z.div_pos; lia). lia.
  - intros l Hl. apply in_half in Hl.
    destruct (Z.ltb_spec (n * l) (a * k)); destruct (Z.leb_spec l t); trivial; nia.
Qed.

Lemma lattice_count a n :
  0 < n -> n mod 2 = 1 -> 0 < a -> a mod 2 = 1 -> Z.gcd a n = 1 ->
  zsum (map (fun k => a * k / n) (half n)) +
  zsum (map (fun l => n * l / a) (half a)) = (a / 2) * (n / 2).
Proof.
  intros Hn Hodd Ha Haodd Hg.
  assert (Hg' : Z.gcd n a = 1) by now rewrite Z.gcd_comm.
  rewrite (zsum_map_ext_in (fun k => a * k / n)
             (fun k => zsum (map (fun l => if n * l <? a * k then 1 else 0) (half a)))).
  2:{ intros k Hk. now apply floor_as_count. }
  rewrite (zsum_map_ext_in (fun l => n * l / a)
             (fun l => zsum (map (fun k => if a * k <? n * l then 1 else 0) (half n)))).
  2:{ intros l Hl. now apply floor_as_count. }
  rewrite (zsum_swap (fun l k => if a * k <? n * l then 1 else 0) (half a) (half n)).
  rewrite <- zsum_map_add.
  rewrite (zsum_map_ext_in _ (fun _ => a / 2)).
  - rewrite zsum_const, half_length by lia. ring.
  - intros k Hk. rewrite <- zsum_map_add.
    rewrite (zsum_map_ext_in _ (fun _ => 1)).
    + rewrite zsum_const, half_length by lia. ring.
    + intros l Hl.
      assert (Hne : n * l <> a * k).
      { intros E. pose proof (half_unit n a k Hn Hodd Hg Hk) as Hu.
        apply Hu. rewrite <- E, Z.mul_comm. apply Z.mod_mul. lia. }
      destruct (Z.ltb_spec (n * l) (a * k)); destruct (Z.ltb_spec (a * k) (n * l)); lia.
Qed.

Lemma gauss_symbol_reciprocity a n :
  0 < n -> n mod 2 = 1 -> 0 < a -> a mod 2 = 1 -> Z.gcd a n = 1 ->
  gauss_symbol a n * gauss_symbol n a =
  if (a mod 4 =? 3) && (n mod 4 =? 3) then -1 else 1.
Proof.
  intros Hn Hodd Ha Haodd Hg.
  assert (Hg' : Z.gcd n a = 1) by now rewrite Z.gcd_comm.
  destruct (gauss_symbol_floor a n) as [H1 ->]; trivial.
  destruct (gauss_symbol_floor n a) as [H2 ->]; trivial.
  rewrite <- Z.pow_add_r, lattice_count by trivial.
  assert (Hnn : 0 <= a / 2 * (n / 2)).
  { apply Z.mul_nonneg_nonneg; apply Z.div_pos; lia. }
  rewrite m1_pow_parity by trivial. rewrite Z.even_mul.
  destruct (Z.even (a / 2)) eqn:Ea; destruct (Z.even (n / 2)) eqn:En; cbn [orb].
  all: repeat match goal with
       | H : Z.even _ = true |- _ => apply Z.even_spec in H; destruct H
       | H : Z.even ?x = false |- _ =>
           assert (Z.odd x = true) by (rewrite <- Z.negb_even, H; reflexivity);
           clear H
       | H : Z.odd _ = true |- _ => apply Z.odd_spec in H; destruct H
       end.
  all: destruct (Z.eqb_spec (a mod 4) 3); destruct (Z.eqb_spec (n mod 4) 3);
    cbn [andb]; trivial; Z.to_euclidean_division_equations; lia.
Qed.

(** ** [jacobi] computes the Jacobi symbol *)

Lemma gcd_2_odd p : p mod 2 = 1 -> Z.gcd 2 p = 1.
Proof.
  intros Hp. rewrite <- (Z.mul_1_r 2). rewrite gcd_double_odd by trivial.
  apply Z.gcd_1_l.
Qed.

Lemma gauss_symbol_pow2 p k a1 :
  0 < p -> p mod 2 = 1 -> Z.gcd a1 p = 1 ->
  gauss_symbol (2 ^ Z.of_nat k * a1) p = two_sign p ^ Z.of_nat k * gauss_symbol a1 p.
Proof.
  intros Hp Hodd Hg.
  rewrite gauss_symbol_mul; trivial.
  - rewrite gauss_symbol_pow, gauss_symbol_2; trivial. now apply gcd_2_odd.
  - apply Z.coprime_pow_l; [lia|]. now apply gcd_2_odd.
Qed.

Lemma gauss_symbol_flip a n :
  0 < n -> n mod 2 = 1 -> 0 < a -> a mod 2 = 1 -> Z.gcd a n = 1 ->
  gauss_symbol a n =
  (if (n mod 4 =? a mod 4) && (a mod 4 =? 3) then -1 else 1) * gauss_symbol (n mod a) a.
Proof.
  intros Hn Hodd Ha Haodd Hg.
  pose proof (gauss_symbol_reciprocity a n Hn Hodd Ha Haodd Hg) as R.
  rewrite gauss_symbol_mod.
  assert (E : (n mod 4 =? a mod 4) && (a mod 4 =? 3) = (a mod 4 =? 3) && (n mod 4 =? 3)).
  { destruct (Z.eqb_spec (a mod 4) 3) as [E3|E3].
    - rewrite E3, andb_true_r. reflexivity.
    - now rewrite andb_false_r. }
  rewrite E.
  destruct (gauss_symbol_cases a n) as [E1|E1];
    destruct (gauss_symbol_cases n a) as [E2|E2]; rewrite E1, E2 in *;
    destruct ((a mod 4 =? 3) && (n mod 4 =? 3)); lia.
Qed.

Lemma jacobi_loop_gauss fuel : forall a p t v,
  0 <= a < p -> p mod 2 = 1 -> Z.gcd a p = 1 ->
  jacobi_loop fuel a p t = Some v -> v = t * gauss_symbol a p.
Proof.
  assert (Base : forall p t v, 0 < p -> Z.gcd 0 p = 1 ->
            Some (if p =? 1 then t else 0) = Some v -> v = t * gauss_symbol 0 p).
  { intros p t v Hp Hg H. rewrite Z.gcd_0_l, Z.abs_eq in Hg by lia. subst p.
    inversion H. cbn. lia. }
  induction fuel as [|fuel IH]; intros a p t v Ha Hp Hg H.
  - destruct a; try discriminate. rewrite jacobi_loop_zero in H.
    apply Base; trivial; lia.
  - destruct a as [|a|a]; [| |lia].
    + rewrite jacobi_loop_zero in H. apply Base; trivial; lia.
    + rewrite jacobi_loop_step in H. cbv zeta in H.
      set (a1 := Z.pos (odd_part a)) in *.
      assert (Ha1 : 0 < a1) by (subst a1; lia).
      assert (Ha1odd : a1 mod 2 = 1) by apply odd_part_odd.
      assert (Hg1 : Z.gcd a1 p = 1) by (subst a1; now rewrite gcd_odd_part).
      apply IH in H; trivial.
      * rewrite H. rewrite (odd_part_val2 a). fold a1.
        rewrite gauss_symbol_pow2 by (trivial; lia).
        rewrite (gauss_symbol_flip a1 p) by (trivial; lia).
        destruct ((p mod 4 =? a1 mod 4) && (a1 mod 4 =? 3)); ring.
      * pose proof (Z.mod_pos_bound p a1 Ha1). lia.
      * rewrite Z.gcd_mod by lia. trivial.
Qed.

Lemma gcd_mul_1 a b p : Z.gcd (a * b) p = 1 -> Z.gcd a p = 1 /\ Z.gcd b p = 1.
Proof.
  intros H. split; apply Z.divide_1_r_nonneg; try apply Z.gcd_nonneg;
    rewrite <- H; (apply Z.gcd_greatest; [|apply Z.gcd_divide_r]).
  - apply Z.divide_mul_l. apply Z.gcd_divide_l.
  - apply Z.divide_mul_r. apply Z.gcd_divide_l.
Qed.

(** What [jacobi] returns is the Jacobi symbol. *)
Lemma jacobi_computes_symbol a p :
  0 < p -> p mod 2 = 1 -> a mod p <> 0 -> jacobi a p = Ret (jacobi_symbol a p).
Proof.
  intros Hp Hodd Ha.
  destruct (jacobi_returns a p Hp Hodd Ha) as (v & Hv & Hl).
  rewrite Hv. f_equal. unfold jacobi_symbol.
  destruct (jacobi_value _ _ _ Hv) as [[Hg _]|[Hg ->]].
  - rewrite Hg. cbn. apply jacobi_loop_gauss in Hl; trivial.
    + rewrite gauss_symbol_mod in Hl. lia.
    + apply Z.mod_pos_bound. lia.
    + now rewrite Z.gcd_mod, Z.gcd_comm by lia.
  - destruct (Z.eqb_spec (Z.gcd a p) 1); [contradiction|reflexivity].
Qed.

Lemma jacobi_symbol_mod a n : jacobi_symbol (a mod n) n = jacobi_symbol a n.
Proof.
  unfold jacobi_symbol. rewrite gauss_symbol_mod.
  destruct (Z.eq_dec n 0) as [->|Hn]; [now rewrite Z.mod_0_r|].
  now rewrite Z.gcd_mod, Z.gcd_comm.
Qed.

Lemma jacobi_symbol_mul a b n :
  0 < n -> n mod 2 = 1 ->
  jacobi_symbol (a * b) n = jacobi_symbol a n * jacobi_symbol b n.
Proof.
  intros Hn Hodd. unfold jacobi_symbol.
  destruct (Z.eqb_spec (Z.gcd (a * b) n) 1) as [E|E].
  - destruct (gcd_mul_1 a b n E) as [Ea Eb]. rewrite Ea, Eb. cbn.
    now apply gauss_symbol_mul.
  - destruct (Z.eqb_spec (Z.gcd a n) 1) as [Ea|Ea]; [|lia].
    destruct (Z.eqb_spec (Z.gcd b n) 1) as [Eb|Eb]; [|lia].
    exfalso. apply E. now apply Z.coprime_mul_l.
Qed.

(** ** Gauss's lemma *)

Lemma zprod_coprime p l :
  (forall k, In k l -> Z.gcd k p = 1) -> Z.gcd (zprod l) p = 1.
Proof.
  induction l as [|x l IH]; intros H.
  - apply Z.gcd_1_l.
  - rewrite zprod_cons. apply Z.coprime_mul_l.
    + apply H. now left.
    + apply IH. intros k Hk. apply H. now right.
Qed.

Lemma gauss_lemma a p :
  Z.prime p -> p mod 2 = 1 -> a mod p <> 0 ->
  a ^ (p / 2) mod p = gauss_symbol a p mod p.
Proof.
  intros Hp Hodd Ha. pose proof (Z.prime_ge_2 _ Hp) as H2.
  pose proof (odd_half p Hodd) as E.
  assert (Hg : Z.gcd a p = 1) by now apply prime_coprime.
  set (P := zprod (half p)).
  assert (HP : Z.gcd P p = 1).
  { apply zprod_coprime. intros k Hk. apply in_half in Hk.
    apply prime_coprime; trivial. rewrite Z.mod_small; lia. }
  assert (E1 : zprod (map (fun k => a * k) (half p)) = a ^ (p / 2) * P).
  { rewrite (zprod_map_scale a (fun k => k)), map_id, half_length by lia.
    reflexivity. }
  assert (E2 : zprod (map (fun k => a * k) (half p)) mod p = (gauss_symbol a p * P) mod p).
  { rewrite (zprod_mod_ext _ (fun k => res_sign p (a * k) * res_abs p (a * k))).
    - rewrite zprod_map_mul. fold (gauss_symbol a p).
      rewrite (zprod_perm _ _ (half_permuted p a ltac:(lia) Hodd Hg)). reflexivity.
    - intros k _. symmetry. apply res_decomp. lia. }
  rewrite E1 in E2.
  assert (Hd : (p | P * (a ^ (p / 2) - gauss_symbol a p))).
  { apply Z.mod_divide; [lia|].
    replace (P * (a ^ (p / 2) - gauss_symbol a p))
      with (a ^ (p / 2) * P - gauss_symbol a p * P) by ring.
    rewrite Zminus_mod, E2, Z.sub_diag. reflexivity. }
  apply Z.gauss in Hd; [|now rewrite Z.gcd_comm].
  destruct Hd as [u Hu].
  replace (a ^ (p / 2)) with (gauss_symbol a p + u * p) by lia.
  apply Z.mod_add. lia.
Qed.

(** ** Products over a list paired off by an involution *)

Lemma mod_cancel p u v w :
  Z.prime p -> 0 < u < p -> 0 <= v < p -> 0 <= w < p ->
  (u * v) mod p = (u * w) mod p -> v = w.
Proof.
  intros Hp Hu Hv Hw H.
  assert (Hd : (p | u * (v - w))).
  { apply Z.mod_divide; [lia|].
    replace (u * (v - w)) with (u * v - u * w) by ring.
    rewrite Zminus_mod, H, Z.sub_diag. reflexivity. }
  apply Z.gauss in Hd.
  - destruct Hd as [k Hk]. assert (k = 0) by nia. lia.
  - rewrite Z.gcd_comm. apply prime_coprime; trivial. rewrite Z.mod_small; lia.
Qed.

Lemma paired_product p c (f : Z -> Z) :
  Z.prime p ->
  forall n L, (List.length L <= n)%nat -> NoDup L ->
    (forall x, In x L -> 0 < x < p) ->
    (forall x, In x L -> In (f x) L /\ f x <> x /\ (x * f x) mod p = c mod p) ->
    zprod L mod p = c ^ (Z.of_nat (List.length L) / 2) mod p.
Proof.
  intros Hp. pose proof (Z.prime_ge_2 _ Hp) as H2.
  induction n as [|n IH]; intros L Hlen Hnd Hr Hf.
  - destruct L; [|cbn in Hlen; lia]. cbn. reflexivity.
  - destruct L as [|x L']; [reflexivity|].
    destruct (Hf x (or_introl eq_refl)) as (Hin & Hne & Hprod).
    destruct Hin as [Hin|Hin]; [congruence|].
    destruct (in_split _ _ Hin) as (l1 & l2 & ->).
    inversion Hnd as [|? ? Hx Hnd']. subst.
    pose proof (NoDup_remove_1 _ _ _ Hnd') as Hnd''.
    pose proof (NoDup_remove_2 _ _ _ Hnd') as Hfx.
    (* f is injective on the list and is its own inverse there *)
    assert (Hinj : forall y z, In y (x :: l1 ++ f x :: l2) ->
                     In z (x :: l1 ++ f x :: l2) -> f y = f z -> y = z).
    { intros y z Hy Hz Eyz.
      destruct (Hf y Hy) as (Hy1 & _ & Hy2). destruct (Hf z Hz) as (Hz1 & _ & Hz2).
      pose proof (Hr _ Hy). pose proof (Hr _ Hz). pose proof (Hr _ Hy1).
      apply (mod_cancel p (f y)); trivial; try lia.
      rewrite (Z.mul_comm (f y) y), Hy2, Eyz, (Z.mul_comm (f z) z), Hz2. reflexivity. }
    assert (Hinv : forall y, In y (x :: l1 ++ f x :: l2) -> f (f y) = y).
    { intros y Hy.
      destruct (Hf y Hy) as (Hy1 & _ & Hy2). destruct (Hf _ Hy1) as (Hy3 & _ & Hy4).
      pose proof (Hr _ Hy). pose proof (Hr _ Hy1). pose proof (Hr _ Hy3).
      apply (mod_cancel p (f y)); trivial; try lia.
      rewrite Hy4, (Z.mul_comm (f y) y), Hy2. reflexivity. }
    assert (Hsub : forall y, In y (l1 ++ l2) -> In y (x :: l1 ++ f x :: l2)).
    { intros y Hy. right. apply in_app_iff in Hy. apply in_app_iff.
      destruct Hy; [now left|right; now right]. }
    assert (IH' : zprod (l1 ++ l2) mod p =
                  c ^ (Z.of_nat (List.length (l1 ++ l2)) / 2) mod p).
    { apply IH; trivial.
      - cbn [List.length] in Hlen. rewrite length_app in *. cbn [List.length] in Hlen. lia.
      - intros y Hy. apply Hr. now apply Hsub.
      - intros y Hy. pose proof (Hsub y Hy) as Hy'.
        destruct (Hf y Hy') as (Hy1 & Hy2 & Hy3). split; [|split]; trivial.
        destruct Hy1 as [Hy1|Hy1].
        + exfalso. apply Hfx.
          assert (y = f x) by (rewrite Hy1, Hinv; trivial). now subst y.
        + apply in_app_iff in Hy1. apply in_app_iff.
          destruct Hy1 as [Hy1|[Hy1|Hy1]]; [now left| |now right].
          exfalso. apply Hx.
          assert (x = y).
          { apply Hinj; trivial; try (now left); congruence. }
          subst y. apply in_app_iff in Hy. apply in_app_iff.
          destruct Hy; [now left|right; now right]. }
    rewrite zprod_cons, zprod_app, zprod_cons.
    replace (x * (zprod l1 * (f x * zprod l2)))
      with ((x * f x) * (zprod l1 * zprod l2)) by ring.
    rewrite <- zprod_app. rewrite Zmult_mod, Hprod, IH', <- Zmult_mod.
    f_equal. cbn [List.length]. rewrite !length_app. cbn [List.length].
    rewrite <- Z.pow_succ_r.
    + f_equal. rewrite Nat.add_succ_r, !Nat2Z.inj_succ.
      Z.to_euclidean_division_equations; lia.
    + apply Z.div_pos; lia.
Qed.

(** ** Wilson's theorem and Euler's criterion *)

Lemma in_units_list p k : In k (units_list p) <-> 1 <= k <= p - 1.
Proof.
  unfold units_list. rewrite in_map_iff. split.
  - intros (i & <- & Hi). apply in_seq in Hi. lia.
  - intros Hk. exists (Z.to_nat k). split; [lia|]. apply in_seq. lia.
Qed.

Lemma units_list_NoDup p : NoDup (units_list p).
Proof.
  unfold units_list. apply NoDup_map_NoDup_ForallPairs; [|apply seq_NoDup].
  intros x y _ _ H. lia.
Qed.

Lemma invmod_unit p k :
  Z.prime p -> 1 <= k <= p - 1 ->
  0 < Z.invmod k p < p /\ (k * Z.invmod k p) mod p = 1.
Proof.
  intros Hp Hk. pose proof (Z.prime_ge_2 _ Hp) as H2.
  assert (Hi : Z.invmod k p * k mod p = 1).
  { apply Z.invmod_prime; trivial. rewrite Z.mod_small; lia. }
  assert (Hb : 0 <= Z.invmod k p < p) by (unfold Z.invmod; apply Z.mod_pos_bound; lia).
  split; [|now rewrite Z.mul_comm].
  destruct (Z.eq_dec (Z.invmod k p) 0) as [E|]; [|lia].
  rewrite E, Z.mul_0_l, Z.mod_0_l in Hi by lia. discriminate.
Qed.

Lemma wilson p : Z.prime p -> 2 < p -> zprod (units_list p) mod p = p - 1.
Proof.
  intros Hp H2.
  set (L := map Z.of_nat (seq 2 (Z.to_nat (p - 3)))).
  assert (HL : forall k, In k L <-> 2 <= k <= p - 2).
  { intros k. unfold L. rewrite in_map_iff. split.
    - intros (i & <- & Hi). apply in_seq in Hi. lia.
    - intros Hk. exists (Z.to_nat k). split; [lia|]. apply in_seq. lia. }
  assert (E : units_list p = 1 :: L ++ [p - 1]).
  { unfold units_list, L.
    replace (Z.to_nat (p - 1)) with (S (S (Z.to_nat (p - 3)))) by lia.
    rewrite seq_S. cbn [seq map]. rewrite map_app. cbn [map].
    change (Z.of_nat 1) with 1. cbn [app]. do 3 f_equal. lia. }
  assert (HLp : zprod L mod p = 1 ^ (Z.of_nat (List.length L) / 2) mod p).
  { apply (paired_product p 1 (fun k => Z.invmod k p) Hp (List.length L)); trivial.
    - unfold L. apply NoDup_map_NoDup_ForallPairs; [|apply seq_NoDup].
      intros x y _ _ H. lia.
    - intros x Hx. apply HL in Hx. lia.
    - intros x Hx. apply HL in Hx.
      destruct (invmod_unit p x Hp ltac:(lia)) as [Hb Hi].
      assert (Hne : Z.invmod x p <> x).
      { intros Ex. rewrite Ex in Hi.
        destruct (sqrt_one_prime p x Hp ltac:(lia) Hi); lia. }
      split; [|split]; trivial.
      + apply HL.
        assert (Z.invmod x p <> 1).
        { intros E1. rewrite E1, Z.mul_1_r, Z.mod_small in Hi; lia. }
        assert (Z.invmod x p <> p - 1).
        { intros E1. rewrite E1 in Hi.
          replace (x * (p - 1)) with ((p - x) + (x - 1) * p) in Hi by ring.
          rewrite Z.mod_add, Z.mod_small in Hi; lia. }
        lia.
      + rewrite Hi. symmetry. apply Z.mod_1_l. lia. }
  rewrite Z.pow_1_l in HLp by (apply Z.div_pos; lia).
  rewrite Z.mod_1_l in HLp by lia.
  rewrite E, zprod_cons, zprod_app, zprod_cons. change (zprod []) with 1.
  rewrite Z.mul_1_l, Z.mul_1_r, Zmult_mod, HLp, Z.mul_1_l, Z.mod_mod by lia.
  apply Z.mod_small. lia.
Qed.

Lemma is_square_mod_spec a p :
  is_square_mod a p = true <->
  exists x, 1 <= x <= p - 1 /\ (x * x) mod p = a mod p.
Proof.
  unfold is_square_mod. fold (units_list p). rewrite existsb_exists. split.
  - intros (x & Hx & E). apply in_units_list in Hx. apply Z.eqb_eq in E. eauto.
  - intros (x & Hx & E). exists x. split; [now apply in_units_list|now apply Z.eqb_eq].
Qed.

Lemma euler_square a p :
  Z.prime p -> p mod 2 = 1 -> is_square_mod a p = true -> a ^ (p / 2) mod p = 1.
Proof.
  intros Hp Hodd H. pose proof (Z.prime_ge_2 _ Hp) as H2.
  apply is_square_mod_spec in H. destruct H as (x & Hx & E).
  rewrite <- Z.mod_pow_l, <- E, Z.mod_pow_l.
  rewrite <- Z.pow_2_r, <- Z.pow_mul_r by (try apply Z.div_pos; lia).
  replace (2 * (p / 2)) with (p - 1) by (pose proof (odd_half p Hodd); lia).
  apply Z.fermat_nz; trivial. rewrite Z.mod_small; lia.
Qed.

Lemma euler_non_square a p :
  Z.prime p -> p mod 2 = 1 -> a mod p <> 0 -> is_square_mod a p = false ->
  a ^ (p / 2) mod p = p - 1.
Proof.
  intros Hp Hodd Ha H. pose proof (Z.prime_ge_2 _ Hp) as H2.
  assert (H3 : 2 < p).
  { destruct (Z.eq_dec p 2) as [->|]; [discriminate|lia]. }
  rewrite <- (wilson p Hp H3). symmetry.
  replace (p / 2) with (Z.of_nat (List.length (units_list p)) / 2).
  2:{ unfold units_list. rewrite length_map, length_seq, Z2Nat.id by lia.
      pose proof (odd_half p Hodd). Z.to_euclidean_division_equations; lia. }
  apply (paired_product p a (fun k => (a * Z.invmod k p) mod p) Hp
           (List.length (units_list p))); trivial.
  - apply units_list_NoDup.
  - intros x Hx. apply in_units_list in Hx. lia.
  - intros x Hx. apply in_units_list in Hx.
    destruct (invmod_unit p x Hp Hx) as [Hb Hi].
    assert (Hprod : (x * ((a * Z.invmod x p) mod p)) mod p = a mod p).
    { rewrite Z.mul_mod_idemp_r by lia.
      replace (x * (a * Z.invmod x p)) with (a * (x * Z.invmod x p)) by ring.
      rewrite Zmult_mod, Hi, Z.mul_1_r, Z.mod_mod by lia. reflexivity. }
    pose proof (Z.mod_pos_bound (a * Z.invmod x p) p ltac:(lia)) as Hfb.
    assert (Hnz : (a * Z.invmod x p) mod p <> 0).
    { intros E0. rewrite E0, Z.mul_0_r, Z.mod_0_l in Hprod by lia. congruence. }
    split; [|split]; trivial.
    + apply in_units_list. lia.
    + intros Ex. rewrite Ex in Hprod.
      assert (Hs : is_square_mod a p = true).
      { apply is_square_mod_spec. exists x. split; trivial. }
      congruence.
Qed.

(** For a prime modulus the symbol is Legendre's. *)
Lemma jacobi_symbol_legendre a p :
  Z.prime p -> p mod 2 = 1 -> a mod p <> 0 -> jacobi_symbol a p = legendre a p.
Proof.
  intros Hp Hodd Ha. pose proof (Z.prime_ge_2 _ Hp) as H2.
  assert (H3 : 2 < p).
  { destruct (Z.eq_dec p 2) as [->|]; [discriminate|lia]. }
  unfold jacobi_symbol, legendre.
  rewrite (prime_coprime p a Hp Ha). cbn.
  destruct (Z.eqb_spec (a mod p) 0); [contradiction|].
  pose proof (gauss_lemma a p Hp Hodd Ha) as G.
  destruct (is_square_mod a p) eqn:S.
  - rewrite (euler_square a p Hp Hodd S) in G.
    destruct (gauss_symbol_cases a p) as [E|E]; trivial.
    exfalso. rewrite E in G.
    replace (-1) with ((p - 1) + (-1) * p) in G by ring.
    rewrite Z.mod_add, Z.mod_small in G; lia.
  - rewrite (euler_non_square a p Hp Hodd Ha S) in G.
    destruct (gauss_symbol_cases a p) as [E|E]; trivial.
    exfalso. rewrite E, Z.mod_1_l in G; lia.
Qed.

(** ** What [jacobi] returns *)

(** X1. On an odd modulus [p >= 1] and an argument that is no multiple of [p],
    [jacobi] returns -1, 0 or +1, and 0 exactly when the two have a common
    factor. *)
Theorem jacobi_sign_or_zero (a p : Z) :
  0 < p -> p mod 2 = 1 -> a mod p <> 0 ->
  exists v, jacobi a p = Ret v /\ (v = -1 \/ v = 0 \/ v = 1) /\
            (v = 0 <-> 1 < Z.gcd a p).
Proof.
  intros Hp Hodd Ha. destruct (jacobi_returns a p Hp Hodd Ha) as (v & Hv & _).
  exists v. split; trivial.
  pose proof (Z.gcd_nonneg a p) as Hn.
  assert (Hnz : Z.gcd a p <> 0).
  { intros E. apply Z.gcd_eq_0_r in E. lia. }
  destruct (jacobi_value _ _ _ Hv) as [[Hg Hs]|[Hg Hs]]; split; try lia.
Qed.

Lemma jacobi_sign_or_zero_witness :
  exists v, jacobi 6 15 = Ret v /\ (v = -1 \/ v = 0 \/ v = 1) /\
            (v = 0 <-> 1 < Z.gcd 6 15).
Proof.
  apply (jacobi_sign_or_zero 6 15); [lia|reflexivity|]. vm_compute. discriminate.
Defined.

Lemma square_mod_any a p :
  0 < p -> a mod p <> 0 ->
  (is_square_mod a p = true <-> exists x, (x * x) mod p = a mod p).
Proof.
  intros Hp Ha. rewrite is_square_mod_spec. split.
  - intros (x & _ & E). now exists x.
  - intros (x & E). exists (x mod p).
    pose proof (Z.mod_pos_bound x p Hp) as Hb.
    assert (E' : (x mod p * (x mod p)) mod p = a mod p) by now rewrite <- Zmult_mod.
    split; trivial.
    destruct (Z.eq_dec (x mod p) 0) as [E0|]; [|lia].
    rewrite E0, Z.mul_0_l, Z.mod_0_l in E' by lia. congruence.
Qed.

(** X2. Modulo an odd prime, [jacobi] returns the Legendre symbol: +1 when the
    argument is congruent to a square, -1 when it is not. *)
Theorem jacobi_is_legendre_on_primes (a p : Z) :
  Z.prime p -> p mod 2 = 1 -> a mod p <> 0 ->
  jacobi a p = Ret (legendre a p) /\
  (jacobi a p = Ret 1 <-> exists x, (x * x) mod p = a mod p) /\
  (jacobi a p = Ret (-1) <-> ~ exists x, (x * x) mod p = a mod p).
Proof.
  intros Hp Hodd Ha. pose proof (Z.prime_ge_2 _ Hp) as H2.
  assert (E : jacobi a p = Ret (legendre a p)).
  { rewrite jacobi_computes_symbol by (trivial; lia).
    now rewrite jacobi_symbol_legendre. }
  split; trivial. rewrite E.
  pose proof (square_mod_any a p ltac:(lia) Ha) as Hs.
  unfold legendre. destruct (Z.eqb_spec (a mod p) 0); [contradiction|].
  destruct (is_square_mod a p).
  - split; split.
    + intros _. now apply Hs.
    + reflexivity.
    + discriminate.
    + intros H. exfalso. apply H. now apply Hs.
  - split; split.
    + discriminate.
    + intros H. apply Hs in H. discriminate.
    + intros _ H. apply Hs in H. discriminate.
    + reflexivity.
Qed.

Lemma prime_7 : Z.prime 7.
Proof.
  split; [lia|]. intros n Hn [k Hk].
  assert (Hk' : 0 < k < 7) by nia.
  assert (Hc : k = 1 \/ k = 2 \/ k = 3 \/ k = 4 \/ k = 5 \/ k = 6) by lia.
  repeat (destruct Hc as [Hc|Hc]; [subst k; lia|]). subst k; lia.
Qed.

Lemma jacobi_is_legendre_on_primes_witness :
  jacobi 3 7 = Ret (legendre 3 7) /\
  (jacobi 3 7 = Ret 1 <-> exists x, (x * x) mod 7 = 3 mod 7) /\
  (jacobi 3 7 = Ret (-1) <-> ~ exists x, (x * x) mod 7 = 3 mod 7).
Proof.
  apply (jacobi_is_legendre_on_primes 3 7 prime_7); [reflexivity|].
  vm_compute. discriminate.
Defined.

(** X3. [jacobi] is multiplicative in its first argument, for every odd modulus. *)
Theorem jacobi_of_a_product (a b p : Z) :
  0 < p -> p mod 2 = 1 -> (a * b) mod p <> 0 ->
  exists va vb,
    jacobi a p = Ret va /\ jacobi b p = Ret vb /\
    jacobi (a * b) p = Ret (va * vb) /\
    jacobi ((a * b) mod p) p = Ret (va * vb).
Proof.
  intros Hp Hodd Hab.
  assert (Ha : a mod p <> 0).
  { intros E. apply Hab. rewrite Zmult_mod, E, Z.mul_0_l. apply Z.mod_0_l. lia. }
  assert (Hb : b mod p <> 0).
  { intros E. apply Hab. rewrite Zmult_mod, E, Z.mul_0_r. apply Z.mod_0_l. lia. }
  exists (jacobi_symbol a p), (jacobi_symbol b p).
  rewrite jacobi_mod.
  rewrite !jacobi_computes_symbol by trivial.
  rewrite jacobi_symbol_mul by trivial. repeat split.
Qed.

Lemma jacobi_of_a_product_witness :
  exists va vb,
    jacobi 7 15 = Ret va /\ jacobi 11 15 = Ret vb /\
    jacobi (7 * 11) 15 = Ret (va * vb) /\
    jacobi ((7 * 11) mod 15) 15 = Ret (va * vb).
Proof.
  apply (jacobi_of_a_product 7 11 15); [lia|reflexivity|]. vm_compute. discriminate.
Defined.

Lemma coprime_mod_nonzero a p : 1 < p -> Z.gcd a p = 1 -> a mod p <> 0.
Proof.
  intros Hp Hg E. apply Z.mod_divide in E; [|lia].
  assert (Hd : (p | Z.gcd a p)) by (apply Z.gcd_greatest; [trivial|apply Z.divide_refl]).
  rewrite Hg in Hd. apply Z.divide_1_r_nonneg in Hd; lia.
Qed.

(** X4. The reciprocity law, on what [jacobi] returns: for coprime odd [a] and [p]
    above 1 the two symbols agree unless both numbers are 3 modulo 4. *)
Theorem jacobi_reciprocity (a p : Z) :
  1 < a -> a mod 2 = 1 -> 1 < p -> p mod 2 = 1 -> Z.gcd a p = 1 ->
  exists va vp,
    jacobi a p = Ret va /\ jacobi p a = Ret vp /\
    (va = 1 \/ va = -1) /\
    va * vp = if (a mod 4 =? 3) && (p mod 4 =? 3) then -1 else 1.
Proof.
  intros Ha Haodd Hp Hpodd Hg.
  assert (Hg' : Z.gcd p a = 1) by now rewrite Z.gcd_comm.
  exists (jacobi_symbol a p), (jacobi_symbol p a).
  rewrite !jacobi_computes_symbol by (try apply coprime_mod_nonzero; trivial; lia).
  unfold jacobi_symbol. rewrite Hg, Hg'. cbn.
  repeat split.
  - apply gauss_symbol_cases.
  - apply gauss_symbol_reciprocity; trivial; lia.
Qed.

Lemma jacobi_reciprocity_witness :
  exists va vp,
    jacobi 7 15 = Ret va /\ jacobi 15 7 = Ret vp /\
    (va = 1 \/ va = -1) /\
    va * vp = if (7 mod 4 =? 3) && (15 mod 4 =? 3) then -1 else 1.
Proof.
  apply (jacobi_reciprocity 7 15); try lia; reflexivity.
Defined.

Lemma zprod_all_minus_one {A} (f : A -> Z) l :
  (forall k, In k l -> f k = -1) ->
  zprod (map f l) = (-1) ^ Z.of_nat (List.length l).
Proof.
  induction l as [|x l IH]; intros H; [reflexivity|].
  cbn [map List.length]. rewrite zprod_cons, (H x (or_introl eq_refl)), IH.
  - rewrite Nat2Z.inj_succ, Z.pow_succ_r by lia. ring.
  - intros k Hk. apply H. now right.
Qed.

Lemma gauss_symbol_minus_one n :
  0 < n -> n mod 2 = 1 -> gauss_symbol (-1) n = (-1) ^ (n / 2).
Proof.
  intros Hn Hodd. pose proof (odd_half n Hodd) as E.
  unfold gauss_symbol. rewrite zprod_all_minus_one.
  { now rewrite half_length by lia. }
  intros k Hk. apply in_half in Hk. unfold res_sign.
  replace (-1 * k) with ((n - k) + (-1) * n) by ring.
  rewrite Z.mod_add, Z.mod_small by lia.
  destruct (Z.ltb_spec n (2 * (n - k))); lia.
Qed.

(** X5. The two supplements: the symbols of 2 and of [p - 1]. *)
Theorem jacobi_supplements (p : Z) :
  1 < p -> p mod 2 = 1 ->
  jacobi 2 p = Ret (if (p mod 8 =? 3) || (p mod 8 =? 5) then -1 else 1) /\
  jacobi (p - 1) p = Ret (if p mod 4 =? 3 then -1 else 1) /\
  jacobi 1 p = Ret 1.
Proof.
  intros Hp Hodd. pose proof (odd_half p Hodd) as E.
  assert (H2 : 2 mod p <> 0) by (rewrite Z.mod_small; lia).
  assert (H1 : 1 mod p <> 0) by (rewrite Z.mod_small; lia).
  assert (Hm : (p - 1) mod p <> 0) by (rewrite Z.mod_small; lia).
  rewrite !jacobi_computes_symbol by (trivial; lia).
  unfold jacobi_symbol.
  rewrite (gcd_2_odd p Hodd), Z.gcd_1_l.
  assert (Hg : Z.gcd (p - 1) p = 1).
  { apply Z.divide_1_r_nonneg; [apply Z.gcd_nonneg|].
    replace 1 with (p - (p - 1)) at 2 by ring.
    apply Z.divide_sub_r; [apply Z.gcd_divide_r|apply Z.gcd_divide_l]. }
  rewrite Hg. cbn [Z.eqb Pos.eqb].
  split; [|split]; f_equal.
  - rewrite gauss_symbol_2 by lia. reflexivity.
  - rewrite <- gauss_symbol_mod.
    replace ((p - 1) mod p) with ((-1) mod p).
    2:{ replace (p - 1) with (-1 + 1 * p) by ring. now rewrite Z.mod_add by lia. }
    rewrite gauss_symbol_mod, gauss_symbol_minus_one by lia.
    rewrite m1_pow_parity by (apply Z.div_pos; lia).
    destruct (Z.even (p / 2)) eqn:Ev.
    + apply Z.even_spec in Ev. destruct Ev as [u Hu].
      destruct (Z.eqb_spec (p mod 4) 3); [Z.to_euclidean_division_equations; lia|].
      reflexivity.
    + assert (Od : Z.odd (p / 2) = true) by (rewrite <- Z.negb_even, Ev; reflexivity).
      apply Z.odd_spec in Od. destruct Od as [u Hu].
      destruct (Z.eqb_spec (p mod 4) 3); [reflexivity|].
      Z.to_euclidean_division_equations; lia.
  - apply gauss_symbol_1; lia.
Qed.

Lemma jacobi_supplements_witness :
  jacobi 2 15 = Ret (if (15 mod 8 =? 3) || (15 mod 8 =? 5) then -1 else 1) /\
  jacobi (15 - 1) 15 = Ret (if 15 mod 4 =? 3 then -1 else 1) /\
  jacobi 1 15 = Ret 1.
Proof.
  apply (jacobi_supplements 15); [lia|reflexivity].
Defined.

(** ** Bits of a text and back *)

Lemma bit_string_app s1 s2 :
  bit_string (s1 ++ s2)%string = bit_string s1 && bit_string s2.
Proof.
  induction s1 as [|c s1 IH]; [reflexivity|].
  cbn [append bit_string]. rewrite IH. now rewrite andb_assoc.
Qed.

Lemma int2_digits_bits s : forall acc,
  bit_string s = true -> 0 <= acc ->
  exists v, int2_digits s acc = Ret (acc * 2 ^ Z.of_nat (String.length s) + v) /\
            0 <= v < 2 ^ Z.of_nat (String.length s).
Proof.
  induction s as [|c s IH]; intros acc Hb Hacc.
  - exists 0. cbn. split; [f_equal; lia|lia].
  - cbn [bit_string] in Hb. apply andb_true_iff in Hb. destruct Hb as [Hc Hb].
    cbn [int2_digits String.length]. rewrite Nat2Z.inj_succ, Z.pow_succ_r by lia.
    assert (Hp : 0 < 2 ^ Z.of_nat (String.length s)) by (apply Z.pow_pos_nonneg; lia).
    destruct (Ascii.eqb c "0").
    + destruct (IH (2 * acc) Hb ltac:(lia)) as (v & -> & Hv).
      exists v. split; [f_equal; ring|lia].
    + cbn in Hc. rewrite Hc.
      destruct (IH (2 * acc + 1) Hb ltac:(lia)) as (v & -> & Hv).
      exists (2 ^ Z.of_nat (String.length s) + v). split; [f_equal; ring|lia].
Qed.

(** A group of eight bits is read as a number below 256. *)
Lemma py_int2_byte s :
  bit_string s = true -> String.length s = 8%nat ->
  exists v, py_int2 s = Ret v /\ 0 <= v < 256.
Proof.
  intros Hb Hl. destruct (int2_digits_bits s 0 Hb ltac:(lia)) as (v & E & Hv).
  rewrite Hl in *. exists v. split; [|change (2 ^ Z.of_nat 8) with 256 in Hv; lia].
  destruct s; [discriminate|]. unfold py_int2. rewrite E; f_equal; lia.
Qed.

Lemma bit_not_newline c :
  (Ascii.eqb c "0" || Ascii.eqb c "1") = true -> is_newline c = false.
Proof.
  intros H. apply orb_true_iff in H.
  destruct H as [H|H]; apply Ascii.eqb_eq in H; subst c; reflexivity.
Qed.

Lemma findall8_group f rest :
  bit_string f = true -> String.length f = 8%nat ->
  findall8 (f ++ rest) = f :: findall8 rest.
Proof.
  intros Hb Hl.
  do 8 (destruct f as [|? f]; [discriminate|]). destruct f; [|discriminate].
  cbn [bit_string] in Hb.
  repeat (apply andb_true_iff in Hb; destruct Hb as [? Hb]).
  cbn [append findall8 existsb].
  rewrite !bit_not_newline by trivial. reflexivity.
Qed.

Lemma findall8_short s : (String.length s < 8)%nat -> findall8 s = [].
Proof.
  intros Hl.
  do 8 (destruct s as [|? s]; [reflexivity|]). cbn in Hl. lia.
Qed.

Lemma split_group s :
  (8 <= String.length s)%nat ->
  exists f rest, s = (f ++ rest)%string /\ String.length f = 8%nat.
Proof.
  intros Hl.
  do 8 (destruct s as [|? s]; [cbn in Hl; lia|]).
  eexists (String _ (String _ (String _ (String _ (String _ (String _ (String _
             (String _ EmptyString)))))))), s.
  split; reflexivity.
Qed.

(** On a string of bits the post-processing never fails: it yields one
    character below 256 for each full group of eight bits and drops what is
    left over. *)
Lemma recover_text_bits_aux n : forall s,
  (String.length s < n)%nat -> bit_string s = true ->
  exists l, recover_text s = Ret l /\ Forall (fun c => 0 <= c < 256) l /\
            (8 * List.length l <= String.length s < 8 * List.length l + 8)%nat.
Proof.
  induction n as [|n IH]; intros s Hn Hb; [lia|].
  destruct (Nat.lt_ge_cases (String.length s) 8) as [Hs|Hs].
  - exists []. unfold recover_text. rewrite findall8_short by trivial.
    cbn. repeat split; trivial; lia.
  - destruct (split_group s Hs) as (f & rest & -> & Hf).
    rewrite bit_string_app in Hb. apply andb_true_iff in Hb. destruct Hb as [Hbf Hbr].
    rewrite length_append_s in *.
    destruct (IH rest ltac:(lia) Hbr) as (l & Hl & Hall & Hlen).
    destruct (py_int2_byte f Hbf Hf) as (v & Hv & Hv256).
    exists (v :: l). unfold recover_text in *.
    rewrite findall8_group by trivial. cbn [comprehension]. rewrite Hv.
    destruct (comprehension py_int2 (findall8 rest)) as [utf| |]; try discriminate.
    cbn [comprehension]. unfold py_chr at 1.
    destruct (Z.leb_spec 0 v); [|lia]. destruct (Z.ltb_spec v 1114112); [|lia].
    cbn [andb]. rewrite Hl. repeat split.
    + constructor; trivial.
    + cbn [List.length]. lia.
    + cbn [List.length]. lia.
Qed.

Lemma recover_text_bits (s : string) :
  bit_string s = true ->
  exists l, recover_text s = Ret l /\ Forall (fun c => 0 <= c < 256) l /\
            (8 * List.length l <= String.length s < 8 * List.length l + 8)%nat.
Proof.
  intros Hb. apply (recover_text_bits_aux (S (String.length s))); trivial. lia.
Qed.

(** X6. On a string of the characters 0 and 1 the post-processing returns: one
    character below 256 for each full group of eight, the bits left over at
    the end dropped. *)
Theorem recover_text_of_bits (s : string) :
  bit_string s = true ->
  exists l, recover_text s = Ret l /\ Forall (fun c => 0 <= c < 256) l /\
            (8 * List.length l <= String.length s < 8 * List.length l + 8)%nat.
Proof.
  intros Hb. apply (recover_text_bits_aux (S (String.length s))); [lia|exact Hb].
Qed.

Lemma recover_text_of_bits_witness :
  exists l, recover_text "0100000101" = Ret l /\ Forall (fun c => 0 <= c < 256) l /\
            (8 * List.length l <= String.length "0100000101" < 8 * List.length l + 8)%nat.
Proof. apply (recover_text_of_bits "0100000101"). reflexivity. Defined.

(** The groups of a code point below 256. *)
Lemma format_08b_code_byte v :
  0 <= v < 256 ->
  bit_string (format_08b_code v) = true /\
  String.length (format_08b_code v) = 8%nat /\
  py_int2 (format_08b_code v) = Ret v.
Proof.
  intros Hv.
  assert (H : forallb (fun i =>
              bit_string (format_08b_code i) &&
              Nat.eqb (String.length (format_08b_code i)) 8 &&
              match py_int2 (format_08b_code i) with
              | Ret w => w =? i
              | _ => false
              end) (map Z.of_nat (seq 0 256)) = true) by (vm_compute; reflexivity).
  rewrite forallb_forall in H. specialize (H v).
  assert (Hin : In v (map Z.of_nat (seq 0 256))).
  { apply in_map_iff. exists (Z.to_nat v). split; [lia|]. apply in_seq. lia. }
  apply H in Hin. apply andb_true_iff in Hin. destruct Hin as [Hin H3].
  apply andb_true_iff in Hin. destruct Hin as [H1 H2].
  apply Nat.eqb_eq in H2. repeat split; trivial.
  destruct (py_int2 (format_08b_code v)); try discriminate.
  apply Z.eqb_eq in H3. now subst.
Qed.

Lemma format_08b_is_code c :
  format_08b c = format_08b_code (Z.of_nat (nat_of_ascii c)).
Proof.
  destruct c as [[|] [|] [|] [|] [|] [|] [|] [|]]; vm_compute; reflexivity.
Qed.

Lemma binary_text_of_is_codes s :
  binary_text_of s = binary_text_of_codes (code_points s).
Proof.
  induction s as [|c s IH]; [reflexivity|].
  cbn [binary_text_of]. unfold code_points. cbn [list_ascii_of_string map binary_text_of_codes].
  fold (code_points s). now rewrite IH, format_08b_is_code.
Qed.

Lemma binary_text_of_codes_bits l :
  Forall (fun c => 0 <= c < 256) l ->
  bit_string (binary_text_of_codes l) = true /\
  String.length (binary_text_of_codes l) = (8 * List.length l)%nat.
Proof.
  induction 1 as [|c l Hc Hl [IH1 IH2]]; [split; reflexivity|].
  destruct (format_08b_code_byte c Hc) as (H1 & H2 & _).
  cbn [binary_text_of_codes List.length].
  rewrite bit_string_app, length_append_s, H1, H2, IH1, IH2. split; [reflexivity|lia].
Qed.

Lemma code_points_below_256 s : Forall (fun c => 0 <= c < 256) (code_points s).
Proof.
  unfold code_points. apply Forall_forall. intros v Hv.
  apply in_map_iff in Hv. destruct Hv as (c & <- & _).
  pose proof (nat_ascii_bounded c). lia.
Qed.

Lemma recover_codes (plain_text : list Z) :
  Forall (fun c => 0 <= c < 256) plain_text ->
  recover_text (binary_text_of_codes plain_text) = Ret plain_text.
Proof.
  induction 1 as [|c l Hc Hl IH]; [reflexivity|].
  destruct (format_08b_code_byte c Hc) as (H1 & H2 & H3).
  cbn [binary_text_of_codes]. unfold recover_text in *.
  rewrite findall8_group by trivial. cbn [comprehension]. rewrite H3.
  destruct (comprehension py_int2 (findall8 (binary_text_of_codes l)))
    as [utf| |]; try discriminate.
  cbn [comprehension]. unfold py_chr at 1.
  destruct (Z.leb_spec 0 c); [|lia]. destruct (Z.ltb_spec c 1114112); [|lia].
  cbn [andb]. now rewrite IH.
Qed.

(** X7. Text to bits and back: a text whose characters are all below 256 is
    recovered as it was. *)
Theorem text_round_trip (plain_text : list Z) :
  Forall (fun c => 0 <= c < 256) plain_text ->
  recover_text (binary_text_of_codes plain_text) = Ret plain_text.
Proof. apply recover_codes. Qed.

Lemma text_round_trip_witness :
  recover_text (binary_text_of_codes [65; 110; 32]) = Ret [65; 110; 32].
Proof.
  apply (text_round_trip [65; 110; 32]). repeat constructor; lia.
Defined.

Lemma code_points_length s : List.length (code_points s) = String.length s.
Proof.
  unfold code_points. rewrite length_map.
  induction s as [|c s IH]; [reflexivity|]. cbn. now rewrite IH.
Qed.

Lemma binary_text_round_trip (plain_text : string) :
  bit_string (binary_text_of plain_text) = true /\
  String.length (binary_text_of plain_text) = (8 * String.length plain_text)%nat /\
  recover_text (binary_text_of plain_text) = Ret (code_points plain_text).
Proof.
  rewrite binary_text_of_is_codes.
  destruct (binary_text_of_codes_bits _ (code_points_below_256 plain_text)) as [H1 H2].
  split; [trivial|]. split.
  - now rewrite H2, code_points_length.
  - apply recover_codes. apply code_points_below_256.
Qed.

Lemma bin_digits_bits q : bit_string (bin_digits q) = true.
Proof.
  induction q as [q IH|q IH|]; cbn [bin_digits]; trivial;
    rewrite bit_string_app, IH; reflexivity.
Qed.

Lemma zeros_bits k : bit_string (zeros k) = true.
Proof. induction k as [|k IH]; [reflexivity|]. cbn. exact IH. Qed.

Lemma format_08b_code_bits v : 0 <= v -> bit_string (format_08b_code v) = true.
Proof.
  intros Hv. unfold format_08b_code. rewrite bit_string_app, zeros_bits.
  destruct v as [|q|q]; [reflexivity| |lia].
  cbn [py_bin append slice_from andb]. apply bin_digits_bits.
Qed.

Lemma binary_text_of_codes_bit_string l :
  Forall (fun c => 0 <= c) l -> bit_string (binary_text_of_codes l) = true.
Proof.
  induction 1 as [|c l Hc Hl IH]; [reflexivity|].
  cbn [binary_text_of_codes]. now rewrite bit_string_app, format_08b_code_bits, IH.
Qed.

(** X8. A text with a character from 256 on is never recovered: the
    post-processing still returns, but only characters below 256. *)
Theorem text_above_255_is_lost (plain_text : list Z) :
  Forall (fun c => 0 <= c) plain_text ->
  Exists (fun c => 256 <= c) plain_text ->
  exists l, recover_text (binary_text_of_codes plain_text) = Ret l /\
            l <> plain_text.
Proof.
  intros Hpos Hbig.
  destruct (recover_text_bits _ (binary_text_of_codes_bit_string _ Hpos))
    as (l & Hl & Hall & _).
  exists l. split; trivial. intros ->.
  apply Exists_exists in Hbig. destruct Hbig as (c & Hc & Hc256).
  rewrite Forall_forall in Hall. specialize (Hall c Hc). lia.
Qed.

Lemma text_above_255_is_lost_witness :
  exists l, recover_text (binary_text_of_codes [8364]) = Ret l /\ l <> [8364].
Proof.
  apply (text_above_255_is_lost [8364]).
  - repeat constructor; lia.
  - constructor. lia.
Defined.

(** ** [generate_pseudo_square] *)

Lemma generate_pseudo_square_loop_inv n p q fuel : forall tp z rest,
  generate_pseudo_square_loop fuel n p q tp = Ok z rest ->
  2 <= z <= n - 1 /\
  jacobi z p = Ret (-1) /\ jacobi z q = Ret (-1) /\ jacobi z n = Ret 1 /\
  exists rejected, tp = rejected ++ z :: rest /\
                   Forall (fun a => 2 <= a <= n - 1) rejected.
Proof.
  induction fuel as [|fuel IH]; intros tp z rest H; [discriminate|].
  cbn [generate_pseudo_square_loop] in H.
  apply bind_inv in H. destruct H as (a & t1 & Ha & H).
  apply randrange_inv in Ha. destruct Ha as [-> Ha].
  apply bind_inv in H. destruct H as (j1 & t2 & H1 & H).
  apply lift_inv in H1. destruct H1 as [H1 ->].
  apply bind_inv in H. destruct H as (j2 & t3 & H2 & H).
  apply lift_inv in H2. destruct H2 as [H2 ->].
  assert (Rec : forall z rest,
            generate_pseudo_square_loop fuel n p q t1 = Ok z rest ->
            2 <= z <= n - 1 /\
            jacobi z p = Ret (-1) /\ jacobi z q = Ret (-1) /\ jacobi z n = Ret 1 /\
            exists rejected, a :: t1 = rejected ++ z :: rest /\
                             Forall (fun a => 2 <= a <= n - 1) rejected).
  { intros z' rest' H'. apply IH in H'.
    destruct H' as (Hz & Hp & Hq & Hn & rej & -> & Hrej).
    repeat split; trivial; try lia. exists (a :: rej). split; [reflexivity|].
    constructor; trivial. lia. }
  destruct ((j1 =? j2) && (j2 =? -1)) eqn:E; [|now apply Rec].
  apply andb_true_iff in E. destruct E as [E1 E2].
  apply Z.eqb_eq in E1, E2. subst j1 j2.
  apply bind_inv in H. destruct H as (j3 & t4 & H3 & H).
  apply lift_inv in H3. destruct H3 as [H3 ->].
  destruct (Z.eqb_spec j3 1) as [->|]; [|now apply Rec].
  inversion H. subst. repeat split; trivial; try lia.
  exists []. split; [reflexivity|constructor].
Qed.

(** X9. A value [generate_pseudo_square(n, p, q)] returns lies in [2, n - 1] and
    has the symbol -1 over [p], -1 over [q] and +1 over [n]; the draws before
    it were of the same range. *)
Theorem generate_pseudo_square_returns_an_anchor (n p q : Z) (tp : tape) (z : Z)
  (rest : tape) :
  generate_pseudo_square n p q tp = Ok z rest ->
  2 <= z <= n - 1 /\
  jacobi z p = Ret (-1) /\ jacobi z q = Ret (-1) /\ jacobi z n = Ret 1 /\
  exists rejected, tp = rejected ++ z :: rest /\
                   Forall (fun a => 2 <= a <= n - 1) rejected.
Proof. unfold generate_pseudo_square. apply generate_pseudo_square_loop_inv. Qed.

Lemma generate_pseudo_square_returns_an_anchor_witness :
  2 <= 10 <= 1357 - 1 /\
  jacobi 10 23 = Ret (-1) /\ jacobi 10 59 = Ret (-1) /\ jacobi 10 1357 = Ret 1 /\
  exists rejected, [2; 3; 10; 77] = rejected ++ 10 :: [77] /\
                   Forall (fun a => 2 <= a <= 1357 - 1) rejected.
Proof.
  apply (generate_pseudo_square_returns_an_anchor 1357 23 59 [2; 3; 10; 77] 10 [77]).
  reflexivity.
Defined.

(** X10. A draw that is a multiple of [p] or of [q] is not rejected: the entry
    assertion of [jacobi] fails on it and ends the sampler. *)
Theorem generate_pseudo_square_fails_on_a_multiple (n p q a : Z) (rest : tape) :
  1 < p -> p mod 2 = 1 -> 1 < q -> q mod 2 = 1 ->
  2 <= a <= n - 1 -> (p | a) \/ (q | a) ->
  generate_pseudo_square n p q (a :: rest) = Err AssertionError.
Proof.
  intros Hp Hpodd Hq Hqodd Ha Hdiv.
  unfold generate_pseudo_square. cbn [List.length generate_pseudo_square_loop].
  unfold bind at 1. unfold randint. rewrite randrange_draw by lia.
  destruct (Z.eq_dec (a mod p) 0) as [E|E].
  - assert (H : jacobi a p = Raise AssertionError).
    { apply jacobi_assertion; [lia|]. right. right. apply Z.mod_divide; lia. }
    unfold bind at 1. now rewrite H.
  - destruct (jacobi_returns a p ltac:(lia) Hpodd E) as (v & Hv & _).
    unfold bind at 1. rewrite Hv. cbn [lift].
    assert (H : jacobi a q = Raise AssertionError).
    { apply jacobi_assertion; [lia|]. right. right.
      destruct Hdiv as [Hd|Hd]; trivial.
      exfalso. apply E. apply Z.mod_divide; trivial. lia. }
    unfold bind at 1. now rewrite H.
Qed.

Lemma generate_pseudo_square_fails_on_a_multiple_witness :
  generate_pseudo_square 1357 23 59 (46 :: [10]) = Err AssertionError.
Proof.
  apply (generate_pseudo_square_fails_on_a_multiple 1357 23 59 46 [10]);
    try lia; try reflexivity.
  left. exists 2. reflexivity.
Defined.

(** ** The sieve lets every prime through *)

Lemma survives_prime table pc :
  Forall (fun d => 1 < d) table -> Z.prime pc -> survives pc table = Ret true.
Proof.
  intros Ht Hp. pose proof (Z.prime_ge_2 _ Hp) as H2.
  induction Ht as [|d table Hd Ht IH]; [reflexivity|].
  cbn [survives]. destruct (Z.eqb_spec d 0); [lia|].
  destruct (Z.eqb_spec (pc mod d) 0) as [E|E]; cbn [andb]; trivial.
  destruct (Z.leb_spec (d ^ 2) pc) as [Hsq|Hsq]; trivial.
  exfalso. apply Z.mod_divide in E; [|lia].
  rewrite Z.pow_2_r in Hsq.
  destruct Hp as [_ Hp]. apply (Hp d); trivial. nia.
Qed.

Lemma survives_true_inv pc table :
  survives pc table = Ret true ->
  Forall (fun d => d <> 0 /\ ~ (pc mod d = 0 /\ d ^ 2 <= pc)) table.
Proof.
  induction table as [|d table IH]; intros H; [constructor|].
  cbn [survives] in H. destruct (Z.eqb_spec d 0); [discriminate|].
  destruct (Z.eqb_spec (pc mod d) 0); destruct (Z.leb_spec (d ^ 2) pc);
    cbn [andb] in H; try discriminate; (constructor; [split; [trivial|lia]|now apply IH]).
Qed.

Lemma survives_false_inv pc table :
  survives pc table = Ret false ->
  Exists (fun d => pc mod d = 0 /\ d ^ 2 <= pc) table.
Proof.
  induction table as [|d table IH]; intros H; [discriminate|].
  cbn [survives] in H. destruct (Z.eqb_spec d 0); [discriminate|].
  destruct (Z.eqb_spec (pc mod d) 0); destruct (Z.leb_spec (d ^ 2) pc);
    cbn [andb] in H; try (right; now apply IH).
  left. split; trivial.
Qed.

(** X11. What the sieve returns is of the drawn range and has no divisor [d] in
    the table with [d * d] up to it; every draw it passed over had one. *)
Theorem get_lowlevel_prime_postcondition (table : list Z) (n : Z) (tp : tape)
  (pc : Z) (rest : tape) :
  get_lowlevel_prime table n tp = Ok pc rest ->
  2 ^ (n - 1) + 1 <= pc < 2 ^ n - 1 /\
  Forall (fun d => d <> 0 /\ ~ (pc mod d = 0 /\ d ^ 2 <= pc)) table /\
  exists rejected,
    tp = rejected ++ pc :: rest /\
    Forall (fun c => Exists (fun d => c mod d = 0 /\ d ^ 2 <= c) table) rejected.
Proof.
  intros H. apply get_lowlevel_prime_inv in H.
  destruct H as (rej & -> & Hr & Hrej & Hs).
  split; [|split].
  - apply Forall_app in Hr. destruct Hr as [_ Hr]. now inversion Hr.
  - now apply survives_true_inv.
  - exists rej. split; trivial.
    eapply Forall_impl; [|exact Hrej]. intros c. apply survives_false_inv.
Qed.

Lemma get_lowlevel_prime_postcondition_witness :
  2 ^ (16 - 1) + 1 <= 65521 < 2 ^ 16 - 1 /\
  Forall (fun d => d <> 0 /\ ~ (65521 mod d = 0 /\ d ^ 2 <= 65521)) first_primes_table /\
  exists rejected,
    [40000; 40001; 65521] = rejected ++ 65521 :: [] /\
    Forall (fun c => Exists (fun d => c mod d = 0 /\ d ^ 2 <= c) first_primes_table)
           rejected.
Proof.
  apply (get_lowlevel_prime_postcondition first_primes_table 16
           [40000; 40001; 65521] 65521 []).
  vm_compute. reflexivity.
Defined.

Lemma get_lowlevel_prime_on_prime (table : list Z) (n pc : Z) (rest : tape) :
  Forall (fun d => 1 < d) table -> Z.prime pc ->
  2 ^ (n - 1) + 1 <= pc < 2 ^ n - 1 -> 1 <= n ->
  get_lowlevel_prime table n (pc :: rest) = Ok pc rest.
Proof.
  intros Ht Hp Hr Hn. unfold get_lowlevel_prime.
  destruct (Z.ltb_spec n 1); [lia|].
  cbn [List.length get_lowlevel_prime_loop]. unfold bind.
  rewrite randrange_draw by trivial. now rewrite survives_prime.
Qed.

(** X12. With a table of numbers above 1 the sieve never rejects a prime: a prime
    drawn from the range is returned at once. *)
Theorem get_lowlevel_prime_keeps_primes (table : list Z) (n pc : Z) (rest : tape) :
  Forall (fun d => 1 < d) table -> Z.prime pc ->
  2 ^ (n - 1) + 1 <= pc < 2 ^ n - 1 -> 1 <= n ->
  get_lowlevel_prime table n (pc :: rest) = Ok pc rest.
Proof.
  intros Ht Hp Hr Hn. unfold get_lowlevel_prime.
  destruct (Z.ltb_spec n 1); [lia|].
  cbn [List.length get_lowlevel_prime_loop]. unfold bind.
  rewrite randrange_draw by trivial.
  now rewrite (survives_prime table pc Ht Hp).
Qed.

Lemma prime_13 : Z.prime 13.
Proof.
  split; [lia|]. intros k Hk [u Hu].
  assert (Hu' : 0 < u < 13) by nia.
  assert (Hc : u = 1 \/ u = 2 \/ u = 3 \/ u = 4 \/ u = 5 \/ u = 6 \/ u = 7 \/
               u = 8 \/ u = 9 \/ u = 10 \/ u = 11 \/ u = 12) by lia.
  repeat (destruct Hc as [Hc|Hc]; [subst u; lia|]). subst u; lia.
Qed.

Lemma first_primes_table_above_1 : Forall (fun d => 1 < d) first_primes_table.
Proof.
  apply Forall_forall. intros d Hd.
  assert (H : forallb (fun d => 1 <? d) first_primes_table = true)
    by (vm_compute; reflexivity).
  rewrite forallb_forall in H. apply Z.ltb_lt. now apply H.
Qed.

Lemma get_lowlevel_prime_keeps_primes_witness :
  get_lowlevel_prime first_primes_table 4 (13 :: [9]) = Ok 13 [9].
Proof.
  apply (get_lowlevel_prime_keeps_primes first_primes_table 4 13 [9]).
  - apply first_primes_table_above_1.
  - apply prime_13.
  - cbn. lia.
  - lia.
Defined.

(** ** [test_MillerRabin]: liars, small candidates, and its assertion *)

(** X13. The witness [candidate - 1] convicts no odd candidate: when every round
    draws it, the test answers True on every odd number above 2, composite
    or not. *)
Theorem test_MillerRabin_accepts_on_witness_minus_one (candidate : Z) (rest : tape) :
  2 < candidate -> candidate mod 2 = 1 ->
  test_MillerRabin candidate (repeat (candidate - 1) number_trials ++ rest)
  = Ok true rest.
Proof. apply test_MillerRabin_minus_one. Qed.

Lemma test_MillerRabin_accepts_on_witness_minus_one_witness :
  test_MillerRabin 15 (repeat (15 - 1) number_trials ++ [7]) = Ok true [7] /\
  15 = 3 * 5.
Proof.
  split; [|reflexivity].
  apply (test_MillerRabin_accepts_on_witness_minus_one 15 [7]); [lia|reflexivity].
Defined.

Lemma decompose_product ec d s :
  decompose ec = Ret (d, s) -> 2 ^ s * d = ec /\ ec <> 0.
Proof.
  destruct ec as [|q|q]; cbn [decompose]; try discriminate;
    rewrite strip_twos_eq, Z.add_0_l; intros H; inversion H; subst;
    pose proof (odd_part_val2 q); split; lia.
Qed.

Lemma decompose_returns ec : ec <> 0 -> exists d s, decompose ec = Ret (d, s).
Proof.
  destruct ec as [|q|q]; [congruence| |]; intros _; cbn [decompose];
    rewrite strip_twos_eq; eauto.
Qed.

Lemma trials_error k c d s : forall tp e,
  trials k c d s tp = Err e -> e = ValueError /\ c <= 2.
Proof.
  induction k as [|k IH]; intros tp e H; [discriminate|].
  cbn [trials] in H. unfold bind in H.
  destruct (randrange 2 c tp) as [w mid| | | |] eqn:E; try discriminate.
  - destruct (is_composite c d s w); [discriminate|]. eapply IH; eauto.
  - unfold randrange in E. destruct (Z.leb_spec c 2).
    + inversion E. inversion H. subst. split; [reflexivity|lia].
    + destruct tp as [|v tp']; [discriminate|].
      destruct ((2 <=? v) && (v <? c)); discriminate.
Qed.

(** X14. The assertion on the decomposition of [candidate - 1] never fails, and
    the test raises nothing but the [ValueError] of an empty witness range,
    which takes a candidate of at most 2. *)
Theorem test_MillerRabin_only_raises_ValueError (candidate : Z) (tp : tape) (e : exn) :
  test_MillerRabin candidate tp = Err e -> e = ValueError /\ candidate <= 2.
Proof.
  unfold test_MillerRabin. unfold bind at 1.
  destruct (decompose (candidate - 1)) as [[d s]|e0|] eqn:E; cbn [lift]; try discriminate.
  - destruct (decompose_product _ _ _ E) as [Hp _].
    rewrite Hp, Z.eqb_refl. apply trials_error.
  - exfalso. destruct (candidate - 1) as [|c|c]; cbn [decompose] in E;
      try discriminate; destruct (strip_twos c 0); discriminate.
Qed.

Lemma test_MillerRabin_only_raises_ValueError_witness :
  ValueError = ValueError /\ 2 <= 2.
Proof.
  apply (test_MillerRabin_only_raises_ValueError 2 [5; 6] ValueError). reflexivity.
Defined.

(** X15. The candidates up to 2: on 1 the halving loop never ends, on the others
    the range of the witnesses is empty. *)
Theorem test_MillerRabin_on_small_candidates (candidate : Z) (tp : tape) :
  candidate <= 2 ->
  test_MillerRabin candidate tp = if candidate =? 1 then Loops else Err ValueError.
Proof.
  intros Hc. destruct (Z.eqb_spec candidate 1) as [->|Hne]; [reflexivity|].
  unfold test_MillerRabin. unfold bind at 1.
  destruct (decompose_returns (candidate - 1) ltac:(lia)) as (d & s & E).
  rewrite E. cbn [lift].
  destruct (decompose_product _ _ _ E) as [Hp _]. rewrite Hp, Z.eqb_refl.
  unfold number_trials. cbn [trials]. unfold bind, randrange.
  destruct (Z.leb_spec candidate 2); [reflexivity|lia].
Qed.

Lemma test_MillerRabin_on_small_candidates_witness :
  test_MillerRabin (-4) [3] = if -4 =? 1 then Loops else Err ValueError.
Proof. apply (test_MillerRabin_on_small_candidates (-4) [3]). lia. Defined.

(** ** [get_prime] returns a drawn prime at once *)

(** X16. A prime drawn from the range is returned by [get_prime] at once, whatever
    the witnesses of the 20 rounds: neither the sieve nor the test sends it
    back. *)
Theorem get_prime_returns_a_drawn_prime (table : list Z) (prime_len l c : Z)
  (witnesses rest : tape) :
  Forall (fun d => 1 < d) table -> Z.prime c ->
  1 <= prime_len -> 2 ^ (prime_len - 1) + 1 <= c < 2 ^ prime_len - 1 ->
  List.length witnesses = number_trials ->
  Forall (fun w => 2 <= w < c) witnesses ->
  get_prime table prime_len l (c :: witnesses ++ rest) = Ok c rest.
Proof.
  intros Ht Hp Hl Hr Hlen Hws.
  assert (H2 : 2 < c).
  { assert (0 < 2 ^ (prime_len - 1)) by (apply Z.pow_pos_nonneg; lia).
    destruct (Z.eq_dec prime_len 1) as [->|]; [cbn in Hr; lia|].
    assert (2 ^ 1 <= 2 ^ (prime_len - 1)) by (apply Z.pow_le_mono_r; lia).
    change (2 ^ 1) with 2 in *. lia. }
  unfold get_prime.
  rewrite (bind_Ok _ _ _ _ _
             (get_lowlevel_prime_on_prime table prime_len c (witnesses ++ rest)
                Ht Hp Hr Hl)).
  cbn [List.length get_prime_loop].
  assert (E : test_MillerRabin c (witnesses ++ rest) = Ok true rest).
  { rewrite test_MillerRabin_unfold by lia.
    apply trials_accept; trivial.
    eapply Forall_impl; [|exact Hws]. cbn. intros w Hw. split; trivial.
    now apply is_composite_prime. }
  now rewrite (bind_Ok _ _ _ _ _ E).
Qed.

Lemma get_prime_returns_a_drawn_prime_witness :
  get_prime first_primes_table 4 99
    (13 :: [2; 3; 4; 5; 6; 7; 8; 9; 10; 11; 12; 2; 3; 4; 5; 6; 7; 8; 9; 10] ++ [1])
  = Ok 13 [1].
Proof.
  apply (get_prime_returns_a_drawn_prime first_primes_table 4 99 13).
  - apply first_primes_table_above_1.
  - apply prime_13.
  - lia.
  - cbn. lia.
  - reflexivity.
  - repeat constructor; lia.
Defined.

(** ** Encryption followed by decryption *)

Lemma jacobi_symbol_of_Ret a p v :
  jacobi a p = Ret v -> v = jacobi_symbol a p.
Proof.
  intros H. destruct (jacobi_Ret_inv _ _ _ H) as (Hp & Hodd & Ha & _).
  rewrite jacobi_computes_symbol in H by trivial. now inversion H.
Qed.

Lemma mod_factor x p q : 0 < p -> 0 < q -> (x mod (p * q)) mod p = x mod p.
Proof.
  intros Hp Hq. apply Z.mod_mod_divide. exists q. ring.
Qed.

Lemma jacobi_of_residue p q z a xi :
  0 < p -> p mod 2 = 1 -> 0 < q ->
  jacobi z p = Ret (-1) -> Z.gcd a p = 1 ->
  (Ascii.eqb xi "0" || Ascii.eqb xi "1") = true ->
  jacobi ((z ^ bit_value xi * a ^ 2) mod (p * q)) p =
  Ret (if Ascii.eqb xi "1" then -1 else 1) /\
  ((z ^ bit_value xi * a ^ 2) mod (p * q)) mod p <> 0.
Proof.
  intros Hp Hodd Hq Hz Ha Hxi.
  pose proof (jacobi_symbol_of_Ret _ _ _ Hz) as Jz.
  assert (Gz : Z.gcd z p = 1).
  { destruct (jacobi_value _ _ _ Hz) as [[G _]|[_ G]]; [trivial|discriminate]. }
  assert (Ja : jacobi_symbol (a ^ 2) p = 1).
  { rewrite Z.pow_2_r, jacobi_symbol_mul by trivial.
    unfold jacobi_symbol. rewrite Ha. cbn.
    destruct (gauss_symbol_cases a p) as [E|E]; rewrite E; reflexivity. }
  assert (Ga : Z.gcd (a ^ 2) p = 1) by (apply Z.coprime_pow_l; [lia|trivial]).
  set (Y := z ^ bit_value xi * a ^ 2).
  assert (GY : Z.gcd Y p = 1).
  { apply Z.coprime_mul_l; trivial. apply Z.coprime_pow_l; trivial.
    unfold bit_value. destruct (Ascii.eqb xi "1"); lia. }
  assert (HY : Y mod p <> 0).
  { destruct (Z.eq_dec p 1) as [->|].
    - exfalso. apply jacobi_Ret_inv in Hz. destruct Hz as (_ & _ & Hz & _).
      now rewrite Z.mod_1_r in Hz.
    - apply coprime_mod_nonzero; trivial. lia. }
  split; [|now rewrite mod_factor].
  rewrite <- jacobi_mod, mod_factor, jacobi_mod by trivial.
  rewrite jacobi_computes_symbol by trivial. f_equal.
  subst Y. rewrite jacobi_symbol_mul, Ja, Z.mul_1_r by trivial.
  unfold bit_value. destruct (Ascii.eqb xi "1").
  - now rewrite Z.pow_1_r.
  - rewrite Z.pow_0_r. unfold jacobi_symbol. rewrite Z.gcd_1_l. cbn.
    now apply gauss_symbol_1.
Qed.

Lemma residues_decrypted p q z bits : forall masks,
  0 < p -> p mod 2 = 1 -> 0 < q ->
  jacobi z p = Ret (-1) -> bit_string bits = true ->
  List.length masks = String.length bits ->
  Forall (fun a => Z.gcd a p = 1) masks ->
  Forall (fun y => y mod p <> 0) (residues (p * q) z bits masks) /\
  decrypted_of p (residues (p * q) z bits masks) = bits.
Proof.
  induction bits as [|xi bits IH]; intros masks Hp Hodd Hq Hz Hb Hl Hm.
  - destruct masks; [|discriminate]. split; [constructor|reflexivity].
  - destruct masks as [|a masks]; [discriminate|].
    cbn [bit_string] in Hb. apply andb_true_iff in Hb. destruct Hb as [Hxi Hb].
    inversion Hm as [|? ? Ha Hm']. subst.
    destruct (IH masks Hp Hodd Hq Hz Hb ltac:(cbn in Hl; lia) Hm') as [IH1 IH2].
    destruct (jacobi_of_residue p q z a xi Hp Hodd Hq Hz Ha Hxi) as [Hj Hy].
    cbn [residues decrypted_of]. rewrite Hj, IH2. split; [now constructor|].
    apply orb_true_iff in Hxi.
    destruct Hxi as [E|E]; apply Ascii.eqb_eq in E; subst xi; reflexivity.
Qed.

(** X17. With an anchor [z] whose symbol over [p] is -1, and masking values
    coprime to [p], what the encryption loop emits under the modulus [p * q]
    decrypts to the bits that went in. *)
Theorem decrypt_undoes_encrypt (p q z : Z) (bits : string) (masks rest : tape) :
  0 < p -> p mod 2 = 1 -> 0 < q -> 0 <= z ->
  jacobi z p = Ret (-1) -> bit_string bits = true ->
  List.length masks = String.length bits ->
  Forall (fun a => 1 <= a <= p * q /\ Z.gcd a p = 1) masks ->
  exists encrypted_text,
    encrypt (p * q) z bits (masks ++ rest) = Ok encrypted_text rest /\
    decrypt p encrypted_text = Ret bits.
Proof.
  intros Hp Hodd Hq Hz0 Hz Hb Hl Hm.
  exists (residues (p * q) z bits masks). split.
  - unfold encrypt. rewrite encrypt_loop_emits; trivial.
    eapply Forall_impl; [|exact Hm]. cbn. tauto.
  - destruct (residues_decrypted p q z bits masks) as [H1 H2]; trivial.
    { eapply Forall_impl; [|exact Hm]. cbn. tauto. }
    unfold decrypt. rewrite decrypt_loop_returns by trivial. now rewrite H2.
Qed.

Lemma decrypt_undoes_encrypt_witness :
  exists encrypted_text,
    encrypt (23 * 59) 10 "1001" ([3; 5; 1356; 100] ++ [8]) = Ok encrypted_text [8] /\
    decrypt 23 encrypted_text = Ret "1001"%string.
Proof.
  apply (decrypt_undoes_encrypt 23 59 10 "1001" [3; 5; 1356; 100] [8]);
    try lia; try reflexivity.
  repeat constructor; try lia; reflexivity.
Defined.



Lemma residues_with_multiple p q z bits : forall masks,
  0 < p -> 0 < q -> List.length masks = String.length bits ->
  Exists (fun a => (p | a)) masks ->
  Exists (fun y => y mod p = 0) (residues (p * q) z bits masks).
Proof.
  induction bits as [|xi bits IH]; intros masks Hp Hq Hl Hm.
  - destruct masks; [inversion Hm|discriminate].
  - destruct masks as [|a masks]; [discriminate|]. cbn [residues].
    inversion Hm as [? ? Ha|? ? Hm']; subst.
    + left. rewrite mod_factor by trivial.
      apply Z.mod_divide; [lia|]. apply Z.divide_mul_r.
      rewrite Z.pow_2_r. now apply Z.divide_mul_l.
    + right. apply IH; trivial. cbn in Hl. lia.
Qed.

(** X19. A masking value that is a multiple of [p] -- a draw [randint(1, n)] can
    make -- gives a residue on which decryption stops with the assertion
    error of [jacobi]. *)
Theorem decrypt_fails_on_a_mask_multiple_of_p (p q z : Z) (bits : string)
  (masks rest : tape) :
  0 < p -> p mod 2 = 1 -> 0 < q -> 0 <= z -> bit_string bits = true ->
  List.length masks = String.length bits ->
  Forall (fun a => 1 <= a <= p * q) masks ->
  Exists (fun a => (p | a)) masks ->
  exists encrypted_text,
    encrypt (p * q) z bits (masks ++ rest) = Ok encrypted_text rest /\
    decrypt p encrypted_text = Raise AssertionError.
Proof.
  intros Hp Hodd Hq Hz Hb Hl Hm Hex.
  exists (residues (p * q) z bits masks). split.
  - unfold encrypt. now rewrite encrypt_loop_emits.
  - unfold decrypt. apply decrypt_loop_raises; trivial.
    now apply residues_with_multiple.
Qed.

Lemma decrypt_fails_on_a_mask_multiple_of_p_witness :
  exists encrypted_text,
    encrypt (23 * 59) 10 "10" ([3; 46] ++ []) = Ok encrypted_text [] /\
    decrypt 23 encrypted_text = Raise AssertionError.
Proof.
  apply (decrypt_fails_on_a_mask_multiple_of_p 23 59 10 "10" [3; 46] []);
    try lia; try reflexivity.
  - repeat constructor; lia.
  - right. left. exists 2. reflexivity.
Defined.

(** ** What decryption hands to the post-processing *)

Lemma decrypt_loop_bits p ys : forall acc out,
  decrypt_loop p ys acc = Ret out -> bit_string acc = true ->
  bit_string out = true /\
  (String.length out <= String.length acc + List.length ys)%nat.
Proof.
  induction ys as [|y ys IH]; intros acc out H Hacc.
  - cbn in H. inversion H. subst. split; [trivial|cbn; lia].
  - cbn [decrypt_loop] in H.
    destruct (jacobi y p) as [j| |]; try discriminate.
    destruct (j =? 1).
    + apply IH in H.
      * rewrite length_append_s in H. cbn [List.length String.length] in *. split; [tauto|lia].
      * now rewrite bit_string_app, Hacc.
    + destruct (j =? -1).
      * apply IH in H.
        -- rewrite length_append_s in H. cbn [List.length String.length] in *.
           split; [tauto|lia].
        -- now rewrite bit_string_app, Hacc.
      * apply IH in H; trivial. cbn [List.length]. split; [tauto|lia].
Qed.

(** X20. Whatever the residues and the modulus, a decryption that returns gives a
    string of the characters 0 and 1, no longer than the ciphertext, and the
    post-processing of it never raises. *)
Theorem decrypted_text_is_bits (p : Z) (ys : list Z) (out : string) :
  decrypt p ys = Ret out ->
  bit_string out = true /\ (String.length out <= List.length ys)%nat /\
  exists l, recover_text out = Ret l /\ Forall (fun c => 0 <= c < 256) l.
Proof.
  intros H. apply decrypt_loop_bits in H; [|reflexivity].
  destruct H as [Hb Hl]. split; [trivial|]. split; [cbn in Hl; lia|].
  destruct (recover_text_bits out Hb) as (l & E & Hall & _). eauto.
Qed.

Lemma decrypted_text_is_bits_witness :
  bit_string "01" = true /\
  (String.length "01" <= List.length [4; 3; 7])%nat /\
  exists l, recover_text "01" = Ret l /\ Forall (fun c => 0 <= c < 256) l.
Proof.
  apply (decrypted_text_is_bits 15 [4; 3; 7] "01"). reflexivity.
Defined.

(** ** The symbol over a product of moduli *)

Lemma odd_mod_4 n : n mod 2 = 1 -> n mod 4 = 1 \/ n mod 4 = 3.
Proof. intros H. Z.to_euclidean_division_equations. lia. Qed.

Lemma odd_mod_8 n :
  n mod 2 = 1 -> n mod 8 = 1 \/ n mod 8 = 3 \/ n mod 8 = 5 \/ n mod 8 = 7.
Proof. intros H. Z.to_euclidean_division_equations. lia. Qed.

Lemma odd_mul m n : m mod 2 = 1 -> n mod 2 = 1 -> (m * n) mod 2 = 1.
Proof. intros Hm Hn. now rewrite Z.mul_mod, Hm, Hn by lia. Qed.

Lemma two_sign_mul m n :
  m mod 2 = 1 -> n mod 2 = 1 -> two_sign (m * n) = two_sign m * two_sign n.
Proof.
  intros Hm Hn. unfold two_sign. rewrite (Z.mul_mod m n 8) by lia.
  destruct (odd_mod_8 m Hm) as [E|[E|[E|E]]]; rewrite E;
    destruct (odd_mod_8 n Hn) as [F|[F|[F|F]]]; rewrite F; reflexivity.
Qed.

Lemma reciprocity_sign_mul a m n :
  a mod 2 = 1 -> m mod 2 = 1 -> n mod 2 = 1 ->
  (if (a mod 4 =? 3) && ((m * n) mod 4 =? 3) then -1 else 1) =
  (if (a mod 4 =? 3) && (m mod 4 =? 3) then -1 else 1) *
  (if (a mod 4 =? 3) && (n mod 4 =? 3) then -1 else 1).
Proof.
  intros Ha Hm Hn. rewrite (Z.mul_mod m n 4) by lia.
  destruct (odd_mod_4 a Ha) as [D|D]; rewrite D;
    destruct (odd_mod_4 m Hm) as [E|E]; rewrite E;
    destruct (odd_mod_4 n Hn) as [F|F]; rewrite F; reflexivity.
Qed.

Lemma gauss_symbol_modulus_1 a : gauss_symbol a 1 = 1.
Proof. reflexivity. Qed.

Lemma gauss_symbol_mul_r_odd a m n :
  0 < m -> m mod 2 = 1 -> 0 < n -> n mod 2 = 1 ->
  0 < a -> a mod 2 = 1 -> Z.gcd a m = 1 -> Z.gcd a n = 1 ->
  gauss_symbol a (m * n) = gauss_symbol a m * gauss_symbol a n.
Proof.
  intros Hm Hmo Hn Hno Ha Hao Gm Gn.
  assert (Gmn : Z.gcd a (m * n) = 1).
  { now apply Z.coprime_mul_r. }
  pose proof (gauss_symbol_reciprocity a (m * n) ltac:(nia) (odd_mul m n Hmo Hno)
                Ha Hao Gmn) as R3.
  pose proof (gauss_symbol_reciprocity a m Hm Hmo Ha Hao Gm) as R1.
  pose proof (gauss_symbol_reciprocity a n Hn Hno Ha Hao Gn) as R2.
  rewrite (reciprocity_sign_mul a m n Hao Hmo Hno) in R3.
  rewrite (gauss_symbol_mul m n a Ha Hao) in R3 by now rewrite Z.gcd_comm.
  set (e1 := if (a mod 4 =? 3) && (m mod 4 =? 3) then -1 else 1) in *.
  set (e2 := if (a mod 4 =? 3) && (n mod 4 =? 3) then -1 else 1) in *.
  assert (He1 : e1 = 1 \/ e1 = -1)
    by (subst e1; destruct ((a mod 4 =? 3) && (m mod 4 =? 3)); auto).
  assert (He2 : e2 = 1 \/ e2 = -1)
    by (subst e2; destruct ((a mod 4 =? 3) && (n mod 4 =? 3)); auto).
  clearbody e1 e2.
  destruct (gauss_symbol_cases m a) as [X|X]; rewrite X in *;
    destruct (gauss_symbol_cases n a) as [Y|Y]; rewrite Y in *;
    destruct He1 as [-> | ->]; destruct He2 as [-> | ->]; lia.
Qed.

Lemma gauss_symbol_mul_r_pos a m n :
  0 < m -> m mod 2 = 1 -> 0 < n -> n mod 2 = 1 ->
  0 < a -> Z.gcd a m = 1 -> Z.gcd a n = 1 ->
  gauss_symbol a (m * n) = gauss_symbol a m * gauss_symbol a n.
Proof.
  intros Hm Hmo Hn Hno Ha Gm Gn.
  destruct a as [|c|c]; try lia.
  pose proof (odd_part_val2 c) as E. pose proof (odd_part_odd c) as Ho.
  set (b := Z.pos (odd_part c)) in *. set (k := val2 c) in *.
  rewrite E in Gm, Gn |- *.
  destruct (gcd_mul_1 _ _ _ Gm) as [_ Gbm]. destruct (gcd_mul_1 _ _ _ Gn) as [_ Gbn].
  assert (Gbmn : Z.gcd b (m * n) = 1).
  { now apply Z.coprime_mul_r. }
  rewrite !gauss_symbol_pow2; trivial; try nia; try (now apply odd_mul).
  rewrite two_sign_mul, Z.pow_mul_l by trivial.
  rewrite (gauss_symbol_mul_r_odd b m n Hm Hmo Hn Hno ltac:(subst b; lia) Ho Gbm Gbn).
  ring.
Qed.

Lemma gcd_mod_l x k : k <> 0 -> Z.gcd (x mod k) k = Z.gcd x k.
Proof. intros Hk. rewrite Z.gcd_mod by trivial. apply Z.gcd_comm. Qed.

Lemma gauss_symbol_mul_r a m n :
  0 < m -> m mod 2 = 1 -> 0 < n -> n mod 2 = 1 ->
  Z.gcd a m = 1 -> Z.gcd a n = 1 ->
  gauss_symbol a (m * n) = gauss_symbol a m * gauss_symbol a n.
Proof.
  intros Hm Hmo Hn Hno Gm Gn.
  destruct (Z.eq_dec (m * n) 1) as [E1|E1].
  - assert (m = 1) by nia. assert (n = 1) by nia. subst. reflexivity.
  - set (a' := a mod (m * n)).
    assert (Gmn : Z.gcd a (m * n) = 1).
    { now apply Z.coprime_mul_r. }
    assert (Ha' : 0 < a').
    { pose proof (Z.mod_pos_bound a (m * n) ltac:(nia)).
      assert (a' <> 0); [|subst a'; lia].
      apply coprime_mod_nonzero; trivial. nia. }
    rewrite <- (gauss_symbol_mod a (m * n)), <- (gauss_symbol_mod a m),
      <- (gauss_symbol_mod a n).
    rewrite <- (Z.mod_mod_divide a (m * n) m) by (exists n; ring).
    rewrite <- (Z.mod_mod_divide a (m * n) n) by (exists m; ring).
    fold a'. rewrite !gauss_symbol_mod.
    apply gauss_symbol_mul_r_pos; trivial.
    + rewrite <- (gcd_mod_l a' m) by lia.
      subst a'. rewrite Z.mod_mod_divide by (exists n; ring).
      now rewrite gcd_mod_l by lia.
    + rewrite <- (gcd_mod_l a' n) by lia.
      subst a'. rewrite Z.mod_mod_divide by (exists m; ring).
      now rewrite gcd_mod_l by lia.
Qed.

Lemma jacobi_symbol_mul_r a m n :
  0 < m -> m mod 2 = 1 -> 0 < n -> n mod 2 = 1 ->
  jacobi_symbol a (m * n) = jacobi_symbol a m * jacobi_symbol a n.
Proof.
  intros Hm Hmo Hn Hno. unfold jacobi_symbol.
  destruct (Z.eqb_spec (Z.gcd a (m * n)) 1) as [G|G].
  - rewrite Z.gcd_comm in G. apply gcd_mul_1 in G. destruct G as [Gm Gn].
    rewrite Z.gcd_comm in Gm, Gn. rewrite Gm, Gn. cbn.
    now apply gauss_symbol_mul_r.
  - destruct (Z.eqb_spec (Z.gcd a m) 1) as [Gm|Gm]; [|lia].
    destruct (Z.eqb_spec (Z.gcd a n) 1) as [Gn|Gn]; [|lia].
    exfalso. apply G. now apply Z.coprime_mul_r.
Qed.

Lemma mod_product_nonzero a m n :
  0 < m -> 0 < n -> a mod m <> 0 -> a mod (m * n) <> 0.
Proof.
  intros Hm Hn Ha E. apply Ha.
  rewrite <- (Z.mod_mod_divide a (m * n) m) by (exists n; ring).
  now rewrite E.
Qed.

(** X21. The symbol [jacobi] returns is multiplicative in the modulus too: over
    a product of odd moduli it is the product of the symbols over the
    factors. *)
Theorem jacobi_over_a_product_of_moduli (a m n : Z) :
  0 < m -> m mod 2 = 1 -> 0 < n -> n mod 2 = 1 ->
  a mod m <> 0 -> a mod n <> 0 ->
  exists vm vn,
    jacobi a m = Ret vm /\ jacobi a n = Ret vn /\
    jacobi a (m * n) = Ret (vm * vn).
Proof.
  intros Hm Hmo Hn Hno Ham Han.
  exists (jacobi_symbol a m), (jacobi_symbol a n).
  pose proof (mod_product_nonzero a m n Hm Hn Ham) as Hamn.
  pose proof (odd_mul m n Hmo Hno) as Hmno.
  rewrite (jacobi_computes_symbol a m), (jacobi_computes_symbol a n),
    (jacobi_computes_symbol a (m * n)) by (trivial; nia).
  now rewrite jacobi_symbol_mul_r.
Qed.

Lemma jacobi_over_a_product_of_moduli_witness :
  exists vm vn,
    jacobi 10 23 = Ret vm /\ jacobi 10 59 = Ret vn /\
    jacobi 10 (23 * 59) = Ret (vm * vn).
Proof.
  apply (jacobi_over_a_product_of_moduli 10 23 59); try lia; try reflexivity;
    vm_compute; discriminate.
Defined.

(** ** [jacobi] on every input *)

(** X22. The whole behaviour of [jacobi]: division by zero when [p] is 0, the
    assertion error when [p] is negative or even or divides [a], and
    otherwise the Jacobi symbol of [a] over [p]; the loop always ends. *)
Theorem jacobi_on_every_input (a p : Z) :
  jacobi a p =
  if p =? 0 then Raise ZeroDivisionError
  else if (0 <? p) && (p mod 2 =? 1) && negb (a mod p =? 0)
       then Ret (jacobi_symbol a p)
       else Raise AssertionError.
Proof.
  destruct (Z.eqb_spec p 0) as [->|Hp0]; [reflexivity|].
  destruct (Z.ltb_spec 0 p) as [Hp|Hp]; cbn [andb].
  - destruct (Z.eqb_spec (p mod 2) 1) as [Hodd|Hodd]; cbn [andb].
    + destruct (Z.eqb_spec (a mod p) 0) as [Ha|Ha]; cbn [negb].
      * apply jacobi_assertion; trivial. right. right. apply Z.mod_divide; lia.
      * now apply jacobi_computes_symbol.
    + apply jacobi_assertion; trivial. left.
      pose proof (Z.mod_pos_bound p 2 ltac:(lia)). lia.
  - apply jacobi_negative_modulus. lia.
Qed.

(** ** The sampler when [n] is the product of [p] and [q] *)

Lemma jacobi_anchor_product a p q :
  jacobi a p = Ret (-1) -> jacobi a q = Ret (-1) -> jacobi a (p * q) = Ret 1.
Proof.
  intros Hp Hq.
  destruct (jacobi_Ret_inv _ _ _ Hp) as (Hp0 & Hpo & Hap & _).
  destruct (jacobi_Ret_inv _ _ _ Hq) as (Hq0 & Hqo & Haq & _).
  pose proof (jacobi_symbol_of_Ret _ _ _ Hp) as Jp.
  pose proof (jacobi_symbol_of_Ret _ _ _ Hq) as Jq.
  rewrite jacobi_computes_symbol.
  - now rewrite jacobi_symbol_mul_r, <- Jp, <- Jq by trivial.
  - nia.
  - now apply odd_mul.
  - now apply mod_product_nonzero.
Qed.

(** X23. When [n] is [p * q] the third test of the sampler never rejects: a draw
    with the symbol -1 over [p] and over [q] is returned at once. *)
Theorem generate_pseudo_square_third_test_is_implied (p q a : Z) (rest : tape) :
  2 <= a <= p * q - 1 ->
  jacobi a p = Ret (-1) -> jacobi a q = Ret (-1) ->
  jacobi a (p * q) = Ret 1 /\
  generate_pseudo_square (p * q) p q (a :: rest) = Ok a rest.
Proof.
  intros Ha Hp Hq. pose proof (jacobi_anchor_product a p q Hp Hq) as Hn.
  split; trivial.
  unfold generate_pseudo_square. cbn [List.length generate_pseudo_square_loop].
  unfold bind at 1. unfold randint. rewrite randrange_draw by lia.
  unfold bind at 1. rewrite Hp. cbn [lift].
  unfold bind at 1. rewrite Hq. cbn [lift Z.eqb andb].
  unfold bind. rewrite Hn. reflexivity.
Qed.

Lemma generate_pseudo_square_third_test_is_implied_witness :
  jacobi 10 (23 * 59) = Ret 1 /\
  generate_pseudo_square (23 * 59) 23 59 (10 :: [4]) = Ok 10 [4].
Proof.
  apply (generate_pseudo_square_third_test_is_implied 23 59 10 [4]);
    [lia|reflexivity|reflexivity].
Defined.

(** X24. An empty range of draws: for [n] up to 2 the sampler raises the
    [ValueError] of [random.randint(2, n - 1)], whatever [p] and [q]. *)
Theorem generate_pseudo_square_on_small_n (n p q : Z) (tp : tape) :
  n <= 2 -> generate_pseudo_square n p q tp = Err ValueError.
Proof.
  intros Hn. unfold generate_pseudo_square.
  cbn [generate_pseudo_square_loop]. unfold bind at 1. unfold randint, randrange.
  destruct (Z.leb_spec (n - 1 + 1) 2); [reflexivity|lia].
Qed.

Lemma generate_pseudo_square_on_small_n_witness :
  generate_pseudo_square 2 23 59 [5] = Err ValueError.
Proof. apply (generate_pseudo_square_on_small_n 2 23 59 [5]). lia. Defined.

(** ** The symbol of the ciphertext over the public modulus *)

Lemma residue_symbol_over_n n z a xi :
  jacobi z n = Ret 1 -> Z.gcd a n = 1 ->
  jacobi ((z ^ bit_value xi * a ^ 2) mod n) n = Ret 1.
Proof.
  intros Hz Ha.
  destruct (jacobi_Ret_inv _ _ _ Hz) as (Hn & Hodd & Hzn & _).
  pose proof (jacobi_symbol_of_Ret _ _ _ Hz) as Jz.
  assert (Gz : Z.gcd z n = 1).
  { destruct (jacobi_value _ _ _ Hz) as [[G _]|[_ G]]; [trivial|discriminate]. }
  assert (n <> 1) by (intros ->; now rewrite Z.mod_1_r in Hzn).
  assert (Ja : jacobi_symbol (a ^ 2) n = 1).
  { rewrite Z.pow_2_r, jacobi_symbol_mul by trivial.
    unfold jacobi_symbol. rewrite Ha. cbn.
    destruct (gauss_symbol_cases a n) as [E|E]; rewrite E; reflexivity. }
  set (Y := z ^ bit_value xi * a ^ 2).
  assert (GY : Z.gcd Y n = 1).
  { apply Z.coprime_mul_l.
    - apply Z.coprime_pow_l; trivial.
      unfold bit_value. destruct (Ascii.eqb xi "1"); lia.
    - apply Z.coprime_pow_l; [lia|trivial]. }
  rewrite jacobi_mod by trivial.
  rewrite jacobi_computes_symbol; trivial; [|apply coprime_mod_nonzero; trivial; lia].
  f_equal. subst Y. rewrite jacobi_symbol_mul, Ja, Z.mul_1_r by trivial.
  unfold bit_value. destruct (Ascii.eqb xi "1").
  - now rewrite Z.pow_1_r.
  - rewrite Z.pow_0_r. unfold jacobi_symbol. rewrite Z.gcd_1_l. cbn.
    now apply gauss_symbol_1.
Qed.

(** X25. With an anchor whose symbol over [n] is +1 and masking values coprime to
    [n], every residue the encryption emits has the symbol +1 over [n],
    whatever the bit: the public symbol tells nothing about the plain text. *)
Theorem ciphertext_symbol_over_n_is_one (n z : Z) (bits : string) (masks rest : tape) :
  0 <= z -> jacobi z n = Ret 1 -> bit_string bits = true ->
  List.length masks = String.length bits ->
  Forall (fun a => 1 <= a <= n /\ Z.gcd a n = 1) masks ->
  exists encrypted_text,
    encrypt n z bits (masks ++ rest) = Ok encrypted_text rest /\
    Forall (fun y => jacobi y n = Ret 1) encrypted_text.
Proof.
  intros Hz0 Hz Hb Hl Hm.
  exists (residues n z bits masks). split.
  - unfold encrypt. rewrite encrypt_loop_emits; trivial.
    eapply Forall_impl; [|exact Hm]. cbn. tauto.
  - clear Hz0 Hb rest. revert masks Hl Hm.
    induction bits as [|xi bits IH]; intros masks Hl Hm.
    + destruct masks; [constructor|discriminate].
    + destruct masks as [|a masks]; [discriminate|].
      inversion Hm as [|? ? [_ Ha] Hm']. subst. cbn [residues]. constructor.
      * now apply residue_symbol_over_n.
      * apply IH; trivial. cbn in Hl. lia.
Qed.

Lemma ciphertext_symbol_over_n_is_one_witness :
  exists encrypted_text,
    encrypt 1357 10 "10" ([3; 5] ++ [8]) = Ok encrypted_text [8] /\
    Forall (fun y => jacobi y 1357 = Ret 1) encrypted_text.
Proof.
  apply (ciphertext_symbol_over_n_is_one 1357 10 "10" [3; 5] [8]);
    try lia; try reflexivity.
  repeat constructor; try lia; reflexivity.
Defined.

(** ** What [get_prime] takes on trust *)

(** X26. An odd candidate of the range that passes the sieve is returned, prime
    or not, when every round of the test draws the witness [candidate - 1]. *)
Theorem get_prime_can_return_a_composite (table : list Z) (prime_len l c : Z)
  (rest : tape) :
  1 <= prime_len -> 2 ^ (prime_len - 1) + 1 <= c < 2 ^ prime_len - 1 ->
  survives c table = Ret true -> c mod 2 = 1 ->
  get_prime table prime_len l (mr_tape c ++ rest) = Ok c rest.
Proof.
  intros Hl Hr Hs Hodd. apply get_prime_first_try; trivial.
  assert (0 < 2 ^ (prime_len - 1)) by (apply Z.pow_pos_nonneg; lia).
  destruct (Z.eq_dec prime_len 1) as [->|]; [cbn in Hr; lia|].
  assert (2 ^ 1 <= 2 ^ (prime_len - 1)) by (apply Z.pow_le_mono_r; lia).
  change (2 ^ 1) with 2 in *. lia.
Qed.

Lemma get_prime_can_return_a_composite_witness :
  get_prime first_primes_table 22 22 (mr_tape 3980021 ++ []) = Ok 3980021 [] /\
  3980021 = 1993 * 1997.
Proof.
  split; [|reflexivity].
  apply (get_prime_can_return_a_composite first_primes_table 22 22 3980021 []);
    [lia | cbn; lia | vm_compute; reflexivity | reflexivity].
Defined.

(** ** A completed run of the script *)

Lemma get_prime_positive table prime_len l tp v rest :
  get_prime table prime_len l tp = Ok v rest -> 0 < v.
Proof.
  intros H. apply get_prime_inv in H. destruct H as [(ta & tb & H) _].
  apply get_lowlevel_prime_range in H. destruct H as [H _].
  pose proof (Z.pow_nonneg 2 (prime_len - 1) ltac:(lia)). lia.
Qed.

(** X27. When the script runs to its end: [n] is [p * q]; [z] is an anchor of the
    fixed triple (1357, 23, 59); there is one residue for each of the eight
    bits of each character, each in [0, n); and the decrypted text is a
    string of the characters 0 and 1, no longer than the ciphertext. *)
Theorem script_run_invariants (table : list Z) (prime_len : Z) (plain_text : string)
  (tp : tape) (s : session) (rest : tape) :
  script table prime_len plain_text tp = Ok s rest ->
  key_n s = key_p s * key_q s /\
  (2 <= key_z s <= 1356 /\ jacobi (key_z s) 23 = Ret (-1) /\
   jacobi (key_z s) 59 = Ret (-1)) /\
  binary_text s = binary_text_of plain_text /\
  List.length (encrypted_text s) = (8 * String.length plain_text)%nat /\
  Forall (fun y => 0 <= y < key_n s) (encrypted_text s) /\
  bit_string (decrypted_text s) = true /\
  (String.length (decrypted_text s) <= List.length (encrypted_text s))%nat.
Proof.
  intros H. unfold script in H.
  apply bind_inv in H. destruct H as ([[[p q] n] z] & t1 & Hk & H).
  apply bind_inv in H. destruct H as (enc & t2 & He & H).
  apply bind_inv in H. destruct H as (dec & t3 & Hd & H).
  apply lift_inv in Hd. destruct Hd as [Hd ->].
  unfold ret in H. inversion H. subst s rest. clear H. cbn [key_n key_p key_q key_z
    binary_text encrypted_text decrypted_text].
  unfold key_setup in Hk.
  apply bind_inv in Hk. destruct Hk as (p' & u1 & Hp & Hk).
  apply bind_inv in Hk. destruct Hk as (q' & u2 & Hq & Hk).
  apply bind_inv in Hk. destruct Hk as (z' & u3 & Hz & Hk).
  unfold ret in Hk. inversion Hk. subst p' q' z' n u3. clear Hk.
  apply get_prime_positive in Hp, Hq.
  apply generate_pseudo_square_loop_inv in Hz.
  destruct Hz as (Hz & Hz23 & Hz59 & _).
  destruct (binary_text_round_trip plain_text) as (Hb & Hlen & _).
  unfold encrypt in He. apply encrypt_loop_inv in He; trivial.
  destruct He as (masks & -> & Hml & Hm & ->). cbn [app].
  apply decrypt_loop_bits in Hd; [|reflexivity]. destruct Hd as [Hdb Hdl].
  repeat split; trivial; try lia.
  - now rewrite residues_length, Hlen.
  - apply residues_range. nia.
Qed.

Lemma script_run_invariants_witness :
  exists s,
    script first_primes_table 4 "A"
      (mr_tape 13 ++ mr_tape 11 ++ 10 :: [3; 5; 7; 9; 2; 4; 6; 8]) = Ok s [] /\
    key_n s = key_p s * key_q s /\
    (2 <= key_z s <= 1356 /\ jacobi (key_z s) 23 = Ret (-1) /\
     jacobi (key_z s) 59 = Ret (-1)) /\
    binary_text s = binary_text_of "A" /\
    List.length (encrypted_text s) = (8 * String.length "A")%nat /\
    Forall (fun y => 0 <= y < key_n s) (encrypted_text s) /\
    bit_string (decrypted_text s) = true /\
    (String.length (decrypted_text s) <= List.length (encrypted_text s))%nat.
Proof.
  eexists. split; [vm_compute; reflexivity|].
  apply (script_run_invariants first_primes_table 4 "A"
           (mr_tape 13 ++ mr_tape 11 ++ 10 :: [3; 5; 7; 9; 2; 4; 6; 8]) _ []).
  vm_compute. reflexivity.
Defined.

(** ** Bit lengths too short for a draw *)

(** X28. For the bit lengths 1 and 2 the range of the candidates is empty:
    [random.randrange] raises [ValueError], and so does [get_prime]. *)
Theorem get_prime_on_short_lengths (table : list Z) (prime_len l : Z) (tp : tape) :
  1 <= prime_len <= 2 ->
  get_lowlevel_prime table prime_len tp = Err ValueError /\
  get_prime table prime_len l tp = Err ValueError.
Proof.
  intros Hl.
  assert (E : forall t, get_lowlevel_prime table prime_len t = Err ValueError).
  { intros t. unfold get_lowlevel_prime. destruct (Z.ltb_spec prime_len 1); [lia|].
    cbn [get_lowlevel_prime_loop]. unfold bind, randrange.
    assert (H2 : prime_len = 1 \/ prime_len = 2) by lia.
    destruct H2 as [-> | ->]; reflexivity. }
  split; [apply E|]. unfold get_prime, bind. now rewrite E.
Qed.

Lemma get_prime_on_short_lengths_witness :
  get_lowlevel_prime first_primes_table 2 [3] = Err ValueError /\
  get_prime first_primes_table 2 2 [3] = Err ValueError.
Proof. apply (get_prime_on_short_lengths first_primes_table 2 2 [3]). lia. Defined.
